(** * DeepDream-PyTorch, [utils.py]: image codec, clamp, jitter and cascade
      smoothing

    A shallow embedding of the module [utils.py] and the properties its
    specification states about it.

    - Python [float] is IEEE binary64, [np.float32] and [torch.float32] are
      IEEE binary32.  Both are modelled by the executable [spec_float] of the
      Standard Library, instantiated at the two formats; every arithmetic
      operation rounds to nearest, ties to even, as the hardware does.
    - A 4-D tensor [(batch, channels, height, width)] is a nested list.  A
      dimension of size 0 hides the sizes of the dimensions below it; apart
      from that the nesting is the tensor.
    - Tensors are objects: a store maps handles to tensor objects, and an
      operation that writes through an index assignment updates the object
      in the store, while one that builds a result allocates.
    - Of autograd a tensor object keeps two flags, whether it requires grad
      and whether it is a leaf; the functions are taken as called with grad
      mode on, the default.
    - Python exceptions are the [Raise] branch of [result]. *)

From Stdlib Require Import ZArith QArith Qabs Qpower Qround Lia Lqa SpecFloat.
From stdpp Require Import gmap strings list.

(* ===================================================================== *)
(** * Definitions *)
(* ===================================================================== *)

(** ** Exceptions *)

Inductive exn : Type :=
  | KeyError | IndexError | ValueError | RuntimeError | ZeroDivisionError
  | OverflowError | TypeError.

Inductive result (A : Type) : Type :=
  | Ok (a : A)
  | Raise (e : exn).
Arguments Ok {A} a.
Arguments Raise {A} e.

Definition rbind {A B} (r : result A) (k : A → result B) : result B :=
  match r with Ok a => k a | Raise e => Raise e end.

Definition is_ok {A} (r : result A) : bool :=
  match r with Ok _ => true | Raise _ => false end.

Definition option_or_raise {A} (e : exn) (o : option A) : result A :=
  match o with Some a => Ok a | None => Raise e end.

(** ** IEEE binary floating point *)

(** The exact rational a float stands for; infinities and NaN stand for
    nothing and are given 0, every statement that uses [to_Q] also says
    that the float is finite. *)
Definition SF2Q (x : spec_float) : Q :=
  match x with
  | S754_finite s m e =>
      (if s then inject_Z (Z.neg m) else inject_Z (Z.pos m)) * (2 ^ e)%Q
  | _ => 0%Q
  end.

Definition SFis_nan (x : spec_float) : bool :=
  match x with S754_nan => true | _ => false end.

Definition SFis_finite (x : spec_float) : bool :=
  match x with S754_zero _ | S754_finite _ _ _ => true | _ => false end.

(** [np.float32], [torch.float32] *)
Module F32.
Definition prec : Z := 24.
Definition emax : Z := 128.
Definition t : Type := spec_float.
Definition add : t → t → t := SFadd prec emax.
Definition sub : t → t → t := SFsub prec emax.
Definition mul : t → t → t := SFmul prec emax.
Definition div : t → t → t := SFdiv prec emax.
Definition opp : t → t := SFopp.
Definition ltb : t → t → bool := SFltb.
Definition leb : t → t → bool := SFleb.
Definition eqb : t → t → bool := SFeqb.
Definition of_Z (z : Z) : t := binary_normalize prec emax z 0 false.
Definition zero : t := S754_zero false.
Definition one : t := of_Z 1.
Definition to_Q : t → Q := SF2Q.
(** A float of this format: mantissa and exponent within the format. *)
Definition valid : t → bool := valid_binary prec emax.
End F32.

(** Python [float] *)
Module F64.
Definition prec : Z := 53.
Definition emax : Z := 1024.
Definition t : Type := spec_float.
Definition add : t → t → t := SFadd prec emax.
Definition sub : t → t → t := SFsub prec emax.
Definition mul : t → t → t := SFmul prec emax.
Definition div : t → t → t := SFdiv prec emax.
Definition sqrt : t → t := SFsqrt prec emax.
Definition eqb : t → t → bool := SFeqb.
Definition ltb : t → t → bool := SFltb.
Definition of_Z (z : Z) : t := binary_normalize prec emax z 0 false.
Definition zero : t := S754_zero false.
Definition to_Q : t → Q := SF2Q.
(** A decimal literal [n/d] of the source text: Python reads it as the
    nearest binary64, which is the rounded quotient of the two integers
    when both are exact in binary64. *)
Definition literal (n d : Z) : t := div (of_Z n) (of_Z d).
End F64.

(** The cast of a Python float to binary32 ([dtype=np.float32], and a Python
    scalar meeting a float32 tensor). *)
Definition to_f32 (x : F64.t) : F32.t :=
  match x with
  | S754_finite s m e => binary_round F32.prec F32.emax s m e
  | _ => x
  end.

(** ** Tensors *)

Abbreviation tensor3 A := (list (list (list A))).
Abbreviation tensor4 A := (list (list (list (list A)))).

(** What [squeeze(0)] returns: rank 3 when the first dimension had size 1,
    the unchanged rank-4 tensor otherwise. *)
Inductive ndarray (A : Type) : Type :=
  | Rank3 (t : tensor3 A)
  | Rank4 (t : tensor4 A).
Arguments Rank3 {A} t.
Arguments Rank4 {A} t.

Section TensorOps.
Context {A : Type}.

Definition squeeze0 (t : tensor4 A) : ndarray A :=
  match t with
  | [x] => Rank3 x
  | _ => Rank4 t
  end.

(** [tensor.shape[1]] *)
Definition shape1 (t : tensor4 A) : nat :=
  match t with
  | [] => 0
  | b :: _ => length b
  end.

(** Rectangular shapes: an [H] by [W] matrix, a [(C, H, W)] block, an
    [(N, C, H, W)] tensor. *)
Definition rect2 (H W : nat) (m : list (list A)) : Prop :=
  length m = H ∧ Forall (λ row, length row = W) m.

Definition rect3 (C H W : nat) (t : tensor3 A) : Prop :=
  length t = C ∧ Forall (rect2 H W) t.

Definition rect4 (N C H W : nat) (t : tensor4 A) : Prop :=
  length t = N ∧ Forall (rect3 C H W) t.

(** Broadcasting an elementwise operation of a [(C, H, W)] block with a
    per-channel vector of shape [(k, 1, 1)]: sizes must agree or one of
    them be 1.  The vector is a NumPy array, so the operation is NumPy's
    and a mismatch is its [ValueError]. *)
Definition broadcast_chan (op : A → A → A) (t : tensor3 A) (v : list A)
  : result (tensor3 A) :=
  if decide (length t = length v) then
    Ok (zip_with (λ ch s, map (map (λ x, op x s)) ch) t v)
  else match t, v with
  | [ch], _ => Ok (map (λ s, map (map (λ x, op x s)) ch) v)
  | _, [s] => Ok (map (map (map (λ x, op x s))) t)
  | _, _ => Raise ValueError
  end.

Fixpoint mapM {B C} (f : B → result C) (l : list B) : result (list C) :=
  match l with
  | [] => Ok []
  | x :: l' => rbind (f x) (λ y, rbind (mapM f l') (λ ys, Ok (y :: ys)))
  end.

Definition broadcast (op : A → A → A) (a : ndarray A) (v : list A)
  : result (ndarray A) :=
  match a with
  | Rank3 t => rbind (broadcast_chan op t v) (λ r, Ok (Rank3 r))
  | Rank4 t => rbind (mapM (λ b, broadcast_chan op b v) t) (λ r, Ok (Rank4 r))
  end.

(** [ndarray.transpose(1, 2, 0)]: three axes, so the array must have rank
    3; [(C, H, W)] becomes [(H, W, C)]. *)
Definition transpose_120_3 (t : tensor3 A) : tensor3 A :=
  match t with
  | [] => []
  | c0 :: _ =>
      imap (λ h row0,
        imap (λ w _, omap (λ ch : list (list A), ch !! h ≫= (.!! w)) t) row0) c0
  end.

Definition transpose_120 (a : ndarray A) : result (tensor3 A) :=
  match a with
  | Rank3 t => Ok (transpose_120_3 t)
  | Rank4 _ => Raise ValueError
  end.

(** [ndarray.reshape((3, 1, 1))] of a vector *)
Definition reshape_311 (v : list A) : result (list A) :=
  if decide (length v = 3) then Ok v else Raise ValueError.

(** [Tensor.__array__], through which NumPy reads a tensor that is an
    operand of its arithmetic: it is [numpy()], which torch refuses with
    [RuntimeError] for a tensor that requires grad. *)
Definition tensor_array (requires_grad : bool) (a : ndarray A) : result (ndarray A) :=
  if requires_grad then Raise RuntimeError else Ok a.

End TensorOps.

(** The rotation [torch.roll] performs along one dimension, once it has
    read the shift: the element at [i] moves to [(i + shift) mod n]. *)
Definition roll {A} (shift : Z) (l : list A) : list A :=
  rotate (Z.to_nat ((- shift) `mod` Z.of_nat (length l))) l.

(** The rotations of dimensions 2 and 3 by [h] and [w] *)
Definition roll_23 {A} (h w : Z) (t : tensor4 A) : tensor4 A :=
  map (map (λ img : list (list A), map (roll w) (roll h img))) t.

(** How [torch.roll] reads its shifts: as 64-bit integers.  The argument
    parser refuses a Python [int] outside [[-2^63, 2^63)] with [TypeError];
    the dispatcher refuses one below [-2^62], which it does not hold as a
    plain integer, with [RuntimeError]. *)
Definition roll_shifts (shifts : list Z) : result unit :=
  if existsb (λ s, (s <? - 2 ^ 63)%Z || (2 ^ 63 <=? s)%Z) shifts then Raise TypeError
  else if existsb (λ s, (s <? - 2 ^ 62)%Z) shifts then Raise RuntimeError
  else Ok tt.

(** [torch.roll(tensor, shifts=(h, w), dims=(2, 3))] *)
Definition torch_roll {A} (h w : Z) (t : tensor4 A) : result (tensor4 A) :=
  rbind (roll_shifts [h; w]) (λ _, Ok (roll_23 h w t)).

(** [torch.clamp(x, min=lo, max=hi)] on one element: [min(max(x, lo), hi)],
    a NaN element stays NaN. *)
Definition clamp (lo hi x : F32.t) : F32.t :=
  let y := if F32.ltb x lo then lo else x in
  if F32.ltb hi y then hi else y.

(** [tensor[0, channel]] and the assignment to it *)
Definition get_0c {A} (t : tensor4 A) (c : nat) : option (list (list A)) :=
  t !! 0 ≫= (.!! c).

Definition set_0c {A} (t : tensor4 A) (c : nat) (v : list (list A)) : tensor4 A :=
  match t with
  | [] => []
  | b :: rest => <[c := v]> b :: rest
  end.

(** ** The class [Utils] *)

Record Utils : Type := mkUtils {
  mean : list F32.t;
  stdv : list F32.t;
  img_size : Z;
  model_name : string;
}.

(** [np.array([...], dtype=np.float32)] of decimal literals *)
Definition np_float32 (n d : Z) : F32.t := to_f32 (F64.literal n d).

Definition vgg19_param_init (self : Utils) : Utils :=
  {| mean := [np_float32 485 1000; np_float32 456 1000; np_float32 406 1000];
     stdv := [np_float32 229 1000; np_float32 224 1000; np_float32 225 1000];
     img_size := 600;
     model_name := model_name self |}.

(** [model_mapping = {"vgg19": self.vgg19_param_init}] *)
Definition model_mapping : gmap string (Utils → Utils) :=
  {[ "vgg19"%string := vgg19_param_init ]}.

(** [Utils.__init__]: the fields start empty, the initializer registered
    under [model_name] fills them; a name that is not a key raises
    [KeyError].  [self.normalize] and [self.resize] are built from the
    fields and are the functions [normalize] and (not modelled) resize. *)
Definition Utils_init (name : string) : result Utils :=
  let self := {| mean := []; stdv := []; img_size := 0; model_name := name |} in
  rbind (option_or_raise KeyError (model_mapping !! name)) (λ init, Ok (init self)).

(** [T.Normalize(mean, std)] applied to a tensor [(N, C, H, W)]:
    torchvision rejects a zero standard deviation with [ValueError], then
    computes [tensor.sub_(mean).div_(std)] on a copy, with mean and std
    viewed as [(C, 1, 1)]; the in-place operation needs the channel counts
    to agree. *)
Definition normalize_data (self : Utils) (t : tensor4 F32.t) : result (tensor4 F32.t) :=
  if existsb (λ s, F32.eqb s F32.zero) (stdv self) then Raise ValueError
  else if forallb (λ b : tensor3 F32.t,
                     bool_decide (length b = length (mean self)) &&
                     bool_decide (length b = length (stdv self))) t
  then Ok (map (λ b : tensor3 F32.t,
             zip_with (λ (ch : list (list F32.t)) (ms : F32.t * F32.t),
               map (map (λ x, F32.div (F32.sub x ms.1) ms.2)) ch)
               b (zip (mean self) (stdv self))) t)
  else Raise RuntimeError.

(** [Utils.denormalize] on the tensor's data; [requires_grad] is the flag
    of the tensor.  [tensor * stdv] has a NumPy array on the right: the
    product is NumPy's, computed on the array of the tensor, and so is the
    sum. *)
Definition denormalize_data (self : Utils) (requires_grad : bool) (t : tensor4 F32.t)
  : result (tensor3 F32.t) :=
  let tensor := squeeze0 t in
  rbind (reshape_311 (stdv self)) (λ stdv,
  rbind (reshape_311 (mean self)) (λ mean,
  rbind (tensor_array requires_grad tensor) (λ tensor,
  rbind (broadcast F32.mul tensor stdv) (λ tensor,
  rbind (broadcast F32.add tensor mean) (λ tensor,
  transpose_120 tensor))))).

(** The bounds [clip] computes for a channel *)
Definition clip_lo (ch_m ch_s : F32.t) : F32.t := F32.div (F32.opp ch_m) ch_s.
Definition clip_hi (ch_m ch_s : F32.t) : F32.t := F32.div (F32.sub F32.one ch_m) ch_s.

(** ** The store of tensor objects *)

(** A tensor object: its data and what autograd keeps of it.  A leaf is a
    tensor without a history: every tensor that does not require grad is
    one, and so are the tensors made under [no_grad].  The functions are
    modelled as called with grad mode on, the default. *)
Record tensor_obj : Type := mkTensor {
  data : tensor4 F32.t;
  requires_grad : bool;
  is_leaf : bool;
}.

Abbreviation handle := nat (only parsing).
Abbreviation heap := (gmap nat tensor_obj) (only parsing).

(** Computations on the store; an exception leaves the store as it was
    when it was raised. *)
Definition M (A : Type) : Type := heap → result A * heap.

#[global] Instance M_ret : MRet M := λ A a σ, (Ok a, σ).
#[global] Instance M_bind : MBind M := λ A B k m σ,
  match m σ with
  | (Ok a, σ') => k a σ'
  | (Raise e, σ') => (Raise e, σ')
  end.
Definition raise {A} (e : exn) : M A := λ σ, (Raise e, σ).
Definition lift {A} (r : result A) : M A := λ σ, (r, σ).

(** A handle that is not in the store does not occur in a run of the
    program; the model answers [RuntimeError]. *)
Definition read (h : handle) : M tensor_obj :=
  λ σ, (option_or_raise RuntimeError (σ !! h), σ).
Definition write (h : handle) (o : tensor_obj) : M unit :=
  λ σ, (Ok tt, <[h := o]> σ).
Definition alloc (o : tensor_obj) : M handle :=
  λ σ, let h := fresh (dom σ) in (Ok h, <[h := o]> σ).

(** One turn of the loop of [clip].  The clamped channel is computed
    first; the assignment [tensor[0, channel] = ...] then writes in place,
    which autograd refuses with [RuntimeError] for a leaf that requires
    grad. *)
Definition clip_channel (self : Utils) (tensor : handle) (channel : nat) : M unit :=
  ch_m ← lift (option_or_raise IndexError (mean self !! channel));
  ch_s ← lift (option_or_raise IndexError (stdv self !! channel));
  o ← read tensor;
  x ← lift (option_or_raise IndexError (get_0c (data o) channel));
  if requires_grad o && is_leaf o then raise RuntimeError
  else
    write tensor
      {| data := set_0c (data o) channel
                   (map (map (clamp (clip_lo ch_m ch_s) (clip_hi ch_m ch_s))) x);
         requires_grad := requires_grad o;
         is_leaf := is_leaf o |}.

Fixpoint for_each {A} (body : A → M unit) (l : list A) : M unit :=
  match l with
  | [] => mret tt
  | x :: l' => body x;; for_each body l'
  end.

(** [Utils.clip] *)
Definition clip (self : Utils) (tensor : handle) : M handle :=
  o ← read tensor;
  for_each (clip_channel self tensor) (seq 0 (shape1 (data o)));;
  mret tensor.

(** [Utils.denormalize]: the result is a new array, the tensor is only read *)
Definition denormalize (self : Utils) (tensor : handle) : M (tensor3 F32.t) :=
  o ← read tensor;
  lift (denormalize_data self (requires_grad o) (data o)).

(** [self.normalize]: the result is a new tensor, computed in place on a
    clone of the argument; the clone of a tensor that requires grad has a
    history, so it requires grad and is not a leaf. *)
Definition normalize (self : Utils) (tensor : handle) : M handle :=
  o ← read tensor;
  d ← lift (normalize_data self (data o));
  alloc {| data := d; requires_grad := requires_grad o;
           is_leaf := negb (requires_grad o) |}.

(** [Utils.random_circular_spatial_shift]: the roll is made under
    [no_grad], so its result is a leaf that does not require grad, and the
    flag is then set on it. *)
Definition random_circular_spatial_shift
    (self : Utils) (tensor : handle) (h_shift w_shift : Z) (should_undo : bool)
  : M handle :=
  let h_shift := if should_undo then (- h_shift)%Z else h_shift in
  let w_shift := if should_undo then (- w_shift)%Z else w_shift in
  o ← read tensor;
  d ← lift (torch_roll h_shift w_shift (data o));
  rolled ← alloc {| data := d; requires_grad := false; is_leaf := true |};
  r ← read rolled;
  write rolled {| data := data r; requires_grad := true; is_leaf := is_leaf r |};;
  mret rolled.

(** ** The class [CascadeGaussianSmoothing] *)

(** [math.pi], the binary64 nearest to pi *)
Definition math_pi : F64.t := S754_finite false 7074237752028440 (-51).

(** [int(x)] of a Python float: truncation toward zero *)
Definition py_int (x : F64.t) : result Z :=
  match x with
  | S754_zero _ => Ok 0%Z
  | S754_finite s m e =>
      let v := if (0 <=? e)%Z then (Z.pos m * 2 ^ e)%Z
               else (Z.pos m `quot` 2 ^ (- e))%Z in
      Ok (if s then (- v)%Z else v)
  | S754_infinity _ => Raise OverflowError
  | S754_nan => Raise ValueError
  end.

(** [torch.arange(size, dtype=torch.float32)]: the bound is read as a
    64-bit integer, and a negative one is refused. *)
Definition arange (size : Z) : result (list F32.t) :=
  if (size <? 0)%Z || (2 ^ 63 <=? size)%Z then Raise RuntimeError
  else Ok (map (λ i, F32.of_Z (Z.of_nat i)) (seq 0 (Z.to_nat size))).

(** [torch.meshgrid([a, b])], indexing ["ij"] *)
Definition meshgrid {A} (a b : list A) : list (list (list A)) :=
  [map (λ x, replicate (length b) x) a; replicate (length a) b].

Record CascadeGaussianSmoothing : Type := mkSmoother {
  pad : Z;
  weight1 : tensor4 F32.t;
  weight2 : tensor4 F32.t;
  weight3 : tensor4 F32.t;
}.

(** [F.pad(input, [p, p, p, p], mode="reflect")] along one dimension: the
    [p] elements next to each border are mirrored, the border element
    itself is not repeated. *)
Definition reflect_pad_1d {A} (p : nat) (l : list A) : list A :=
  rev (take p (drop 1 l)) ++ l ++ take p (drop 1 (rev l)).

(** torch refuses a reflect padding that is not smaller than the
    dimension it pads. *)
Definition reflect_pad_img {A} (p : nat) (img : list (list A)) : result (list (list A)) :=
  if bool_decide (p < length img) && forallb (λ row, bool_decide (p < length row)) img
  then Ok (reflect_pad_1d p (map (reflect_pad_1d p) img))
  else Raise RuntimeError.

Definition reflect_pad {A} (p : nat) (t : tensor4 A) : result (tensor4 A) :=
  mapM (mapM (reflect_pad_img p)) t.

(** The sliding windows of width [k] of a list *)
Definition windows {A} (k : nat) (l : list A) : list (list A) :=
  map (λ i, take k (drop i l)) (seq 0 (length l + 1 - k)).

(** The sum of the products of a patch and a kernel.  torch does not fix
    the order of the additions; the model adds row by row from the left. *)
Definition dot (patch ker : list (list F32.t)) : F32.t :=
  foldl F32.add F32.zero (zip_with F32.mul (concat patch) (concat ker)).

(** One channel of [conv2d] (stride 1, no padding): cross-correlation of the
    image with the kernel; the kernel must fit in the image. *)
Definition conv_channel (ker img : list (list F32.t)) : result (list (list F32.t)) :=
  let kh := length ker in
  let kw := length (hd [] ker) in
  if bool_decide (kh ≤ length img) && forallb (λ row : list F32.t, bool_decide (kw ≤ length row)) img
  then Ok (map (λ rows : list (list F32.t),
             map (λ j, dot (map (λ r, take kw (drop j r)) rows) ker)
                 (seq 0 (length (hd [] rows) + 1 - kw)))
             (windows kh img))
  else Raise RuntimeError.

(** [conv2d(input, weight=w, groups=3)] with [w] of shape [(3, 1, k, k)]:
    the input must have 3 channels, channel [c] meets kernel [w[c][0]]. *)
Definition conv2d_groups3 (input weight : tensor4 F32.t) : result (tensor4 F32.t) :=
  mapM (λ b : tensor3 F32.t,
    if bool_decide (length b = 3) && bool_decide (length weight = 3) then
      mapM (λ cw : list (list F32.t) * tensor3 F32.t,
              conv_channel (hd [] cw.2) cw.1) (zip b weight)
    else Raise RuntimeError) input.

Definition add4 (a b : tensor4 F32.t) : tensor4 F32.t :=
  zip_with (zip_with (zip_with (zip_with F32.add))) a b.

(** [CascadeGaussianSmoothing.forward] *)
Definition forward (self : CascadeGaussianSmoothing) (input : tensor4 F32.t)
  : result (tensor4 F32.t) :=
  rbind (reflect_pad (Z.to_nat (pad self)) input) (λ input,
  rbind (conv2d_groups3 input (weight1 self)) (λ grad1,
  rbind (conv2d_groups3 input (weight2 self)) (λ grad2,
  rbind (conv2d_groups3 input (weight3 self)) (λ grad3,
  Ok (add4 (add4 grad1 grad2) grad3))))).

Inductive device_t : Type := Cuda | Cpu.

Section Smoothing.
(** Library functions whose arithmetic is not fixed by their
    documentation: [torch.exp] on one element, [torch.sum] of a matrix,
    and [scipy.ndimage.gaussian_filter]. *)
Variable torch_exp : F32.t → F32.t.
Variable torch_sum : list (list F32.t) → F32.t.
Variable gaussian_filter : tensor4 F32.t → F64.t → tensor4 F32.t.
(** Whether the host has a CUDA device *)
Variable cuda_is_available : bool.

Definition cascade_coefficients : list F64.t :=
  [F64.literal 5 10; F64.literal 10 10; F64.literal 20 10].

(** [1 / (std_1d * math.sqrt(2 * math.pi)) *
     torch.exp(-((mgrid - mean) / std_1d) ** 2 / 2)] *)
Definition gauss_factor (size_1d : Z) (std_1d : F64.t) (mgrid : list (list F32.t))
  : result (list (list F32.t)) :=
  let mean := F64.div (F64.of_Z (size_1d - 1)) (F64.of_Z 2) in
  let den := F64.mul std_1d (F64.sqrt (F64.mul (F64.of_Z 2) math_pi)) in
  if F64.eqb den F64.zero then Raise ZeroDivisionError
  else
    let coef := F64.div (F64.of_Z 1) den in
    Ok (map (map (λ x,
          let z := F32.div (F32.sub x (to_f32 mean)) (to_f32 std_1d) in
          F32.mul (to_f32 coef)
            (torch_exp (F32.div (F32.opp (F32.mul z z)) (F32.of_Z 2))))) mgrid).

(** The inner loop over the two dimensions: [kernel = 1], then
    [kernel *= ...] twice. *)
Definition gauss_kernel (kernel_size : Z) (sigma : F64.t) (meshgrids : list (list (list F32.t)))
  : result (list (list F32.t)) :=
  match meshgrids with
  | [g0; g1] =>
      rbind (gauss_factor kernel_size sigma g0) (λ f0,
      rbind (gauss_factor kernel_size sigma g1) (λ f1,
      let kernel := map (map (λ x, F32.mul x F32.one)) f0 in
      Ok (zip_with (zip_with F32.mul) kernel f1)))
  | _ => Raise ValueError
  end.

(** The module-level [device]: CUDA when available, the CPU otherwise *)
Definition device : device_t := if cuda_is_available then Cuda else Cpu.

(** [tensor.to(d)]: moving to the CUDA device raises on a host without one *)
Definition to_device {A} (d : device_t) (x : A) : result A :=
  match d with
  | Cpu => Ok x
  | Cuda => if cuda_is_available then Ok x else Raise RuntimeError
  end.

(** The body of the second loop: normalize, reshape to a depthwise
    weight, move to the device named ["cuda"]. *)
Definition prepare_kernel (kernel : list (list F32.t)) : result (tensor4 F32.t) :=
  let s := torch_sum kernel in
  let kernel := map (map (λ x, F32.div x s)) kernel in
  let kernel := replicate 3 [kernel] in
  to_device Cuda kernel.

(** The first loop of [CascadeGaussianSmoothing.__init__]: the list
    [kernels], one un-normalized kernel per cascade coefficient, on the
    mesh grids of [torch.arange(kernel_size)]. *)
Definition kernels (kernel_size : Z) (sigma : F64.t)
  : result (list (list (list F32.t))) :=
  let sigmas := map (λ coeff, F64.mul coeff sigma) cascade_coefficients in
  rbind (arange kernel_size) (λ r,
  let meshgrids := meshgrid r r in
  mapM (λ s, gauss_kernel kernel_size s meshgrids) sigmas).

(** [CascadeGaussianSmoothing.__init__] *)
Definition CascadeGaussianSmoothing_init (kernel_size : Z) (sigma : F64.t)
  : result CascadeGaussianSmoothing :=
  rbind (py_int (F64.div (F64.of_Z kernel_size) (F64.of_Z 2))) (λ pad,
  rbind (kernels kernel_size sigma) (λ kernels,
  rbind (mapM prepare_kernel kernels) (λ prepared_kernels,
  match prepared_kernels with
  | [w1; w2; w3] =>
      Ok {| pad := pad; weight1 := w1; weight2 := w2; weight3 := w3 |}
  | _ => Raise IndexError
  end))).

(** [Utils.gausian_blur]: three filtered copies, added, and placed on
    [device] *)
Definition gausian_blur (grad : tensor4 F32.t) (sigma : F64.t)
  : result (tensor4 F32.t) :=
  let grad_1 := gaussian_filter grad (F64.mul sigma (F64.literal 5 10)) in
  let grad_2 := gaussian_filter grad (F64.mul sigma (F64.literal 10 10)) in
  let grad_3 := gaussian_filter grad (F64.mul sigma (F64.literal 20 10)) in
  to_device device (add4 (add4 grad_1 grad_2) grad_3).
End Smoothing.

(** ** Notions used in the statements *)

(** The profile [vgg19_param_init] stores, with the binary32 numbers
    written out. *)
Definition vgg19_profile (name : string) : Utils :=
  {| mean := [S754_finite false 16273900 (-25);
              S754_finite false 15300821 (-25);
              S754_finite false 13623099 (-25)];
     stdv := [S754_finite false 15367930 (-26);
              S754_finite false 15032386 (-26);
              S754_finite false 15099494 (-26)];
     img_size := 600;
     model_name := name |}.

(** Each float is finite and within [tol] of the matching rational. *)
Definition close_to (tol : Q) (xs : list F32.t) (qs : list Q) : Prop :=
  Forall2 (λ x q, SFis_finite x = true ∧ (Qabs (F32.to_Q x - q) <= tol)%Q) xs qs.

(** What [denormalize] computes for a [(C, H, W)] block before the axes
    are reordered: [x * stdv[c] + mean[c]] on channel [c]. *)
Definition denorm_chw (self : Utils) (b : tensor3 F32.t) : tensor3 F32.t :=
  zip_with (λ ch m, map (map (λ x, F32.add x m)) ch)
    (zip_with (λ ch s, map (map (λ x, F32.mul x s)) ch) b (stdv self))
    (mean self).

(** All elements of one channel clamped to the bounds [clip] computes from
    the channel's mean and standard deviation. *)
Definition clamp_channel (ch_m ch_s : F32.t) (ch : list (list F32.t)) : list (list F32.t) :=
  map (map (clamp (clip_lo ch_m ch_s) (clip_hi ch_m ch_s))) ch.

(** The upper bound of [clip] under NumPy's older promotion of Python
    scalars, where [1 - ch_m] and the quotient are binary64 and
    [torch.clamp] rounds the bound to float32. *)
Definition to_f64 (x : F32.t) : F64.t :=
  match x with
  | S754_finite s m e => binary_round F64.prec F64.emax s m e
  | _ => x
  end.

Definition clip_hi_wide (ch_m ch_s : F32.t) : F32.t :=
  to_f32 (F64.div (F64.sub (F64.of_Z 1) (to_f64 ch_m)) (to_f64 ch_s)).

(** ** Reference instances of the library functions

    An exponential and a sum in float32, to evaluate the construction on
    concrete arguments: [exp x = 2^k * exp r] with [r = x - k ln 2], the
    series of [exp r] up to the fourteenth power, rounded to float32; and
    the sum of the entries in row-major order. *)

(** [ln 2], as the binary64 number nearest to it *)
Definition ln2 : Q := 6243314768165359 # 9007199254740992.

(** [1 + r/i * (1 + r/(i+1) * (...))], [n] levels deep *)
Fixpoint exp_series (n : nat) (i : positive) (r : Q) : Q :=
  match n with
  | O => 1
  | S n => Qred (1 + r * (1 # i) * exp_series n (Pos.succ i) r)
  end.

(** The exponential: the special values of IEEE 754, overflow above 89 and
    zero below -104, the reduced series otherwise. *)
Definition exp_model (x : F32.t) : F32.t :=
  match x with
  | S754_nan => S754_nan
  | S754_infinity true => F32.zero
  | S754_infinity false => x
  | S754_zero _ => F32.one
  | S754_finite _ _ _ =>
      let q := SF2Q x in
      if Qle_bool 89 q then S754_infinity false
      else if Qle_bool q (-104) then F32.zero
      else
        let k := Qfloor (q / ln2 + (1 # 2)) in
        let r := Qred (q - inject_Z k * ln2) in
        let z := Qfloor (exp_series 14 1 r * inject_Z (2 ^ 40)) in
        binary_normalize F32.prec F32.emax (Z.max 0 z) (k - 40) false
  end.

(** The entries added one after the other, each addition rounded *)
Definition sum_in_order (k : list (list F32.t)) : F32.t :=
  foldl F32.add F32.zero (concat k).

(** The smoother built for kernel size 3 and sigma 1 on a CUDA host, with
    the reference instances in the place of [torch.exp] and [torch.sum]. *)
Definition smoother_3 : CascadeGaussianSmoothing :=
  match CascadeGaussianSmoothing_init exp_model sum_in_order true 3 (F64.of_Z 1) with
  | Ok s => s
  | Raise _ => mkSmoother 0 [] [] []
  end.

(** ** Notions of the floating-point theory *)

(** [2^e] as a rational *)
Definition bpow (e : Z) : Q := (2 ^ e)%Q.

(** The record [mrs], read at exponent [e], locates the nonnegative
    rational [t]: with [M = 2 m + r], [t] lies in
    [[M * 2^(e-1), (M + 1) * 2^(e-1))], and the sticky bit is clear exactly
    when [t] is the lower end. *)
Definition located (mrs : shr_record) (e : Z) (t : Q) : Prop :=
  let M := (2 * shr_m mrs + (if shr_r mrs then 1 else 0))%Z in
  (inject_Z M * bpow (e - 1) <= t)%Q
  ∧ (t < inject_Z (M + 1) * bpow (e - 1))%Q
  ∧ (shr_s mrs = false ↔ (t == inject_Z M * bpow (e - 1))%Q).

(** A number of the format with precision [prec] and exponent bound [emax]:
    zero or finite, with a canonical mantissa and exponent. *)
Definition finite_valid (prec emax : Z) (x : spec_float) : Prop :=
  SFis_finite x = true ∧ valid_binary prec emax x = true.

(** ** Notions of the statements about values *)

(** The numbers of binary32 *)
Abbreviation fv32 := (finite_valid F32.prec F32.emax).

(** What [normalize] followed by [denormalize] computes on one element of
    a channel with mean [m] and standard deviation [s], and what
    [denormalize] alone computes. *)
Definition roundtrip_elem (m s x : F32.t) : F32.t :=
  F32.add (F32.mul (F32.div (F32.sub x m) s) s) m.
Definition denorm_elem (m s x : F32.t) : F32.t := F32.add (F32.mul x s) m.

(** A pixel intensity: a binary32 number between 0 and 1 *)
Definition in_unit (x : F32.t) : Prop :=
  F32.valid x = true ∧ F32.leb F32.zero x = true ∧ F32.leb x F32.one = true.

(** A binary32 datum that is not NaN (it may be infinite) *)
Definition is_number (x : F32.t) : Prop :=
  F32.valid x = true ∧ SFis_nan x = false.

(** [lo <= y <= hi] in the order of the floats *)
Definition within (lo hi y : F32.t) : Prop :=
  F32.leb lo y = true ∧ F32.leb y hi = true.

(** [y] is finite and within [tol] of [x] *)
Definition close_f32 (tol : Q) (y x : F32.t) : Prop :=
  SFis_finite y = true ∧ (Qabs (F32.to_Q y - F32.to_Q x) <= tol)%Q.

(** [y] is finite and stands for a rational in [[lo, hi]] *)
Definition in_range (lo hi : Q) (y : F32.t) : Prop :=
  SFis_finite y = true ∧ (lo <= F32.to_Q y <= hi)%Q.

(** ** Notions of the statements about the kernels *)

(** The sign bit of a float; a NaN carries none. *)
Definition SFsign (x : spec_float) : bool :=
  match x with
  | S754_zero s | S754_infinity s | S754_finite s _ _ => s
  | S754_nan => false
  end.

(** The exact sum of a list of rationals *)
Definition sumQ (l : list Q) : Q := foldr Qplus 0%Q l.

(** The entries of each channel's kernel of a depthwise weight *)
Definition kernel_entries (w : tensor4 F32.t) : list (list F32.t) :=
  map (λ k, concat k) (concat w).

(** Every kernel of the weight has finite entries that sum to 1 within
    [tol]. *)
Definition sums_to_one (tol : Q) (w : tensor4 F32.t) : Prop :=
  Forall (λ es, Forall (λ x, SFis_finite x = true) es
                ∧ (Qabs (sumQ (map SF2Q es) - 1) <= tol)%Q)
    (kernel_entries w).

(** What is assumed of [torch.sum] on the kernel [k]: a finite result is
    a float32, comes from finite entries, and is their sum to within 4
    units in the last place (a relative error of [2^-21]). *)
Definition sum_faithful (torch_sum : list (list F32.t) → F32.t)
    (k : list (list F32.t)) : Prop :=
  SFis_finite (torch_sum k) = true →
  F32.valid (torch_sum k) = true
  ∧ Forall (Forall (λ x, SFis_finite x = true)) k
  ∧ (Qabs (SF2Q (torch_sum k) - sumQ (map SF2Q (concat k)))
       <= (1 # 2097152) * Qabs (SF2Q (torch_sum k)))%Q.

(** What is assumed of [torch.exp]: it returns a float32 that is not
    negative. *)
Definition exp_nonneg (torch_exp : F32.t → F32.t) : Prop :=
  ∀ x, F32.valid (torch_exp x) = true ∧ SFsign (torch_exp x) = false.

(** ** Notions of the further properties *)

(** What [clip] leaves in the channels [b] of the first image: channel [c]
    clamped to the bounds of [mean[c]] and [stdv[c]]. *)
Definition clip_data (self : Utils) (b : tensor3 F32.t) : tensor3 F32.t :=
  zip_with (λ ch (ms : F32.t * F32.t), clamp_channel ms.1 ms.2 ch)
    b (zip (mean self) (stdv self)).

(** The smoother for kernel size 4 and sigma 1 on a CUDA host, with the
    reference instances in the place of [torch.exp] and [torch.sum]. *)
Definition smoother_4 : CascadeGaussianSmoothing :=
  match CascadeGaussianSmoothing_init exp_model sum_in_order true 4 (F64.of_Z 1) with
  | Ok s => s
  | Raise _ => mkSmoother 0 [] [] []
  end.

(* ===================================================================== *)
(** * Properties *)
(* ===================================================================== *)

(** ** The profile registry *)

Lemma Qle_by_bool (x y : Q) : Qle_bool x y = true → (x <= y)%Q.
Proof. apply Qle_bool_imp_le. Qed.

Lemma vgg19_param_init_eq (self : Utils) :
  vgg19_param_init self = vgg19_profile (model_name self).
Proof. reflexivity. Qed.

Lemma Utils_init_spec (name : string) :
  Utils_init name =
    if bool_decide (name = "vgg19"%string) then Ok (vgg19_profile name)
    else Raise KeyError.
Proof.
  unfold Utils_init, model_mapping. case_bool_decide as Hn.
  - subst name. by rewrite lookup_singleton_eq.
  - rewrite lookup_singleton_ne; [done | congruence].
Qed.

(** C7.  [Utils("vgg19")] holds the means [0.485, 0.456, 0.406], the
    standard deviations [0.229, 0.224, 0.225] (as the nearest binary32
    numbers) and the size 600; a name that is not a key of the mapping, such
    as ["unknown_model"], raises [KeyError]. *)
Theorem resolve_profile :
  (∀ name : string,
     Utils_init name =
       if bool_decide (name = "vgg19"%string) then Ok (vgg19_profile name)
       else Raise KeyError)
  ∧ Utils_init "vgg19" = Ok (vgg19_profile "vgg19")
  ∧ close_to (1 # 2 ^ 26) (mean (vgg19_profile "vgg19"))
      [485 # 1000; 456 # 1000; 406 # 1000]%Q
  ∧ close_to (1 # 2 ^ 26) (stdv (vgg19_profile "vgg19"))
      [229 # 1000; 224 # 1000; 225 # 1000]%Q
  ∧ img_size (vgg19_profile "vgg19") = 600%Z
  ∧ Utils_init "unknown_model" = Raise KeyError.
Proof.
  split; [exact Utils_init_spec |].
  split; [by rewrite Utils_init_spec |].
  split; [| split; [| split; [done | by rewrite Utils_init_spec] ] ].
  - repeat constructor; apply Qle_by_bool; vm_compute; reflexivity.
  - repeat constructor; apply Qle_by_bool; vm_compute; reflexivity.
Qed.

(** ** Running computations on the store *)

Lemma bind_ok {A B} (m : M A) (k : A → M B) σ a σ' :
  m σ = (Ok a, σ') → (m ≫= k) σ = k a σ'.
Proof. intros H. unfold mbind, M_bind. by rewrite H. Qed.

Lemma bind_raise {A B} (m : M A) (k : A → M B) σ e σ' :
  m σ = (Raise e, σ') → (m ≫= k) σ = (Raise e, σ').
Proof. intros H. unfold mbind, M_bind. by rewrite H. Qed.

Lemma read_ok (σ : gmap nat tensor_obj) h o : σ !! h = Some o → read h σ = (Ok o, σ).
Proof. intros H. unfold read. by rewrite H. Qed.

(** ** [denormalize] and the batch dimension *)





Lemma denormalize_data_batch1 (self : Utils) (b : tensor3 F32.t) :
  length b = 3 → length (mean self) = 3 → length (stdv self) = 3 →
  denormalize_data self false [b] = Ok (transpose_120_3 (denorm_chw self b)).
Proof.
  intros Hb Hm Hs. unfold denormalize_data, reshape_311, denorm_chw. simpl.
  rewrite !decide_True by done. simpl.
  unfold broadcast_chan. rewrite decide_True by congruence. simpl.
  unfold broadcast_chan. rewrite decide_True; [done |].
  rewrite length_zip_with. lia.
Qed.

(** ** The circular shift *)

Lemma rotate_rotate_cancel {A} (a b : nat) (l : list A) :
  ((Z.of_nat a + Z.of_nat b) `mod` Z.of_nat (length l) = 0)%Z →
  rotate b (rotate a l) = l.
Proof.
  intros Hab. apply list_eq. intros i.
  destruct (decide (i < length l)) as [Hi | Hi].
  - rewrite lookup_rotate_r by (by rewrite length_rotate).
    rewrite length_rotate.
    rewrite lookup_rotate_r by (apply rotate_nat_add_lt; lia).
    f_equal. unfold rotate_nat_add.
    rewrite Z2Nat.id by (apply Z.mod_pos; lia).
    rewrite Zplus_mod_idemp_r.
    replace (Z.of_nat a + (Z.of_nat b + Z.of_nat i))%Z
      with ((Z.of_nat a + Z.of_nat b) + Z.of_nat i)%Z by lia.
    rewrite <- Zplus_mod_idemp_l, Hab. simpl.
    rewrite Z.mod_small by lia. lia.
  - rewrite !lookup_ge_None_2; [done | lia |].
    rewrite !length_rotate. lia.
Qed.

Lemma roll_nil {A} (s : Z) : roll s (@nil A) = [].
Proof. unfold roll, rotate. simpl. by rewrite drop_nil, take_nil. Qed.

Lemma length_roll {A} (s : Z) (l : list A) : length (roll s l) = length l.
Proof. apply length_rotate. Qed.

(** Rolling back by the opposite offset restores the list, whatever the
    offset is with respect to the length. *)
Lemma roll_undo {A} (s : Z) (l : list A) : roll (- s) (roll s l) = l.
Proof.
  destruct l as [|x l']; [by rewrite !roll_nil |].
  unfold roll. rewrite length_rotate.
  set (n := Z.of_nat (length (x :: l'))).
  assert (0 < n)%Z by (subst n; simpl; lia).
  apply rotate_rotate_cancel. fold n.
  rewrite !Z2Nat.id by (apply Z.mod_pos; lia).
  rewrite Z.opp_involutive.
  rewrite <- Zplus_mod, Z.add_opp_diag_l. done.
Qed.

Lemma roll_map {A B} (f : A → B) (s : Z) (l : list A) :
  roll s (map f l) = map f (roll s l).
Proof.
  unfold roll, rotate. rewrite length_fmap.
  by rewrite fmap_app, fmap_drop, fmap_take.
Qed.

(** The roll is a permutation of the elements along the dimension. *)
Lemma roll_Permutation {A} (s : Z) (l : list A) : roll s l ≡ₚ l.
Proof.
  unfold roll, rotate.
  rewrite Permutation_app_comm. by rewrite take_drop.
Qed.

Lemma roll_23_undo {A} (h w : Z) (t : tensor4 A) :
  roll_23 (- h) (- w) (roll_23 h w t) = t.
Proof.
  unfold roll_23. rewrite <- list_fmap_compose.
  rewrite <- (list_fmap_id t) at 2. apply list_fmap_ext. intros _ b _. simpl.
  rewrite <- list_fmap_compose.
  rewrite <- (list_fmap_id b) at 2. apply list_fmap_ext. intros _ img _. simpl.
  rewrite roll_map, roll_undo, <- list_fmap_compose.
  rewrite <- (list_fmap_id img) at 2. apply list_fmap_ext. intros _ row _. simpl.
  apply roll_undo.
Qed.

(** Where the roll puts an element: the one at [i] is found at
    [(i + shift) mod n]. *)
Lemma roll_lookup {A} (s : Z) (l : list A) (i : nat) (x : A) :
  l !! i = Some x →
  roll s l !! Z.to_nat ((Z.of_nat i + s) `mod` Z.of_nat (length l)) = Some x.
Proof.
  intros Hi. pose proof (lookup_lt_Some _ _ _ Hi) as Hlt.
  set (n := Z.of_nat (length l)).
  assert (0 < n)%Z as Hn by (subst n; lia).
  pose proof (Z.mod_pos_bound (Z.of_nat i + s) n Hn) as Hb1.
  pose proof (Z.mod_pos_bound (- s) n Hn) as Hb2.
  unfold roll. fold n. rewrite lookup_rotate_r by (subst n; lia).
  rewrite <- Hi. f_equal. unfold rotate_nat_add. fold n.
  rewrite !Z2Nat.id by lia. rewrite <- Zplus_mod.
  replace (- s + (Z.of_nat i + s))%Z with (Z.of_nat i) by lia.
  rewrite Z.mod_small by (subst n; lia). apply Nat2Z.id.
Qed.

(** The same for the two spatial dimensions of a tensor of shape
    [(N, C, H, W)]. *)
Lemma roll_23_lookup {A} (N C H W : nat) (dy dx : Z) (t : tensor4 A)
    (n c i j : nat) (x : A) :
  rect4 N C H W t →
  ((t !! n ≫= (.!! c)) ≫= (.!! i)) ≫= (.!! j) = Some x →
  ((roll_23 dy dx t !! n ≫= (.!! c))
     ≫= (.!! Z.to_nat ((Z.of_nat i + dy) `mod` Z.of_nat H)))
    ≫= (.!! Z.to_nat ((Z.of_nat j + dx) `mod` Z.of_nat W)) = Some x.
Proof.
  intros [_ Ht] Hx.
  destruct (t !! n) as [blk|] eqn:Hn; [| done]. cbn in Hx.
  destruct (blk !! c) as [img|] eqn:Hc; [| done]. cbn in Hx.
  destruct (img !! i) as [row|] eqn:Hi; [| done]. cbn in Hx.
  destruct (proj1 (Forall_lookup _ _) Ht n blk Hn) as [_ Hb].
  destruct (proj1 (Forall_lookup _ _) Hb c img Hc) as [Himg Hrows].
  pose proof (proj1 (Forall_lookup _ _) Hrows i row Hi) as Hrow. cbn in Hrow.
  unfold roll_23. rewrite list_lookup_fmap, Hn. cbn.
  rewrite list_lookup_fmap, Hc. cbn. rewrite list_lookup_fmap.
  rewrite <- Himg, (roll_lookup dy img i row Hi). cbn.
  rewrite <- Hrow. by apply roll_lookup.
Qed.

Lemma fresh_lookup (σ : gmap nat tensor_obj) : σ !! fresh (dom σ) = None.
Proof. apply not_elem_of_dom, is_fresh. Qed.

(** The shifts [torch.roll] accepts *)
Lemma roll_shifts_ok (h w : Z) :
  (- 2 ^ 62 ≤ h < 2 ^ 63)%Z → (- 2 ^ 62 ≤ w < 2 ^ 63)%Z → roll_shifts [h; w] = Ok tt.
Proof.
  intros Hh Hw. unfold roll_shifts. cbn [existsb].
  rewrite (proj2 (Z.ltb_ge h (- 2 ^ 63))), (proj2 (Z.ltb_ge w (- 2 ^ 63))) by lia.
  rewrite (proj2 (Z.leb_gt (2 ^ 63) h)), (proj2 (Z.leb_gt (2 ^ 63) w)) by lia.
  cbn [orb].
  by rewrite (proj2 (Z.ltb_ge h (- 2 ^ 62))), (proj2 (Z.ltb_ge w (- 2 ^ 62))) by lia.
Qed.

(** What one call of the shift does to the store when [torch.roll] accepts
    the offsets: the argument is read, the rolled tensor is a new object, a
    leaf marked as requiring grad. *)
Lemma shift_spec (self : Utils) (σ : gmap nat tensor_obj) (h : nat) (o : tensor_obj)
    (h_shift w_shift : Z) (should_undo : bool) :
  σ !! h = Some o →
  (- 2 ^ 62 ≤ (if should_undo then - h_shift else h_shift) < 2 ^ 63)%Z →
  (- 2 ^ 62 ≤ (if should_undo then - w_shift else w_shift) < 2 ^ 63)%Z →
  random_circular_spatial_shift self h h_shift w_shift should_undo σ =
    (Ok (fresh (dom σ)),
     <[fresh (dom σ) :=
         {| data := roll_23 (if should_undo then - h_shift else h_shift)%Z
                            (if should_undo then - w_shift else w_shift)%Z (data o);
            requires_grad := true; is_leaf := true |}]> σ).
Proof.
  intros Hh Hhs Hws. unfold random_circular_spatial_shift.
  rewrite (bind_ok _ _ _ _ _ (read_ok _ _ _ Hh)).
  unfold torch_roll. rewrite (roll_shifts_ok _ _ Hhs Hws). cbn [rbind].
  unfold lift, alloc, mbind, M_bind, read, write, mret, M_ret.
  rewrite lookup_insert_eq. simpl. by rewrite insert_insert_eq.
Qed.

(** C3, the claim as stated fails for large offsets: [torch.roll] reads
    its shifts as 64-bit integers.  With the offset [2^62 + 1] the shift
    returns, and the call that is to undo it, which passes
    [-(2^62 + 1)], raises. *)
Lemma shift_undo_fails_for_large_offset :
  let t : tensor4 F32.t := [[[[F32.one; F32.zero]; [F32.zero; F32.zero]]]] in
  let σ : gmap nat tensor_obj := {[ 0 := mkTensor t false true ]} in
  let u := vgg19_profile "vgg19" in
  (∃ σ1, random_circular_spatial_shift u 0 (2 ^ 62 + 1) 0 false σ = (Ok 1, σ1))
  ∧ ¬ (∃ h' σ',
         (h1 ← random_circular_spatial_shift u 0 (2 ^ 62 + 1) 0 false;
          random_circular_spatial_shift u h1 (2 ^ 62 + 1) 0 true) σ = (Ok h', σ')).
Proof.
  intros t σ u.
  assert (random_circular_spatial_shift u 0 (2 ^ 62 + 1) 0 false σ
          = (Ok 1, <[1 := mkTensor (roll_23 (2 ^ 62 + 1) 0 t) true true]> σ)) as H1.
  { rewrite (shift_spec u σ 0 (mkTensor t false true) (2 ^ 62 + 1) 0 false);
      [reflexivity | reflexivity | simpl; lia | simpl; lia]. }
  split; [eauto |].
  intros (h' & σ' & Hrun). rewrite (bind_ok _ _ _ _ _ H1) in Hrun.
  unfold random_circular_spatial_shift in Hrun.
  erewrite bind_ok in Hrun; [| apply read_ok; apply lookup_insert_eq].
  erewrite bind_raise in Hrun; [discriminate Hrun | reflexivity].
Qed.

(** C3, amended.  For offsets of magnitude below [2^62], also beyond the
    sizes of the dimensions, shifting by [(dy, dx)] and then undoing the
    shift with the same offsets gives a tensor whose data is exactly the
    data of the original.  The original object is still in the store,
    unchanged.  The shift itself wraps around: in the tensor it returns,
    the element of position [(i, j)] of each image plane is at
    [((i + dy) mod H, (j + dx) mod W)]. *)
Theorem shift_invertible
    (self : Utils) (σ : gmap nat tensor_obj) (h : nat) (o : tensor_obj) (dy dx : Z) :
  σ !! h = Some o →
  (- 2 ^ 62 < dy < 2 ^ 62)%Z → (- 2 ^ 62 < dx < 2 ^ 62)%Z →
  ∃ (h' : nat) (σ' : gmap nat tensor_obj),
    (h1 ← random_circular_spatial_shift self h dy dx false;
     random_circular_spatial_shift self h1 dy dx true) σ = (Ok h', σ')
    ∧ σ' !! h' = Some {| data := data o; requires_grad := true; is_leaf := true |}
    ∧ σ' !! h = Some o
    ∧ ∃ (h1 : nat) (σ1 : gmap nat tensor_obj) (o1 : tensor_obj),
        random_circular_spatial_shift self h dy dx false σ = (Ok h1, σ1)
        ∧ σ1 !! h1 = Some o1
        ∧ ∀ (N C H W n c i j : nat) (x : F32.t),
            rect4 N C H W (data o) →
            ((data o !! n ≫= (.!! c)) ≫= (.!! i)) ≫= (.!! j) = Some x →
            ((data o1 !! n ≫= (.!! c))
               ≫= (.!! Z.to_nat ((Z.of_nat i + dy) `mod` Z.of_nat H)))
              ≫= (.!! Z.to_nat ((Z.of_nat j + dx) `mod` Z.of_nat W)) = Some x.
Proof.
  intros Hh Hdy Hdx.
  pose proof (shift_spec self σ h o dy dx false Hh ltac:(simpl; lia) ltac:(simpl; lia))
    as H1. simpl in H1.
  set (h1 := fresh (dom σ)) in *.
  set (o1 := {| data := roll_23 dy dx (data o); requires_grad := true;
                is_leaf := true |}) in *.
  set (σ1 := <[h1 := o1]> σ) in *.
  assert (σ1 !! h1 = Some o1) as Hh1 by apply lookup_insert_eq.
  pose proof (shift_spec self σ1 h1 o1 dy dx true Hh1 ltac:(simpl; lia) ltac:(simpl; lia))
    as H2. simpl in H2.
  rewrite roll_23_undo in H2.
  eexists _, _. split; [| split; [| split] ].
  - rewrite (bind_ok _ _ _ _ _ H1). exact H2.
  - apply lookup_insert_eq.
  - assert (h ≠ h1) as Hne.
    { intros ->. subst h1. rewrite fresh_lookup in Hh. congruence. }
    assert (σ1 !! h = Some o) as Hh'.
    { subst σ1. by rewrite lookup_insert_ne. }
    rewrite lookup_insert_ne; [done |].
    intros Heq. rewrite <- Heq in Hh'. rewrite fresh_lookup in Hh'. congruence.
  - exists h1, σ1, o1. split; [exact H1 |]. split; [exact Hh1 |].
    intros N C H W n c i j x Hrect Hx. subst o1. cbn [data].
    by apply (roll_23_lookup N C H W).
Qed.

Lemma shift_invertible_witness :
  let t : tensor4 F32.t :=
    [[[[F32.one; F32.zero; F32.zero]; [F32.zero; F32.zero; F32.zero]]]] in
  let u := vgg19_profile "vgg19" in
  let σ : gmap nat tensor_obj := {[ 0 := mkTensor t false true ]} in
  ∃ (h' : nat) (σ' : gmap nat tensor_obj),
    (h1 ← random_circular_spatial_shift u 0 7 (-11) false;
     random_circular_spatial_shift u h1 7 (-11) true) σ = (Ok h', σ')
    ∧ σ' !! h' = Some {| data := t; requires_grad := true; is_leaf := true |}
    ∧ σ' !! 0 = Some (mkTensor t false true)
    ∧ ∃ (h1 : nat) (σ1 : gmap nat tensor_obj) (o1 : tensor_obj),
        random_circular_spatial_shift u 0 7 (-11) false σ = (Ok h1, σ1)
        ∧ σ1 !! h1 = Some o1
        ∧ ∀ (N C H W n c i j : nat) (x : F32.t),
            rect4 N C H W t →
            ((t !! n ≫= (.!! c)) ≫= (.!! i)) ≫= (.!! j) = Some x →
            ((data o1 !! n ≫= (.!! c))
               ≫= (.!! Z.to_nat ((Z.of_nat i + 7) `mod` Z.of_nat H)))
              ≫= (.!! Z.to_nat ((Z.of_nat j + (-11)) `mod` Z.of_nat W)) = Some x.
Proof.
  intros t u σ.
  apply (shift_invertible u σ 0 (mkTensor t false true) 7 (-11)).
  - apply lookup_singleton_eq.
  - lia.
  - lia.
Defined.

(** ** Which operations work in place *)

Lemma clip_channel_frame (self : Utils) (h c : nat) (σ σ' : gmap nat tensor_obj) r :
  clip_channel self h c σ = (r, σ') →
  σ' = σ ∨ ∃ o', σ' = <[h := o']> σ.
Proof.
  unfold clip_channel, mbind, M_bind, lift, read, write.
  destruct (mean self !! c); simpl; [| intros [= _ <-]; by left].
  destruct (stdv self !! c); simpl; [| intros [= _ <-]; by left].
  destruct (σ !! h) as [o|]; simpl; [| intros [= _ <-]; by left].
  destruct (get_0c (data o) c); simpl; [| intros [= _ <-]; by left].
  unfold raise. destruct (requires_grad o && is_leaf o); intros [= _ <-]; eauto.
Qed.

Lemma for_each_clip_frame (self : Utils) (h : nat) (l : list nat)
    (σ σ' : gmap nat tensor_obj) r :
  for_each (clip_channel self h) l σ = (r, σ') →
  (∀ k, k ≠ h → σ' !! k = σ !! k) ∧ (is_Some (σ !! h) → is_Some (σ' !! h)).
Proof.
  revert σ. induction l as [|c l IH]; intros σ; simpl.
  - intros [= _ <-]. done.
  - unfold mbind, M_bind.
    destruct (clip_channel self h c σ) as [[[]|e] σ1] eqn:Hc.
    + intros Hl. apply IH in Hl as [Hk Hs].
      apply clip_channel_frame in Hc as [-> | [o' ->]]; [done |].
      split.
      * intros k Hne. rewrite Hk by done. by rewrite lookup_insert_ne.
      * intros _. apply Hs. rewrite lookup_insert_eq. eauto.
    + intros [= _ <-].
      apply clip_channel_frame in Hc as [-> | [o' ->]]; [done |].
      split.
      * intros k Hne. by rewrite lookup_insert_ne.
      * intros _. rewrite lookup_insert_eq. eauto.
Qed.

Lemma clip_frame (self : Utils) (h : nat) (σ σ' : gmap nat tensor_obj) r :
  clip self h σ = (r, σ') →
  (∀ x, r = Ok x → x = h)
  ∧ (∀ k, k ≠ h → σ' !! k = σ !! k)
  ∧ (is_Some (σ !! h) → is_Some (σ' !! h)).
Proof.
  unfold clip, mbind, M_bind, read.
  destruct (σ !! h) as [o|] eqn:Ho; simpl.
  - destruct (for_each _ _ σ) as [[[]|e] σ1] eqn:Hl.
    + unfold mret, M_ret. intros [= <- <-].
      apply for_each_clip_frame in Hl as [Hk Hs].
      split; [by intros x [= <-] |]. split; [done |].
      intros _. apply Hs. rewrite Ho. eauto.
    + intros [= <- <-].
      apply for_each_clip_frame in Hl as [Hk Hs].
      split; [done |]. split; [done |].
      intros _. apply Hs. rewrite Ho. eauto.
  - intros [= <- <-]. split; [done |]. split; [done |]. by rewrite Ho.
Qed.

Lemma denormalize_frame (self : Utils) (h : nat) (σ σ' : gmap nat tensor_obj) r :
  denormalize self h σ = (r, σ') → σ' = σ.
Proof.
  unfold denormalize, mbind, M_bind, read, lift.
  destruct (σ !! h); simpl; by intros [= _ <-].
Qed.

Lemma normalize_fresh (self : Utils) (h : nat) (σ σ' : gmap nat tensor_obj) x :
  normalize self h σ = (Ok x, σ') →
  σ !! x = None ∧ ∀ k, k ≠ x → σ' !! k = σ !! k.
Proof.
  unfold normalize, mbind, M_bind, read, lift, alloc.
  destruct (σ !! h); simpl; [| done].
  destruct (normalize_data _ _); simpl; [| done].
  intros [= <- <-]. split; [apply fresh_lookup |].
  intros k Hk. by rewrite lookup_insert_ne.
Qed.

Lemma clip_channel_ok (self : Utils) (h c : nat) (σ : gmap nat tensor_obj) o m s x :
  mean self !! c = Some m → stdv self !! c = Some s →
  σ !! h = Some o → requires_grad o = false → get_0c (data o) c = Some x →
  clip_channel self h c σ =
    (Ok tt,
     <[h := {| data := set_0c (data o) c
                         (map (map (clamp (clip_lo m s) (clip_hi m s))) x);
               requires_grad := requires_grad o;
               is_leaf := is_leaf o |}]> σ).
Proof.
  intros Hm Hs Ho Hg Hx. unfold clip_channel, mbind, M_bind, lift, read, write.
  rewrite Hm; simpl. rewrite Hs; simpl. rewrite Ho; simpl. rewrite Hx; simpl.
  by rewrite Hg.
Qed.

(** The assignment of the first channel to a leaf that requires grad is
    refused; nothing has been written by then. *)
Lemma clip_leaf_requires_grad (self : Utils) (σ : gmap nat tensor_obj) (h : nat) o
    c0 chs rest m0 ms s0 ss :
  σ !! h = Some o → requires_grad o = true → is_leaf o = true →
  data o = (c0 :: chs) :: rest →
  mean self = m0 :: ms → stdv self = s0 :: ss →
  clip self h σ = (Raise RuntimeError, σ).
Proof.
  intros Ho Hg Hl Hd Hm Hs. unfold clip.
  rewrite (bind_ok _ _ _ _ _ (read_ok _ _ _ Ho)). rewrite Hd.
  cbn [shape1 length seq for_each].
  erewrite bind_raise; [reflexivity |].
  erewrite bind_raise; [reflexivity |].
  unfold clip_channel, mbind, M_bind, lift, read, raise.
  rewrite Hm, Hs; simpl. rewrite Ho; simpl. rewrite Hd; simpl.
  by rewrite Hg, Hl.
Qed.

Lemma clip_three_channels (self : Utils) (σ : gmap nat tensor_obj) (h : nat) o
    c0 c1 c2 rest m0 m1 m2 s0 s1 s2 :
  σ !! h = Some o → requires_grad o = false →
  data o = [c0; c1; c2] :: rest →
  mean self = [m0; m1; m2] → stdv self = [s0; s1; s2] →
  clip self h σ =
    (Ok h,
     <[h := {| data := [clamp_channel m0 s0 c0; clamp_channel m1 s1 c1;
                        clamp_channel m2 s2 c2] :: rest;
               requires_grad := requires_grad o;
               is_leaf := is_leaf o |}]> σ).
Proof.
  intros Ho Hg Hd Hm Hs. unfold clip.
  rewrite (bind_ok _ _ _ _ _ (read_ok _ _ _ Ho)).
  rewrite Hd.
  change (seq 0 (shape1 ([c0; c1; c2] :: rest))) with [0; 1; 2].
  assert (for_each (clip_channel self h) [0; 1; 2] σ =
    (Ok tt, <[h := {| data := [clamp_channel m0 s0 c0; clamp_channel m1 s1 c1;
                        clamp_channel m2 s2 c2] :: rest;
               requires_grad := requires_grad o;
               is_leaf := is_leaf o |}]> σ)) as Hloop.
  { cbn [for_each].
    erewrite (bind_ok (clip_channel _ _ 0));
      [| eapply clip_channel_ok;
         [by rewrite Hm | by rewrite Hs | done | done | by rewrite Hd] ].
    erewrite (bind_ok (clip_channel _ _ 1));
      [| eapply clip_channel_ok;
         [by rewrite Hm | by rewrite Hs | apply lookup_insert_eq | done | by rewrite Hd] ].
    erewrite (bind_ok (clip_channel _ _ 2));
      [| eapply clip_channel_ok;
         [by rewrite Hm | by rewrite Hs | apply lookup_insert_eq | done | by rewrite Hd] ].
    rewrite !insert_insert_eq. rewrite Hd. reflexivity. }
  by rewrite (bind_ok _ _ _ _ _ Hloop).
Qed.

(** C8, the claim as stated fails for the shift: on a store that holds one
    tensor at handle 0, the shift returns handle 1, a new object, and the
    object at handle 0 still has its old data although the roll moves the
    elements. *)
Lemma shift_is_not_in_place :
  let t : tensor4 F32.t := [[[[F32.one; F32.zero]]]] in
  let σ : gmap nat tensor_obj := {[ 0 := mkTensor t false true ]} in
  random_circular_spatial_shift (vgg19_profile "vgg19") 0 1 1 false σ =
    (Ok 1, <[1 := mkTensor (roll_23 1 1 t) true true]> σ)
  ∧ ¬ (∃ σ', random_circular_spatial_shift (vgg19_profile "vgg19") 0 1 1 false σ
             = (Ok 0, σ'))
  ∧ (<[1 := mkTensor (roll_23 1 1 t) true true]> σ) !! 0 = Some (mkTensor t false true)
  ∧ roll_23 1 1 t ≠ t.
Proof.
  intros t σ.
  assert (random_circular_spatial_shift (vgg19_profile "vgg19") 0 1 1 false σ =
    (Ok 1, <[1 := mkTensor (roll_23 1 1 t) true true]> σ)) as Hs.
  { rewrite (shift_spec _ σ 0 (mkTensor t false true) 1 1 false);
      [reflexivity | reflexivity | simpl; lia | simpl; lia]. }
  split; [exact Hs |]. split; [| split].
  - intros [σ' H]. rewrite Hs in H. discriminate H.
  - reflexivity.
  - vm_compute. discriminate.
Qed.

(** C8, amended.  [clip] works in place: it returns the handle it was
    given, and no other object of the store changes; on a tensor that does
    not require grad it writes the clamped channels into the object, and on
    a leaf that requires grad the assignment is refused and nothing is
    written.  The shift does not work in place: for offsets that
    [torch.roll] accepts it returns a new object and leaves its argument,
    like every other object, as it was.  [denormalize] changes nothing in
    the store and [normalize] returns a new object. *)
Theorem clip_in_place_shift_allocates
    (self : Utils) (σ : gmap nat tensor_obj) (h : nat) (o : tensor_obj) :
  σ !! h = Some o →
  (∀ r σ', clip self h σ = (r, σ') →
     (∀ x, r = Ok x → x = h)
     ∧ (∀ k, k ≠ h → σ' !! k = σ !! k)
     ∧ is_Some (σ' !! h))
  ∧ (∀ c0 c1 c2 rest m0 m1 m2 s0 s1 s2,
       requires_grad o = false →
       data o = [c0; c1; c2] :: rest →
       mean self = [m0; m1; m2] → stdv self = [s0; s1; s2] →
       clip self h σ =
         (Ok h,
          <[h := {| data := [clamp_channel m0 s0 c0; clamp_channel m1 s1 c1;
                             clamp_channel m2 s2 c2] :: rest;
                    requires_grad := requires_grad o;
                    is_leaf := is_leaf o |}]> σ))
  ∧ (∀ c0 chs rest m0 ms s0 ss,
       requires_grad o = true → is_leaf o = true →
       data o = (c0 :: chs) :: rest →
       mean self = m0 :: ms → stdv self = s0 :: ss →
       clip self h σ = (Raise RuntimeError, σ))
  ∧ (∀ dy dx undo,
       (- 2 ^ 62 < dy < 2 ^ 62)%Z → (- 2 ^ 62 < dx < 2 ^ 62)%Z →
       ∃ h' σ',
         random_circular_spatial_shift self h dy dx undo σ = (Ok h', σ')
         ∧ h' ≠ h ∧ σ !! h' = None ∧ σ' !! h = Some o
         ∧ (∀ k, k ≠ h' → σ' !! k = σ !! k))
  ∧ (∀ r σ', denormalize self h σ = (r, σ') → σ' = σ)
  ∧ (∀ x σ', normalize self h σ = (Ok x, σ') →
       σ !! x = None ∧ ∀ k, k ≠ x → σ' !! k = σ !! k).
Proof.
  intros Ho. split; [| split; [| split; [| split; [| split] ] ] ].
  - intros r σ' Hc. apply clip_frame in Hc as (Hr & Hk & Hs).
    split; [done |]. split; [done |]. apply Hs. rewrite Ho. eauto.
  - intros. by eapply clip_three_channels.
  - intros. by eapply clip_leaf_requires_grad.
  - intros dy dx undo Hdy Hdx. eexists _, _.
    split; [apply shift_spec; [done | destruct undo; lia | destruct undo; lia] |].
    assert (fresh (dom σ) ≠ h) as Hne.
    { intros Heq. pose proof (fresh_lookup σ) as Hf. rewrite Heq in Hf. congruence. }
    split; [done |]. split; [apply fresh_lookup |].
    split; [by rewrite lookup_insert_ne |].
    intros k Hk. by rewrite lookup_insert_ne.
  - intros r σ'. apply denormalize_frame.
  - intros x σ'. apply normalize_fresh.
Qed.

Lemma clip_in_place_shift_allocates_witness :
  let t : tensor4 F32.t := [[[[F32.one; F32.zero]]]] in
  let σ : gmap nat tensor_obj := {[ 0 := mkTensor t false true ]} in
  ∃ h' σ',
    random_circular_spatial_shift (vgg19_profile "vgg19") 0 1 1 false σ = (Ok h', σ')
    ∧ h' ≠ 0 ∧ σ !! h' = None ∧ σ' !! 0 = Some (mkTensor t false true)
    ∧ (∀ k, k ≠ h' → σ' !! k = σ !! k).
Proof.
  intros t σ.
  refine (proj1 (proj2 (proj2 (proj2
    (clip_in_place_shift_allocates (vgg19_profile "vgg19") σ 0 (mkTensor t false true) _))))
    1%Z 1%Z false _ _).
  - reflexivity.
  - lia.
  - lia.
Defined.

(** ** Shapes through the smoother *)

Lemma mapM_Forall2 {B C} (f : B → result C) (l : list B) (r : list C) :
  mapM f l = Ok r ↔ Forall2 (λ x y, f x = Ok y) l r.
Proof.
  revert r. induction l as [|x l IH]; intros r; simpl.
  - split; [intros [= <-]; constructor | by inversion 1].
  - destruct (f x) as [y|e] eqn:Hx; simpl.
    + destruct (mapM f l) as [ys|e] eqn:Hl; simpl.
      * split.
        -- intros [= <-]. constructor; [done | by apply IH].
        -- inversion 1 as [|? y' ? ys' Hy Hys]; subst.
           apply IH in Hys. congruence.
      * split; [done |].
        inversion 1 as [|? y' ? ys' Hy Hys]; subst. apply IH in Hys. done.
    + split; [done |]. inversion 1; subst; congruence.
Qed.

Lemma mapM_ok_Forall {B C} (f : B → result C) (P : C → Prop) (l : list B) :
  Forall (λ x, ∃ y, f x = Ok y ∧ P y) l →
  ∃ r, mapM f l = Ok r ∧ length r = length l ∧ Forall P r.
Proof.
  induction 1 as [|x l (y & Hy & HP) _ (r & Hr & Hlen & HPr)]; simpl.
  - exists []. by repeat split.
  - exists (y :: r). rewrite Hy, Hr. simpl. repeat split; [lia | by constructor].
Qed.

Lemma rect2_map {A B} (f : A → B) H W (m : list (list A)) :
  rect2 H W m → rect2 H W (map (map f) m).
Proof.
  intros [Hl Hr]. split; [by rewrite length_fmap |].
  apply Forall_fmap. eapply Forall_impl; [done |]. intros row. simpl.
  by rewrite length_fmap.
Qed.

Lemma rect2_zip_with {A B C} (f : A → B → C) H W m1 m2 :
  rect2 H W m1 → rect2 H W m2 → rect2 H W (zip_with (zip_with f) m1 m2).
Proof.
  intros [Hl1 Hr1] [Hl2 Hr2]. split; [rewrite length_zip_with; lia |].
  clear Hl1 Hl2. revert m2 Hr2. induction Hr1 as [|r1 m1 Hr1 _ IH]; intros m2 Hr2.
  - constructor.
  - destruct Hr2 as [|r2 m2 Hr2 Hm2]; simpl; constructor.
    + rewrite length_zip_with. lia.
    + by apply IH.
Qed.

Lemma length_reflect_pad_1d {A} (p : nat) (l : list A) :
  p < length l → length (reflect_pad_1d p l) = length l + 2 * p.
Proof.
  intros Hp. unfold reflect_pad_1d.
  rewrite !length_app, length_rev, !length_take, !length_drop, length_rev. lia.
Qed.

Lemma reflect_pad_img_rect {A} (p H W : nat) (img : list (list A)) :
  rect2 H W img → p < H → p < W →
  ∃ out, reflect_pad_img p img = Ok out ∧ rect2 (H + 2 * p) (W + 2 * p) out.
Proof.
  intros [Hl Hr] HpH HpW. unfold reflect_pad_img.
  rewrite bool_decide_eq_true_2 by lia.
  assert (forallb (λ row : list A, bool_decide (p < length row)) img = true) as ->.
  { clear Hl. induction Hr as [|row img Hrow _ IH]; simpl; [done |].
    rewrite IH, bool_decide_eq_true_2; [done | by rewrite Hrow]. }
  simpl. eexists. split; [reflexivity |]. split.
  - rewrite length_reflect_pad_1d; rewrite length_fmap; lia.
  - assert (Forall (λ row : list A, length row = W + 2 * p) (map (reflect_pad_1d p) img)) as HF.
    { apply Forall_fmap. eapply Forall_impl; [done |]. intros row Hrow. simpl in *.
      rewrite length_reflect_pad_1d; lia. }
    unfold reflect_pad_1d.
    repeat apply Forall_app_2; [apply Forall_rev, Forall_take, Forall_drop | | apply Forall_take, Forall_drop, Forall_rev]; done.
Qed.

Lemma reflect_pad_rect {A} (p N C H W : nat) (t : tensor4 A) :
  rect4 N C H W t → p < H → p < W →
  ∃ out, reflect_pad p t = Ok out ∧ rect4 N C (H + 2 * p) (W + 2 * p) out.
Proof.
  intros [Hl Hr] HpH HpW. unfold reflect_pad.
  destruct (mapM_ok_Forall (mapM (reflect_pad_img p)) (rect3 C (H + 2 * p) (W + 2 * p)) t)
    as (out & Hout & Hlen & HF).
  { eapply Forall_impl; [exact Hr |]. intros b [Hb Hbr]. simpl.
    destruct (mapM_ok_Forall (reflect_pad_img p) (rect2 (H + 2 * p) (W + 2 * p)) b)
      as (ob & Hob & Hoblen & HobF).
    { eapply Forall_impl; [exact Hbr |]. intros img Himg. simpl.
      by apply reflect_pad_img_rect. }
    exists ob. split; [done |]. split; [lia | done]. }
  exists out. split; [done |]. split; [lia | done].
Qed.

Lemma windows_rows {A} (k H W : nat) (img : list (list A)) :
  1 ≤ k → k ≤ H → rect2 H W img →
  length (windows k img) = H + 1 - k
  ∧ Forall (λ rows, length (hd [] rows) = W) (windows k img).
Proof.
  intros Hk HkH [Hl Hr]. unfold windows. split.
  - rewrite length_fmap, length_seq. lia.
  - apply Forall_fmap, Forall_seq. intros i Hi. simpl.
    destruct (lookup_lt_is_Some_2 img i) as [row Hrow]; [lia |].
    rewrite (drop_S _ _ _ Hrow).
    destruct k as [|k]; [lia |]. simpl.
    exact (Forall_lookup_1 _ _ _ _ Hr Hrow).
Qed.

Lemma conv_channel_rect (k H W : nat) (ker img : list (list F32.t)) :
  1 ≤ k → rect2 k k ker → rect2 H W img → k ≤ H → k ≤ W →
  ∃ out, conv_channel ker img = Ok out ∧ rect2 (H + 1 - k) (W + 1 - k) out.
Proof.
  intros Hk [Hkl Hkr] Himg HkH HkW. unfold conv_channel.
  assert (length (hd [] ker) = k) as Hkw.
  { destruct ker as [|r0 ker]; simpl in *; [lia |]. by inversion Hkr. }
  rewrite Hkl, Hkw.
  destruct Himg as [Hl Hr].
  rewrite bool_decide_eq_true_2 by lia.
  assert (forallb (λ row : list F32.t, bool_decide (k ≤ length row)) img = true) as ->.
  { clear Hl. induction Hr as [|row img Hrow _ IH]; simpl; [done |].
    rewrite IH, bool_decide_eq_true_2; [done | lia]. }
  simpl. eexists. split; [reflexivity |].
  destruct (windows_rows k H W img Hk HkH (conj Hl Hr)) as [Hwl Hwr].
  split.
  - by rewrite length_fmap.
  - apply Forall_fmap. eapply Forall_impl; [exact Hwr |].
    intros rows Hrows. simpl in *.
    rewrite length_fmap, length_seq. lia.
Qed.

Lemma conv2d_groups3_rect (k N H W : nat) (ker : list (list F32.t)) (t : tensor4 F32.t) :
  1 ≤ k → rect2 k k ker → rect4 N 3 H W t → k ≤ H → k ≤ W →
  ∃ out, conv2d_groups3 t (replicate 3 [ker]) = Ok out
         ∧ rect4 N 3 (H + 1 - k) (W + 1 - k) out.
Proof.
  intros Hk Hker [Hl Hr] HkH HkW. unfold conv2d_groups3.
  destruct (mapM_ok_Forall
    (λ b : tensor3 F32.t,
       if bool_decide (length b = 3) && bool_decide (length (replicate 3 [ker]) = 3)
       then mapM (λ cw : list (list F32.t) * tensor3 F32.t,
                    conv_channel (hd [] cw.2) cw.1) (zip b (replicate 3 [ker]))
       else Raise RuntimeError)
    (rect3 3 (H + 1 - k) (W + 1 - k)) t) as (out & Hout & Hlen & HF).
  { eapply Forall_impl; [exact Hr |]. intros b [Hb Hbr]. simpl in *.
    rewrite bool_decide_eq_true_2 by done.
    rewrite ?bool_decide_eq_true_2 by done. simpl.
    destruct (mapM_ok_Forall
      (λ cw : list (list F32.t) * tensor3 F32.t, conv_channel (hd [] cw.2) cw.1)
      (rect2 (H + 1 - k) (W + 1 - k)) (zip b [[ker]; [ker]; [ker]]))
      as (ob & Hob & Hoblen & HobF).
    { change [[ker]; [ker]; [ker]] with (replicate 3 [ker]).
      rewrite zip_with_replicate_r_eq by done.
      apply Forall_fmap. eapply Forall_impl; [exact Hbr |].
      intros img Himg. simpl. by apply (conv_channel_rect k H W). }
    exists ob. split; [done |]. split; [| done].
    rewrite Hoblen, length_zip_with. simpl. lia. }
  exists out. split; [done |]. split; [lia | done].
Qed.

Lemma rect4_add4 (N C H W : nat) (a b : tensor4 F32.t) :
  rect4 N C H W a → rect4 N C H W b → rect4 N C H W (add4 a b).
Proof.
  intros [Hla Hra] [Hlb Hrb]. unfold add4. split; [rewrite length_zip_with; lia |].
  clear Hla Hlb. revert b Hrb. induction Hra as [|x a [Hx Hxr] _ IH]; intros b Hrb.
  - constructor.
  - destruct Hrb as [|y b [Hy Hyr] Hb]; simpl; constructor; [| by apply IH].
    split; [rewrite length_zip_with; lia |].
    clear Hx Hy IH. revert y Hyr. induction Hxr as [|m x Hm _ IH]; intros y Hyr.
    + constructor.
    + destruct Hyr as [|m' y Hm' Hy']; simpl; constructor; [| by apply IH].
      by apply rect2_zip_with.
Qed.

Lemma arange_length (size : Z) (r : list F32.t) :
  arange size = Ok r → (0 ≤ size < 2 ^ 63)%Z ∧ length r = Z.to_nat size.
Proof.
  unfold arange. destruct (Z.ltb_spec size 0); [done |].
  destruct (Z.leb_spec (2 ^ 63) size); [done |]. cbn [orb].
  intros [= <-]. split; [lia |]. by rewrite length_fmap, length_seq.
Qed.

Lemma meshgrid_rect {A} (r : list A) :
  ∃ g0 g1, meshgrid r r = [g0; g1]
           ∧ rect2 (length r) (length r) g0 ∧ rect2 (length r) (length r) g1.
Proof.
  eexists _, _. split; [reflexivity |]. split; split.
  - by rewrite length_fmap.
  - apply Forall_fmap, Forall_forall. intros x _. simpl. apply length_replicate.
  - apply length_replicate.
  - by apply Forall_replicate.
Qed.

Section SmootherShapes.
Variable torch_exp : F32.t → F32.t.
Variable torch_sum : list (list F32.t) → F32.t.
Variable cuda : bool.

Lemma gauss_factor_rect size std (g f : list (list F32.t)) H W :
  gauss_factor torch_exp size std g = Ok f → rect2 H W g → rect2 H W f.
Proof.
  unfold gauss_factor. destruct (F64.eqb _ _); [done |].
  intros [= <-]. apply rect2_map.
Qed.

Lemma gauss_kernel_rect size std (r : list F32.t) (k : list (list F32.t)) :
  gauss_kernel torch_exp size std (meshgrid r r) = Ok k →
  rect2 (length r) (length r) k.
Proof.
  destruct (meshgrid_rect r) as (g0 & g1 & -> & Hg0 & Hg1).
  unfold gauss_kernel.
  destruct (gauss_factor _ _ _ g0) as [f0|] eqn:Hf0; [simpl | done].
  destruct (gauss_factor _ _ _ g1) as [f1|] eqn:Hf1; [simpl | done].
  intros [= <-]. apply rect2_zip_with.
  - apply rect2_map. by eapply gauss_factor_rect.
  - by eapply gauss_factor_rect.
Qed.

(** The list [kernels] has one square kernel per cascade coefficient. *)
Lemma kernels_inv (kernel_size : Z) (sigma : F64.t) (ks : list (list (list F32.t))) :
  kernels torch_exp kernel_size sigma = Ok ks →
  (0 ≤ kernel_size < 2 ^ 63)%Z
  ∧ ∃ r a b c,
      arange kernel_size = Ok r ∧ ks = [a; b; c]
      ∧ Forall2 (λ coeff k,
           gauss_kernel torch_exp kernel_size (F64.mul coeff sigma) (meshgrid r r) = Ok k
           ∧ rect2 (Z.to_nat kernel_size) (Z.to_nat kernel_size) k)
          cascade_coefficients ks.
Proof.
  unfold kernels.
  destruct (arange _) as [r|] eqn:Hr; [cbn [rbind] | done].
  apply arange_length in Hr as [Hks Hlen]. intros Hk.
  apply mapM_Forall2 in Hk. rewrite Forall2_fmap_l in Hk.
  split; [exact Hks |].
  assert (Forall2 (λ coeff k,
            gauss_kernel torch_exp kernel_size (F64.mul coeff sigma) (meshgrid r r) = Ok k
            ∧ rect2 (Z.to_nat kernel_size) (Z.to_nat kernel_size) k)
            cascade_coefficients ks) as Hall.
  { eapply Forall2_impl; [exact Hk |]. intros coeff k Hg. split; [exact Hg |].
    apply gauss_kernel_rect in Hg. by rewrite Hlen in Hg. }
  pose proof Hall as Hshape. unfold cascade_coefficients in Hshape.
  apply Forall2_cons_inv_l in Hshape as (a & ks1 & _ & Hshape & ->).
  apply Forall2_cons_inv_l in Hshape as (b & ks2 & _ & Hshape & ->).
  apply Forall2_cons_inv_l in Hshape as (c & ks3 & _ & Hshape & ->).
  apply Forall2_nil_inv_l in Hshape as ->.
  by exists r, a, b, c.
Qed.

Lemma prepare_kernel_inv (k : list (list F32.t)) (w : tensor4 F32.t) n :
  prepare_kernel torch_sum cuda k = Ok w → rect2 n n k →
  cuda = true ∧ ∃ k', w = replicate 3 [k'] ∧ rect2 n n k'.
Proof.
  unfold prepare_kernel, to_device. destruct cuda; [| done].
  intros [= <-] Hk. split; [done |]. eexists. split; [reflexivity |].
  by apply rect2_map.
Qed.

(** What a successful construction has built. *)
Lemma CascadeGaussianSmoothing_init_inv (kernel_size : Z) (sigma : F64.t) s :
  CascadeGaussianSmoothing_init torch_exp torch_sum cuda kernel_size sigma = Ok s →
  cuda = true
  ∧ py_int (F64.div (F64.of_Z kernel_size) (F64.of_Z 2)) = Ok (pad s)
  ∧ (0 ≤ kernel_size)%Z
  ∧ ∃ k1 k2 k3,
      weight1 s = replicate 3 [k1] ∧ weight2 s = replicate 3 [k2]
      ∧ weight3 s = replicate 3 [k3]
      ∧ rect2 (Z.to_nat kernel_size) (Z.to_nat kernel_size) k1
      ∧ rect2 (Z.to_nat kernel_size) (Z.to_nat kernel_size) k2
      ∧ rect2 (Z.to_nat kernel_size) (Z.to_nat kernel_size) k3.
Proof.
  unfold CascadeGaussianSmoothing_init.
  destruct (py_int _) as [p|] eqn:Hp; [cbn [rbind] | done].
  destruct (kernels _ _ _) as [ks|] eqn:Hk; [cbn [rbind] | done].
  apply kernels_inv in Hk as (Hks & r & a & b & c & _ & -> & Hk).
  apply Forall2_cons_inv_l in Hk as (a' & ks1 & [_ Ha] & Hk & [= <- <-]).
  apply Forall2_cons_inv_l in Hk as (b' & ks2 & [_ Hb] & Hk & [= <- <-]).
  apply Forall2_cons_inv_l in Hk as (c' & ks3 & [_ Hc] & _ & [= <- <-]).
  destruct (mapM _ _) as [prepared|] eqn:Hprep; [cbn [rbind] | done].
  apply mapM_Forall2 in Hprep.
  apply Forall2_cons_inv_l in Hprep as (w1 & p1 & Hw1 & Hprep & ->).
  apply Forall2_cons_inv_l in Hprep as (w2 & p2 & Hw2 & Hprep & ->).
  apply Forall2_cons_inv_l in Hprep as (w3 & p3 & Hw3 & Hprep & ->).
  apply Forall2_nil_inv_l in Hprep as ->.
  intros [= <-]. cbn [pad weight1 weight2 weight3].
  destruct (prepare_kernel_inv _ _ _ Hw1 Ha) as (Hcuda & k1 & -> & Hk1).
  destruct (prepare_kernel_inv _ _ _ Hw2 Hb) as (_ & k2 & -> & Hk2).
  destruct (prepare_kernel_inv _ _ _ Hw3 Hc) as (_ & k3 & -> & Hk3).
  split; [exact Hcuda |]. split; [reflexivity |]. split; [lia |].
  exists k1, k2, k3. by split_and!.
Qed.

(** Without a CUDA device the construction raises, whatever its
    arguments are. *)
Lemma CascadeGaussianSmoothing_init_no_cuda (kernel_size : Z) (sigma : F64.t) :
  cuda = false →
  ∃ e, CascadeGaussianSmoothing_init torch_exp torch_sum cuda kernel_size sigma = Raise e.
Proof.
  intros Hc.
  destruct (CascadeGaussianSmoothing_init _ _ _ _ _) as [s|e] eqn:Hs; [| eauto].
  apply CascadeGaussianSmoothing_init_inv in Hs as [Hs _]. congruence.
Qed.
End SmootherShapes.

(** A smoother whose weights are [k] by [k] kernels and whose padding is
    [p] with [2 p + 1 = k] returns a tensor of the shape of its input, when
    the input is larger than the padding. *)
Lemma forward_rect (s : CascadeGaussianSmoothing) (k p N H W : nat)
    (k1 k2 k3 : list (list F32.t)) (input : tensor4 F32.t) :
  Z.to_nat (pad s) = p → 2 * p + 1 = k →
  weight1 s = replicate 3 [k1] → weight2 s = replicate 3 [k2] →
  weight3 s = replicate 3 [k3] →
  rect2 k k k1 → rect2 k k k2 → rect2 k k k3 →
  rect4 N 3 H W input → p < H → p < W →
  ∃ out, forward s input = Ok out ∧ rect4 N 3 H W out.
Proof.
  intros Hp Hk Hw1 Hw2 Hw3 Hk1 Hk2 Hk3 Hin HpH HpW. unfold forward.
  rewrite Hp, Hw1, Hw2, Hw3.
  destruct (reflect_pad_rect p N 3 H W input Hin HpH HpW) as (padded & -> & Hpad).
  cbn [rbind].
  destruct (conv2d_groups3_rect k N (H + 2 * p) (W + 2 * p) k1 padded) as (g1 & -> & Hg1);
    [lia | done | done | lia | lia |]. cbn [rbind].
  destruct (conv2d_groups3_rect k N (H + 2 * p) (W + 2 * p) k2 padded) as (g2 & -> & Hg2);
    [lia | done | done | lia | lia |]. cbn [rbind].
  destruct (conv2d_groups3_rect k N (H + 2 * p) (W + 2 * p) k3 padded) as (g3 & -> & Hg3);
    [lia | done | done | lia | lia |]. cbn [rbind].
  eexists. split; [reflexivity |].
  replace (H + 2 * p + 1 - k) with H in * by lia.
  replace (W + 2 * p + 1 - k) with W in * by lia.
  by repeat apply rect4_add4.
Qed.

Lemma CascadeGaussianSmoothing_init_cuda_only torch_exp torch_sum
    (kernel_size : Z) (sigma : F64.t) s :
  CascadeGaussianSmoothing_init torch_exp torch_sum true kernel_size sigma = Ok s →
  CascadeGaussianSmoothing_init torch_exp torch_sum false kernel_size sigma
    = Raise RuntimeError.
Proof.
  unfold CascadeGaussianSmoothing_init.
  destruct (py_int _) as [p|]; [cbn [rbind] | done].
  destruct (kernels _ _ _) as [ks|] eqn:Hk; [cbn [rbind] | done].
  apply kernels_inv in Hk as (_ & r & a & b & c & _ & -> & _).
  intros _. reflexivity.
Qed.

(** C10.  On a host without a CUDA device the construction of the smoother
    raises for every kernel size and sigma: each kernel is moved to the
    device named ["cuda"], and that is the step that fails when everything
    before it succeeds.  The module-level [device] is the CPU on such a host
    and [gausian_blur], which uses it, returns. *)
Theorem smoother_requires_cuda
    (torch_exp : F32.t → F32.t) (torch_sum : list (list F32.t) → F32.t)
    (gaussian_filter : tensor4 F32.t → F64.t → tensor4 F32.t)
    (kernel_size : Z) (sigma : F64.t) :
  (∃ e, CascadeGaussianSmoothing_init torch_exp torch_sum false kernel_size sigma
        = Raise e)
  ∧ (is_ok (CascadeGaussianSmoothing_init torch_exp torch_sum true kernel_size sigma)
       = true →
     CascadeGaussianSmoothing_init torch_exp torch_sum false kernel_size sigma
       = Raise RuntimeError)
  ∧ (∀ kernel, prepare_kernel torch_sum false kernel = Raise RuntimeError)
  ∧ device false = Cpu
  ∧ (∀ grad sg, is_ok (gausian_blur gaussian_filter false grad sg) = true).
Proof.
  split; [by apply CascadeGaussianSmoothing_init_no_cuda |].
  split; [| done].
  destruct (CascadeGaussianSmoothing_init _ _ true _ _) as [s|] eqn:Hs; [| done].
  intros _. by eapply CascadeGaussianSmoothing_init_cuda_only.
Qed.

Lemma smoother_requires_cuda_witness :
  CascadeGaussianSmoothing_init exp_model sum_in_order false 3 (F64.of_Z 1)
    = Raise RuntimeError.
Proof.
  refine (proj1 (proj2 (smoother_requires_cuda exp_model sum_in_order
                          (λ g _, g) 3 (F64.of_Z 1))) _).
  vm_compute. reflexivity.
Defined.

(** C6, the claim as stated fails on a small input: with kernel size 3 the
    padding is 1, and torch refuses to reflect-pad a 1 by 1 image by 1. *)
Lemma smooth_fails_on_small_input :
  ¬ (∀ (torch_exp : F32.t → F32.t) (torch_sum : list (list F32.t) → F32.t)
       (sigma : F64.t) (s : CascadeGaussianSmoothing) (input : tensor4 F32.t),
       CascadeGaussianSmoothing_init torch_exp torch_sum true 3 sigma = Ok s →
       rect4 1 3 1 1 input →
       ∃ out, forward s input = Ok out ∧ rect4 1 3 1 1 out).
Proof.
  intros Hclaim.
  destruct (CascadeGaussianSmoothing_init exp_model sum_in_order true 3
              (F64.of_Z 1)) as [s|] eqn:Hs; [| vm_compute in Hs; discriminate Hs].
  destruct (Hclaim _ _ _ s [[[[F32.one]]; [[F32.one]]; [[F32.one]]]] Hs)
    as (out & Hout & _).
  { by repeat constructor. }
  apply CascadeGaussianSmoothing_init_inv in Hs as (_ & Hp & _).
  assert (py_int (F64.div (F64.of_Z 3) (F64.of_Z 2)) = Ok 1%Z) as Hq
    by (vm_compute; reflexivity).
  rewrite Hq in Hp. injection Hp as Hp.
  unfold forward in Hout. rewrite <- Hp in Hout. discriminate Hout.
Qed.

(** C6, amended.  For a kernel size among 3, 5, 7 and 9 and an input of
    shape [(N, 3, H, W)] whose height and width exceed the padding
    [kernel_size / 2], the smoother returns a tensor of the same shape:
    the reflect padding adds [2 * (kernel_size / 2)] to both dimensions and
    each convolution removes [kernel_size - 1]. *)
Theorem smooth_preserves_shape
    (torch_exp : F32.t → F32.t) (torch_sum : list (list F32.t) → F32.t)
    (kernel_size : Z) (sigma : F64.t) (s : CascadeGaussianSmoothing)
    (N H W : nat) (input : tensor4 F32.t) :
  (kernel_size = 3 ∨ kernel_size = 5 ∨ kernel_size = 7 ∨ kernel_size = 9)%Z →
  CascadeGaussianSmoothing_init torch_exp torch_sum true kernel_size sigma = Ok s →
  rect4 N 3 H W input →
  Z.to_nat (kernel_size `quot` 2) < H →
  Z.to_nat (kernel_size `quot` 2) < W →
  pad s = (kernel_size `quot` 2)%Z
  ∧ ∃ out, forward s input = Ok out ∧ rect4 N 3 H W out.
Proof.
  intros Hks Hs Hin HpH HpW.
  apply CascadeGaussianSmoothing_init_inv in Hs
    as (_ & Hp & _ & k1 & k2 & k3 & Hw1 & Hw2 & Hw3 & Hk1 & Hk2 & Hk3).
  assert (pad s = (kernel_size `quot` 2)%Z) as Hpad.
  { assert (∀ a b : Z, Ok a = Ok (A:=Z) b → b = a) as Hinj by (by intros a b [= ->]).
    destruct Hks as [-> | [-> | [-> | ->]]]; apply Hinj; rewrite <- Hp;
      vm_compute; reflexivity. }
  split; [done |].
  apply (forward_rect s (Z.to_nat kernel_size) (Z.to_nat (kernel_size `quot` 2))
           N H W k1 k2 k3); try done.
  - by rewrite Hpad.
  - destruct Hks as [-> | [-> | [-> | ->]]]; reflexivity.
Qed.

Lemma smooth_preserves_shape_witness :
  pad smoother_3 = 1%Z
  ∧ ∃ out, forward smoother_3 (replicate 1 (replicate 3 (replicate 2 (replicate 2 F32.one))))
           = Ok out ∧ rect4 1 3 2 2 out.
Proof.
  apply (smooth_preserves_shape exp_model sum_in_order 3 (F64.of_Z 1)
           smoother_3 1 2 2).
  - by left.
  - vm_compute. reflexivity.
  - by repeat constructor.
  - vm_compute. lia.
  - vm_compute. lia.
Defined.

(** * IEEE arithmetic: what the operations compute *)

Section FloatTheory.
Local Open Scope Z_scope.

(** ** Powers of two *)


Lemma bpow_pos (e : Z) : (0 < bpow e)%Q.
Proof. apply Qpower_0_lt. reflexivity. Qed.

Lemma bpow_add (a b : Z) : (bpow (a + b) == bpow a * bpow b)%Q.
Proof. apply Qpower_plus. discriminate. Qed.

Lemma bpow_succ (e : Z) : (bpow (e + 1) == 2 * bpow e)%Q.
Proof. rewrite bpow_add. unfold bpow at 2. simpl. ring. Qed.

Lemma bpow_pred (e : Z) : (bpow e == 2 * bpow (e - 1))%Q.
Proof. rewrite <- bpow_succ. by replace (e - 1 + 1)%Z with e by lia. Qed.

Lemma bpow_Z (n : Z) : (0 ≤ n)%Z → (bpow n == inject_Z (2 ^ n))%Q.
Proof.
  intros Hn. pattern n. apply natlike_ind; [reflexivity | | done].
  intros k Hk IH. unfold Z.succ. rewrite bpow_succ, IH.
  rewrite Z.pow_add_r by lia. rewrite inject_Z_mult.
  change (inject_Z (2 ^ 1)) with 2%Q. ring.
Qed.

Lemma bpow_le (a b : Z) : (a ≤ b)%Z → (bpow a <= bpow b)%Q.
Proof.
  intros Hab. replace b with (a + (b - a))%Z by lia.
  rewrite bpow_add, (bpow_Z (b - a)) by lia.
  assert (1 ≤ 2 ^ (b - a))%Z as H1 by (apply (Z.pow_le_mono_r 2 0); lia).
  assert (1 <= inject_Z (2 ^ (b - a)))%Q as H2.
  { change 1%Q with (inject_Z 1). by rewrite <- Zle_Qle. }
  pose proof (bpow_pos a). nra.
Qed.

Lemma bpow_lt (a b : Z) : (a < b)%Z → (bpow a < bpow b)%Q.
Proof.
  intros Hab. eapply Qlt_le_trans; [| apply (bpow_le (a + 1) b); lia].
  rewrite bpow_succ. pose proof (bpow_pos a). lra.
Qed.

Lemma bpow_lt_inv (a b : Z) : (bpow a < bpow b)%Q → (a < b)%Z.
Proof.
  intros H. destruct (Z.lt_ge_cases a b) as [|Hge]; [done |].
  apply bpow_le in Hge. lra.
Qed.

(** ** The number of binary digits *)

Lemma digits2_pos_size (p : positive) : digits2_pos p = Pos.size p.
Proof. induction p; simpl; congruence. Qed.

Lemma digits2_bounds (p : positive) :
  (2 ^ (Z.pos (digits2_pos p) - 1) ≤ Z.pos p < 2 ^ Z.pos (digits2_pos p))%Z.
Proof.
  rewrite digits2_pos_size. split.
  - pose proof (Pos.size_le p) as H.
    assert (2 ^ Z.pos (Pos.size p) ≤ 2 * Z.pos p)%Z as H'.
    { rewrite <- Pos2Z.inj_pow. change (2 * Z.pos p)%Z with (Z.pos p~0). lia. }
    replace (Z.pos (Pos.size p)) with (Z.pos (Pos.size p) - 1 + 1)%Z in H' by lia.
    rewrite Z.pow_add_r in H' by lia. lia.
  - pose proof (Pos.size_gt p) as H. rewrite <- Pos2Z.inj_pow. lia.
Qed.

Lemma Zdigits2_nonneg (m : Z) : (0 ≤ Zdigits2 m)%Z.
Proof. destruct m; simpl; lia. Qed.

Lemma Zdigits2_bounds (m : Z) :
  (0 < m)%Z → (2 ^ (Zdigits2 m - 1) ≤ m < 2 ^ Zdigits2 m)%Z.
Proof. destruct m as [|p|p]; [lia | | lia]. intros _. apply digits2_bounds. Qed.

(** From a bound by a power of two to the number of digits, and back. *)
Lemma Zdigits2_le (m d : Z) : (0 ≤ d)%Z → (0 ≤ m < 2 ^ d)%Z → (Zdigits2 m ≤ d)%Z.
Proof.
  intros Hd [Hm0 Hm]. destruct (Z.eq_dec m 0%Z) as [-> | Hne]; [simpl; lia |].
  destruct (Zdigits2_bounds m) as [Hlo _]; [lia |].
  destruct (Z.le_gt_cases (Zdigits2 m) d) as [|Hgt]; [done |].
  assert (2 ^ d ≤ 2 ^ (Zdigits2 m - 1))%Z by (apply Z.pow_le_mono_r; lia). lia.
Qed.

Lemma Zdigits2_ge (m d : Z) : (2 ^ (d - 1) ≤ m)%Z → (0 < m)%Z → (d ≤ Zdigits2 m)%Z.
Proof.
  intros Hm Hpos. destruct (Zdigits2_bounds m Hpos) as [_ Hhi].
  destruct (Z.le_gt_cases d (Zdigits2 m)) as [|Hgt]; [done |].
  assert (2 ^ Zdigits2 m ≤ 2 ^ (d - 1))%Z.
  { apply Z.pow_le_mono_r; [lia |]. lia. }
  lia.
Qed.

(** ** Shifting the mantissa right *)


Lemma shr_1_spec (mrs : shr_record) :
  (0 ≤ shr_m mrs)%Z →
  shr_1 mrs = {| shr_m := shr_m mrs / 2; shr_r := Z.odd (shr_m mrs);
                 shr_s := shr_r mrs || shr_s mrs |}.
Proof.
  destruct mrs as [m r s]. simpl. intros Hm.
  destruct m as [|[p|p|]|p]; try lia; simpl; f_equal.
  - rewrite Pos2Z.inj_xI. apply (Z.div_unique _ _ _ 1); lia.
  - rewrite Pos2Z.inj_xO. apply (Z.div_unique _ _ _ 0); lia.
Qed.

Ltac push_inject :=
  repeat first [rewrite inject_Z_plus | rewrite inject_Z_mult | rewrite inject_Z_opp];
  change (inject_Z 0) with 0%Q; change (inject_Z 1) with 1%Q;
  change (inject_Z 2) with 2%Q.

Lemma located_shr_1 (mrs : shr_record) (e : Z) (t : Q) :
  (0 ≤ shr_m mrs)%Z → located mrs e t → located (shr_1 mrs) (e + 1) t.
Proof.
  intros Hm (Hlo & Hhi & Hs). rewrite shr_1_spec by done.
  destruct mrs as [m r s]. unfold located in *. simpl in *.
  replace (e + 1 - 1)%Z with (e - 1 + 1)%Z by lia.
  pose proof (bpow_succ (e - 1)) as Hu. pose proof (bpow_pos (e - 1)) as Hu0.
  set (u := bpow (e - 1)) in *. set (u' := bpow (e - 1 + 1)) in *.
  assert (m = 2 * (m / 2) + (if Z.odd m then 1 else 0))%Z as Hdiv.
  { rewrite <- Zmod_odd. apply Z.div_mod. lia. }
  set (b := (if Z.odd m then 1 else 0)%Z) in *.
  assert ((inject_Z (2 * (m / 2) + b) == inject_Z m)%Q) as Hm' by (by rewrite <- Hdiv).
  assert ((inject_Z (2 * (m / 2) + b + 1) == inject_Z m + 1)%Q) as Hm''.
  { rewrite inject_Z_plus, Hm'. reflexivity. }
  rewrite Hm', Hm''. clearbody b. clear Hm' Hm'' Hdiv.
  revert Hlo Hhi Hs. destruct r; push_inject; set (a := inject_Z m);
    intros Hlo Hhi Hs; (split; [nra |]); (split; [nra |]); simpl.
  - split; [done |]. intros Ht. nra.
  - split.
    + intros ->. destruct Hs as [Hs _]. specialize (Hs eq_refl). nra.
    + intros Ht. apply Hs. nra.
Qed.

Lemma located_iter_pos (p : positive) :
  ∀ (mrs : shr_record) (e : Z) (t : Q),
    (0 ≤ shr_m mrs)%Z → located mrs e t →
    (0 ≤ shr_m (SpecFloat.iter_pos shr_1 p mrs))%Z
    ∧ located (SpecFloat.iter_pos shr_1 p mrs) (e + Z.pos p) t
    ∧ shr_m (SpecFloat.iter_pos shr_1 p mrs) = (shr_m mrs / 2 ^ Z.pos p)%Z.
Proof.
  assert (∀ mrs e t, (0 ≤ shr_m mrs)%Z → located mrs e t →
    (0 ≤ shr_m (shr_1 mrs))%Z ∧ located (shr_1 mrs) (e + 1) t
    ∧ shr_m (shr_1 mrs) = (shr_m mrs / 2 ^ 1)%Z) as Hone.
  { intros mrs e t Hm Hl. split; [| split].
    - rewrite shr_1_spec by done. simpl. apply Z.div_pos; lia.
    - by apply located_shr_1.
    - rewrite shr_1_spec by done. reflexivity. }
  induction p as [p IH | p IH |]; intros mrs e t Hm Hl; simpl.
  - destruct (Hone mrs e t Hm Hl) as (H1 & L1 & E1).
    destruct (IH _ _ _ H1 L1) as (H2 & L2 & E2).
    destruct (IH _ _ _ H2 L2) as (H3 & L3 & E3).
    split; [done |]. split.
    + by replace (e + Z.pos p~1)%Z with (e + 1 + Z.pos p + Z.pos p)%Z by lia.
    + rewrite E3, E2, E1, !Z.div_div by lia. f_equal.
      rewrite <- !Z.pow_add_r by lia. f_equal. lia.
  - destruct (IH _ _ _ Hm Hl) as (H2 & L2 & E2).
    destruct (IH _ _ _ H2 L2) as (H3 & L3 & E3).
    split; [done |]. split.
    + by replace (e + Z.pos p~0)%Z with (e + Z.pos p + Z.pos p)%Z by lia.
    + rewrite E3, E2, !Z.div_div by lia. f_equal.
      rewrite <- !Z.pow_add_r by lia. f_equal. lia.
  - apply Hone; done.
Qed.

Lemma located_shr (mrs : shr_record) (e n : Z) (t : Q) :
  (0 ≤ shr_m mrs)%Z → located mrs e t →
  (shr mrs e n).2 = (e + Z.max n 0)%Z
  ∧ (0 ≤ shr_m (shr mrs e n).1)%Z
  ∧ located (shr mrs e n).1 (e + Z.max n 0) t
  ∧ shr_m (shr mrs e n).1 = (shr_m mrs / 2 ^ Z.max n 0)%Z
  ∧ (n ≤ 0 → (shr mrs e n).1 = mrs)%Z.
Proof.
  intros Hm Hl. destruct n as [|p|p]; simpl.
  - rewrite Z.add_0_r, Z.div_1_r. by split_and!.
  - destruct (located_iter_pos p mrs e t Hm Hl) as (H1 & L1 & E1).
    by split_and!.
  - rewrite Z.add_0_r, Z.div_1_r. by split_and!.
Qed.

Lemma located_exact (m e : Z) (t : Q) :
  located (shr_record_of_loc m loc_Exact) e t ↔ (t == inject_Z m * bpow e)%Q.
Proof.
  unfold located. simpl. rewrite Z.add_0_r.
  pose proof (bpow_pred e) as Hu. pose proof (bpow_pos (e - 1)) as Hu0.
  set (u := bpow (e - 1)) in *. rewrite Hu. push_inject. set (a := inject_Z m).
  split.
  - intros (_ & _ & Hs). destruct Hs as [Hs _]. rewrite (Hs eq_refl). ring.
  - intros Ht. split; [nra |]. split; [nra |]. split; [intros _; nra | done].
Qed.

(** Rounding to nearest, ties to even, of a located number: the chosen
    mantissa is within half a unit of the number. *)
Lemma round_nearest_even_located (mrs : shr_record) (e : Z) (t : Q) :
  located mrs e t →
  let m' := round_nearest_even (shr_m mrs) (loc_of_shr_record mrs) in
  (m' = shr_m mrs ∨ m' = (shr_m mrs + 1)%Z)
  ∧ (Qabs (inject_Z m' * bpow e - t) <= bpow (e - 1))%Q
  ∧ (shr_r mrs = false → shr_s mrs = false → m' = shr_m mrs).
Proof.
  destruct mrs as [m r s]. unfold located.
  cbn [shr_m shr_r shr_s]. intros (Hlo & Hhi & Hs).
  pose proof (bpow_pred e) as Hu. pose proof (bpow_pos (e - 1)) as Hu0.
  set (u := bpow (e - 1)) in *. set (v := bpow e) in *.
  revert Hlo Hhi Hs.
  destruct r, s; cbn [round_nearest_even loc_of_shr_record]; cbv zeta;
    push_inject; set (a := inject_Z m); intros Hlo Hhi Hs.
  - split; [by right |]. split; [| done].
    apply Qabs_Qle_condition. push_inject. fold a. split; nra.
  - destruct Hs as [Hs _]. specialize (Hs eq_refl).
    split; [destruct (Z.even m); auto |]. split; [| done].
    apply Qabs_Qle_condition.
    destruct (Z.even m); push_inject; fold a; split; nra.
  - split; [by left |]. split; [| done].
    apply Qabs_Qle_condition. fold a. split; nra.
  - destruct Hs as [Hs _]. specialize (Hs eq_refl).
    split; [by left |]. split; [| done].
    apply Qabs_Qle_condition. fold a. split; nra.
Qed.

(** ** Rounding a located number to the format *)


Lemma shr_m_of_loc (m : Z) (l : location) : shr_m (shr_record_of_loc m l) = m.
Proof. by destruct l as [|[]]. Qed.

Lemma located_lower (mrs : shr_record) (e : Z) (t : Q) :
  (0 ≤ shr_m mrs)%Z → located mrs e t → (inject_Z (shr_m mrs) * bpow e <= t)%Q.
Proof.
  destruct mrs as [m r s]. unfold located. cbn [shr_m shr_r shr_s].
  intros Hm (Hlo & _ & _).
  pose proof (bpow_pred e) as Hu. pose proof (bpow_pos (e - 1)) as Hu0.
  set (u := bpow (e - 1)) in *. set (v := bpow e) in *.
  revert Hlo. push_inject. set (a := inject_Z m).
  assert (0 <= a)%Q as Ha.
  { subst a. change 0%Q with (inject_Z 0). by rewrite <- Zle_Qle. }
  destruct r; push_inject; intros Hlo; nra.
Qed.

Lemma inject_Z_pow_lt (m d : Z) :
  (0 ≤ d)%Z → (m < 2 ^ d)%Z → (inject_Z m < bpow d)%Q.
Proof. intros Hd Hm. rewrite bpow_Z by done. by rewrite <- Zlt_Qlt. Qed.

Lemma inject_Z_pow_le (m d : Z) :
  (0 ≤ d)%Z → (2 ^ d ≤ m)%Z → (bpow d <= inject_Z m)%Q.
Proof. intros Hd Hm. rewrite bpow_Z by done. by rewrite <- Zle_Qle. Qed.

(** A positive mantissa with [d] digits, at exponent [e], is at least
    [2^(d-1+e)]. *)
Lemma mantissa_lower (m e : Z) :
  (0 < m)%Z → (bpow (Zdigits2 m - 1 + e) <= inject_Z m * bpow e)%Q.
Proof.
  intros Hm. destruct (Zdigits2_bounds m Hm) as [Hlo _].
  assert (0 ≤ Zdigits2 m - 1)%Z as Hd.
  { destruct m; simpl in *; lia. }
  rewrite bpow_add. pose proof (bpow_pos e).
  pose proof (inject_Z_pow_le m _ Hd Hlo). nra.
Qed.

Lemma mantissa_upper (m e : Z) :
  (0 ≤ m)%Z → (inject_Z m * bpow e < bpow (Zdigits2 m + e))%Q.
Proof.
  intros Hm. rewrite bpow_add. pose proof (bpow_pos e).
  assert (inject_Z m < bpow (Zdigits2 m))%Q.
  { destruct (Z.eq_dec m 0%Z) as [-> | Hne].
    - simpl. apply (bpow_pos 0).
    - apply inject_Z_pow_lt; [apply Zdigits2_nonneg |].
      apply Zdigits2_bounds. lia. }
  nra.
Qed.

Lemma Zdigits2_shift (m s : Z) :
  (0 < m)%Z → (0 ≤ s)%Z → Zdigits2 (m * 2 ^ s) = (Zdigits2 m + s)%Z.
Proof.
  intros Hm Hs. destruct (Zdigits2_bounds m Hm) as [Hlo Hhi].
  pose proof (Zdigits2_nonneg m) as Hd0.
  assert (0 < 2 ^ s)%Z as H2 by (apply Z.pow_pos_nonneg; lia).
  assert (1 ≤ Zdigits2 m)%Z as Hd1 by (destruct m; simpl in *; lia).
  apply Z.le_antisymm.
  - apply Zdigits2_le; [lia |]. split; [lia |].
    rewrite Z.pow_add_r by lia. nia.
  - apply Zdigits2_ge; [| nia].
    replace (Zdigits2 m + s - 1)%Z with (Zdigits2 m - 1 + s)%Z by lia.
    rewrite Z.pow_add_r by lia. nia.
Qed.

Lemma Pos_iter_xO (m d : positive) :
  Z.pos (Pos.iter xO m d) = (Z.pos m * 2 ^ Z.pos d)%Z.
Proof.
  induction d as [|d IH] using Pos.peano_ind.
  - simpl. lia.
  - rewrite Pos.iter_succ, Pos2Z.inj_xO, IH, Pos2Z.inj_succ, Z.pow_succ_r by lia. lia.
Qed.

Lemma shl_align_spec (mx : positive) (ex ex' : Z) :
  (shl_align mx ex ex').2 = Z.min ex ex'
  ∧ Z.pos (shl_align mx ex ex').1 = (Z.pos mx * 2 ^ (ex - Z.min ex ex'))%Z.
Proof.
  unfold shl_align. destruct (ex' - ex)%Z as [|d|d] eqn:Hd; cbn [fst snd].
  - rewrite Z.min_l by lia. rewrite Z.sub_diag. simpl. lia.
  - rewrite Z.min_l by lia. rewrite Z.sub_diag. simpl. lia.
  - rewrite Z.min_r by lia. split; [done |].
    rewrite Pos_iter_xO. f_equal. f_equal. lia.
Qed.

Lemma Zdigits2_mul (a b : Z) :
  (0 < a)%Z → (0 < b)%Z → (Zdigits2 a + Zdigits2 b - 1 ≤ Zdigits2 (a * b))%Z.
Proof.
  intros Ha Hb.
  destruct (Zdigits2_bounds a Ha) as [Hla _]. destruct (Zdigits2_bounds b Hb) as [Hlb _].
  assert (1 ≤ Zdigits2 a)%Z by (destruct a; simpl in *; lia).
  assert (1 ≤ Zdigits2 b)%Z by (destruct b; simpl in *; lia).
  apply Zdigits2_ge; [| nia].
  replace (Zdigits2 a + Zdigits2 b - 1 - 1)%Z
    with ((Zdigits2 a - 1) + (Zdigits2 b - 1))%Z by lia.
  rewrite Z.pow_add_r by lia.
  assert (0 < 2 ^ (Zdigits2 a - 1))%Z by (apply Z.pow_pos_nonneg; lia).
  assert (0 < 2 ^ (Zdigits2 b - 1))%Z by (apply Z.pow_pos_nonneg; lia).
  nia.
Qed.


Lemma Zdigits2_div (a b : Z) :
  (0 < a)%Z → (0 < b)%Z → (Zdigits2 a - Zdigits2 b ≤ Zdigits2 (a / b))%Z.
Proof.
  intros Ha Hb.
  destruct (Zdigits2_bounds a Ha) as [Hla _]. destruct (Zdigits2_bounds b Hb) as [_ Hhb].
  pose proof (Zdigits2_nonneg (a / b)) as Hq.
  destruct (Z.le_gt_cases (Zdigits2 a - Zdigits2 b) 0) as [|Hpos]; [lia |].
  assert (0 ≤ Zdigits2 b)%Z by apply Zdigits2_nonneg.
  assert (2 ^ (Zdigits2 a - Zdigits2 b - 1) ≤ a / b)%Z as Hlow.
  { apply Z.div_le_lower_bound; [lia |].
    eapply Z.le_trans; [| exact Hla].
    replace (Zdigits2 a - 1)%Z with (Zdigits2 b + (Zdigits2 a - Zdigits2 b - 1))%Z by lia.
    rewrite Z.pow_add_r by lia.
    assert (0 < 2 ^ (Zdigits2 a - Zdigits2 b - 1))%Z by (apply Z.pow_pos_nonneg; lia).
    nia. }
  apply Zdigits2_ge; [done |].
  assert (0 < 2 ^ (Zdigits2 a - Zdigits2 b - 1))%Z by (apply Z.pow_pos_nonneg; lia).
  lia.
Qed.

(** The location computed from a remainder [k] of a division by [nb]. *)
Lemma new_location_spec (q nb k : Z) :
  (0 < nb)%Z → (0 ≤ k < nb)%Z →
  shr_record_of_loc q (new_location nb k) =
    {| shr_m := q; shr_r := (nb <=? 2 * k)%Z;
       shr_s := negb (k =? 0)%Z && negb (2 * k =? nb)%Z |}.
Proof.
  intros Hnb Hk. unfold new_location, new_location_even, new_location_odd.
  assert (Z.even nb = false → 2 * k ≠ nb)%Z as Hodd.
  { intros Hev <-. rewrite Z.even_mul in Hev. done. }
  destruct (Z.even nb) eqn:Hev; [clear Hodd | specialize (Hodd eq_refl)];
    destruct (Z.eq_dec k 0) as [Hk0 | Hk0];
    rewrite ?(proj2 (Z.eqb_eq k 0)), ?(proj2 (Z.eqb_neq k 0)) by done;
    [ | destruct (Z.lt_total (2 * k) nb) as [Hc | [Hc | Hc]]
      | | destruct (Z.lt_total (2 * k + 1) nb) as [Hc | [Hc | Hc]] ];
    rewrite ?(proj2 (Z.compare_lt_iff _ _)), ?(proj2 (Z.compare_eq_iff _ _)),
      ?(proj2 (Z.compare_gt_iff _ _)) by lia;
    rewrite ?(proj2 (Z.leb_le nb (2 * k))), ?(proj2 (Z.leb_gt nb (2 * k))),
      ?(proj2 (Z.eqb_eq (2 * k) nb)), ?(proj2 (Z.eqb_neq (2 * k) nb)) by lia;
    reflexivity.
Qed.

(** The quotient and remainder of the mantissas locate the exact
    quotient. *)
Lemma div_located (q r my e' : Z) (t : Q) :
  0 < my → 0 ≤ r < my → 0 ≤ q →
  (t * inject_Z my == inject_Z (my * q + r) * bpow e')%Q →
  located (shr_record_of_loc q (new_location my r)) e' t.
Proof.
  intros Hmy Hr Hq Ht. rewrite new_location_spec by done.
  unfold located. cbn [shr_m shr_r shr_s].
  pose proof (bpow_pred e') as Hu. pose proof (bpow_pos (e' - 1)) as Hu0.
  set (u := bpow (e' - 1)) in *. set (v := bpow e') in *.
  revert Ht. push_inject.
  set (Y := inject_Z my). set (R := inject_Z r). set (a := inject_Z q). intros Ht.
  rewrite Hu in Ht. clear Hu. clearbody u. clear v.
  assert (0 < Y)%Q as HY by (subst Y; change 0%Q with (inject_Z 0); rewrite <- Zlt_Qlt; lia).
  assert (0 <= R)%Q as HR0 by (subst R; change 0%Q with (inject_Z 0); rewrite <- Zle_Qle; lia).
  assert (R < Y)%Q as HRY by (subst R Y; rewrite <- Zlt_Qlt; lia).
  assert (∀ A : Q, (A * Y <= t * Y)%Q → (A <= t)%Q) as Hle
    by (intros A HA; by apply (Qmult_le_r _ _ Y)).
  assert (∀ A : Q, (t * Y < A * Y)%Q → (t < A)%Q) as Hlt
    by (intros A HA; by apply (Qmult_lt_r _ _ Y)).
  assert (∀ A : Q, (t * Y == A * Y)%Q ↔ (t == A)%Q) as Heq.
  { intros A. split; [| by intros ->].
    intros HA. apply (Qmult_inj_r _ _ Y); [lra | done]. }
  destruct (Z.leb_spec my (2 * r)) as [Hc | Hc].
  - assert (Y <= 2 * R)%Q as HYR.
    { subst R Y. change 2%Q with (inject_Z 2). rewrite <- inject_Z_mult, <- Zle_Qle. lia. }
    assert (r ≠ 0) as Hr0 by lia.
    rewrite (proj2 (Z.eqb_neq r 0)) by done. cbn [negb andb].
    change (inject_Z (if true then 1 else 0)) with 1%Q. push_inject.
    pose proof (Qmult_le_0_compat u (2 * R - Y) ltac:(lra) ltac:(lra)) as Hp.
    split; [apply Hle; nra |]. split; [apply Hlt; nra |].
    destruct (Z.eqb_spec (2 * r) my) as [He | He]; cbn [negb].
    + assert (Y == 2 * R)%Q as HYR'.
      { subst R Y. change 2%Q with (inject_Z 2). rewrite <- inject_Z_mult, <- He. reflexivity. }
      split; [intros _ | done]. apply Heq. nra.
    + assert (¬ (Y == 2 * R)%Q) as HYR'.
      { subst R Y. change 2%Q with (inject_Z 2). rewrite <- inject_Z_mult.
        rewrite inject_Z_injective. lia. }
      split; [done |]. intros HA. apply Heq in HA. exfalso. apply HYR'. nra.
  - assert (2 * R < Y)%Q as HYR.
    { subst R Y. change 2%Q with (inject_Z 2). rewrite <- inject_Z_mult, <- Zlt_Qlt. lia. }
    rewrite (proj2 (Z.eqb_neq (2 * r) my)) by lia. rewrite andb_true_r.
    change (inject_Z (if false then 1 else 0)) with 0%Q. push_inject.
    pose proof (Qmult_lt_0_compat u (Y - 2 * R) ltac:(lra) ltac:(lra)) as Hp.
    pose proof (Qmult_le_0_compat u R ltac:(lra) ltac:(lra)) as Hp'.
    split; [apply Hle; nra |]. split; [apply Hlt; nra |].
    destruct (Z.eqb_spec r 0) as [He | He]; cbn [negb].
    + assert (R == 0)%Q as HR by (subst R; by rewrite He).
      split; [intros _ | done]. apply Heq. nra.
    + assert (¬ (R == 0)%Q) as HR.
      { subst R. change 0%Q with (inject_Z 0). rewrite inject_Z_injective. lia. }
      split; [done |]. intros HA. apply Heq in HA. exfalso. apply HR. nra.
Qed.

Section Rounding.
Variables prec emax : Z.
Hypothesis Hprec : (1 < prec)%Z.
Hypothesis Hemax : (prec < emax)%Z.

Local Abbreviation fexp := (SpecFloat.fexp prec emax).
Local Abbreviation emin := (SpecFloat.emin prec emax).

Lemma fexp_mono (a b : Z) : (a ≤ b)%Z → (fexp a ≤ fexp b)%Z.
Proof. unfold SpecFloat.fexp. lia. Qed.

Lemma fexp_ge_emin (a : Z) : (emin ≤ fexp a)%Z.
Proof. unfold SpecFloat.fexp. lia. Qed.

(** The second shift of [binary_round_aux]: a mantissa below [2^prec] at
    an exponent not below [emin] is left alone, and [2^prec] becomes
    [2^(prec-1)] one exponent up. *)
Lemma shr_fexp_after_round (m e : Z) :
  (0 ≤ m ≤ 2 ^ prec)%Z → (emin ≤ e)%Z →
  ∃ m' e', shr_fexp prec emax m e loc_Exact = ({| shr_m := m'; shr_r := false; shr_s := false |}, e')
    ∧ (inject_Z m' * bpow e' == inject_Z m * bpow e)%Q
    ∧ (0 ≤ m' < 2 ^ prec)%Z ∧ (e ≤ e' ≤ e + 1)%Z
    ∧ (m' = 0%Z ↔ m = 0%Z)
    ∧ ((2 ^ (prec - 1) ≤ m)%Z → (2 ^ (prec - 1) ≤ m')%Z)
    ∧ (e' = e ∨ m' = 2 ^ (prec - 1))%Z.
Proof.
  intros [Hm0 Hm] He. unfold shr_fexp.
  destruct (Z.eq_dec m (2 ^ prec)) as [-> | Hne].
  - assert (Zdigits2 (2 ^ prec) = prec + 1)%Z as Hd.
    { apply Z.le_antisymm.
      - apply Zdigits2_le; [lia |]. split; [lia |].
        apply Z.pow_lt_mono_r; lia.
      - apply Zdigits2_ge; [| lia].
        replace (prec + 1 - 1)%Z with prec by lia. lia. }
    rewrite Hd.
    replace (fexp (prec + 1 + e) - e)%Z with 1%Z by (unfold SpecFloat.fexp, SpecFloat.emin in *; lia).
    cbn [shr shr_record_of_loc SpecFloat.iter_pos].
    rewrite shr_1_spec by (simpl; lia). cbn [shr_m shr_r shr_s].
    exists (2 ^ (prec - 1))%Z, (e + 1)%Z.
    assert (2 ^ prec = 2 * 2 ^ (prec - 1))%Z as Hp.
    { rewrite <- Z.pow_succ_r by lia. f_equal. lia. }
    assert (2 ^ prec / 2 = 2 ^ (prec - 1))%Z as Hdiv.
    { rewrite Hp. rewrite Z.mul_comm. apply Z.div_mul. lia. }
    assert (Z.odd (2 ^ prec) = false) as Hodd.
    { rewrite Hp. apply Z.odd_mul. }
    rewrite Hdiv, Hodd. split; [reflexivity |].
    assert (0 < 2 ^ (prec - 1))%Z by (apply Z.pow_pos_nonneg; lia).
    split_and!; try lia.
    rewrite bpow_succ, Hp. push_inject. ring.
  - assert (Zdigits2 m ≤ prec)%Z as Hd by (apply Zdigits2_le; lia).
    pose proof (Zdigits2_nonneg m) as Hd0.
    assert (fexp (Zdigits2 m + e) - e ≤ 0)%Z as Hn
      by (unfold SpecFloat.fexp, SpecFloat.emin in *; lia).
    exists m, e.
    assert (shr (shr_record_of_loc m loc_Exact) e (fexp (Zdigits2 m + e) - e)
            = (shr_record_of_loc m loc_Exact, e)) as ->.
    { destruct (fexp (Zdigits2 m + e) - e)%Z; [done | lia | done]. }
    split; [reflexivity |]. split_and!; try done; lia.
Qed.

Lemma SF2Q_finite (sx : bool) (p : positive) (e : Z) :
  (SF2Q (S754_finite sx p e)
   == (if sx then - (inject_Z (Z.pos p) * bpow e) else inject_Z (Z.pos p) * bpow e))%Q.
Proof.
  unfold SF2Q, bpow. destruct sx; [| reflexivity].
  change (Z.neg p) with (- Z.pos p). rewrite inject_Z_opp. ring.
Qed.

(** The core of every operation.  A located number given at an exponent not
    above the one the format assigns to it is rounded either to infinity,
    when that exponent is beyond the format, or to a number of the format
    within half a unit in the last place. *)
Lemma binary_round_aux_cases (sx : bool) (m e : Z) (l : location) (t : Q) :
  0 ≤ m →
  located (shr_record_of_loc m l) e t →
  e ≤ fexp (Zdigits2 m + e) →
  (binary_round_aux prec emax sx m e l = S754_infinity sx
   ∧ emax - prec ≤ fexp (Zdigits2 m + e))
  ∨ (finite_valid prec emax (binary_round_aux prec emax sx m e l)
     ∧ (Qabs (SF2Q (binary_round_aux prec emax sx m e l) - (if sx then - t else t))
          <= bpow (fexp (Zdigits2 m + e) - 1))%Q).
Proof.
  intros Hm Hl Hpre. unfold binary_round_aux, shr_fexp.
  set (d := Zdigits2 m) in *. set (n := fexp (d + e) - e).
  assert (0 ≤ n) as Hn by (subst n; lia).
  pose proof (Zdigits2_nonneg m) as Hd0. fold d in Hd0.
  destruct (located_shr (shr_record_of_loc m l) e n t) as (E1 & M1 & L1 & D1 & _);
    [by rewrite shr_m_of_loc | done |].
  destruct (shr (shr_record_of_loc m l) e n) as [mrs' e'] eqn:Hshr.
  cbn [fst snd] in *. rewrite Z.max_l in * by lia. rewrite shr_m_of_loc in D1.
  rewrite <- E1 in L1.
  assert (e' = fexp (d + e)) as He' by (subst n; lia).
  (* the truncated mantissa has at most [prec] digits *)
  assert (shr_m mrs' < 2 ^ prec) as Hm'.
  { rewrite D1. apply Z.div_lt_upper_bound; [apply Z.pow_pos_nonneg; lia |].
    rewrite <- Z.pow_add_r by lia.
    destruct (Z.eq_dec m 0) as [-> | Hne]; [apply Z.pow_pos_nonneg; lia |].
    destruct (Zdigits2_bounds m) as [_ Hhi]; [lia |]. fold d in Hhi.
    eapply Z.lt_le_trans; [exact Hhi |]. apply Z.pow_le_mono_r; [lia |].
    subst n. unfold SpecFloat.fexp. lia. }
  assert (m = 0 → e' = emin) as Hm0.
  { intros ->. subst d n. simpl in *. unfold SpecFloat.fexp in *. lia. }
  destruct (round_nearest_even_located mrs' e' t L1) as (Hm'' & Herr & _).
  set (m'' := round_nearest_even (shr_m mrs') (loc_of_shr_record mrs')) in *.
  destruct (shr_fexp_after_round m'' e') as
    (m3 & e3 & Heq & Hval & Hm3 & He3 & Hz3 & Hn3 & Hc3);
    [lia | rewrite He'; apply fexp_ge_emin |].
  unfold shr_fexp in Heq. rewrite Heq. cbn [shr_m]. rewrite <- He'.
  destruct m3 as [|p|p]; [| | lia].
  - (* the result is zero *)
    right. split; [done |].
    assert (m'' = 0) as Hz by (by apply Hz3).
    rewrite Hz in Herr. apply Qabs_Qle_condition in Herr.
    apply Qabs_Qle_condition.
    cbn [SF2Q]. revert Herr. push_inject. destruct sx; intros; split; lra.
  - destruct (e3 <=? emax - prec) eqn:Hle.
    + (* the result is a finite number *)
      right. apply Z.leb_le in Hle as Hle'. split.
      * split; [done |]. cbn [valid_binary]. unfold bounded, canonical_mantissa.
        rewrite Hle, andb_true_r. apply Z.eqb_eq.
        change (Z.pos (digits2_pos p)) with (Zdigits2 (Z.pos p)).
        assert (Zdigits2 (Z.pos p) ≤ prec) as Hdp by (apply Zdigits2_le; lia).
        destruct Hc3 as [-> | Hp].
        -- (* no carry: the exponent is the canonical one *)
           destruct (Z.eq_dec e' emin) as [Hemin | Hnemin];
             [unfold SpecFloat.fexp; lia |].
           assert (m ≠ 0) as Hne by (intros Hz; apply Hnemin; auto).
           assert (e' = d + e - prec) as He'' by (unfold SpecFloat.fexp in *; lia).
           assert (2 ^ (prec - 1) ≤ shr_m mrs').
           { rewrite D1. apply Z.div_le_lower_bound; [apply Z.pow_pos_nonneg; lia |].
             rewrite <- Z.pow_add_r by lia.
             destruct (Zdigits2_bounds m) as [Hlo _]; [lia |]. fold d in Hlo.
             eapply Z.le_trans; [| exact Hlo]. apply Z.pow_le_mono_r; lia. }
           assert (prec ≤ Zdigits2 (Z.pos p)).
           { apply Zdigits2_ge; [| lia]. apply Hn3. lia. }
           unfold SpecFloat.fexp in *. lia.
        -- assert (Zdigits2 (Z.pos p) = prec) as Hdp'.
           { apply Z.le_antisymm; [done |]. apply Zdigits2_ge; lia. }
           rewrite Hdp'. pose proof (fexp_ge_emin (d + e)).
           unfold SpecFloat.fexp in *. lia.
      * pose proof (SF2Q_finite sx p e3) as Hv.
        apply Qabs_Qle_condition in Herr. apply Qabs_Qle_condition.
        destruct sx; split; lra.
    + (* the exponent is beyond the format *)
      left. apply Z.leb_gt in Hle. split; [reflexivity | lia].
Qed.

(** Below [2^k], with [k] within the format, the result is a number of the
    format within half a unit in the last place of [2^k]. *)
Lemma binary_round_aux_correct (sx : bool) (m e k : Z) (l : location) (t : Q) :
  0 ≤ m →
  located (shr_record_of_loc m l) e t →
  e ≤ fexp (Zdigits2 m + e) →
  (t < bpow k)%Q → k < emax →
  finite_valid prec emax (binary_round_aux prec emax sx m e l)
  ∧ (Qabs (SF2Q (binary_round_aux prec emax sx m e l) - (if sx then - t else t))
       <= bpow (fexp k - 1))%Q.
Proof.
  intros Hm Hl Hpre Ht Hk.
  assert (fexp (Zdigits2 m + e) ≤ fexp k) as He'k.
  { destruct (Z.eq_dec m 0) as [-> | Hne].
    - simpl in *. unfold SpecFloat.fexp in *. lia.
    - apply fexp_mono.
      assert (inject_Z (shr_m (shr_record_of_loc m l)) * bpow e <= t)%Q as Hlow
        by (apply located_lower; [by rewrite shr_m_of_loc | done]).
      rewrite shr_m_of_loc in Hlow.
      pose proof (mantissa_lower m e ltac:(lia)) as Hml.
      assert (bpow (Zdigits2 m - 1 + e) < bpow k)%Q as Hlt by lra.
      apply bpow_lt_inv in Hlt. lia. }
  assert (fexp k ≤ emax - prec - 1) as Hfk
    by (unfold SpecFloat.fexp, SpecFloat.emin; lia).
  destruct (binary_round_aux_cases sx m e l t Hm Hl Hpre) as [[_ Hov] | [Hfv Herr]];
    [lia |].
  split; [done |]. eapply Qle_trans; [exact Herr |]. apply bpow_le. lia.
Qed.

(** [binary_round]: a mantissa at any exponent is first brought down to the
    exponent of the format, then rounded. *)
Lemma binary_round_correct (sx : bool) (p : positive) (e k : Z) :
  (inject_Z (Z.pos p) * bpow e < bpow k)%Q → k < emax →
  finite_valid prec emax (binary_round prec emax sx p e)
  ∧ (Qabs (SF2Q (binary_round prec emax sx p e)
           - (if sx then - (inject_Z (Z.pos p) * bpow e) else inject_Z (Z.pos p) * bpow e))
       <= bpow (fexp k - 1))%Q.
Proof.
  intros Ht Hk. unfold binary_round.
  destruct (shl_align_spec p e (fexp (Z.pos (digits2_pos p) + e))) as [He Hm].
  destruct (shl_align p e (fexp (Z.pos (digits2_pos p) + e))) as [mz ez].
  cbn [fst snd] in *.
  change (Z.pos (digits2_pos p)) with (Zdigits2 (Z.pos p)) in *.
  apply binary_round_aux_correct; try done.
  - apply located_exact. rewrite Hm. push_inject.
    rewrite <- (bpow_Z (e - Z.min e (fexp (Zdigits2 (Z.pos p) + e)))) by lia.
    rewrite <- Qmult_assoc, <- bpow_add. rewrite He.
    by replace (e - Z.min e (fexp (Zdigits2 (Z.pos p) + e))
                + Z.min e (fexp (Zdigits2 (Z.pos p) + e))) with e by lia.
  - rewrite Hm, Zdigits2_shift by lia. rewrite He.
    replace (Zdigits2 (Z.pos p) + (e - Z.min e (fexp (Zdigits2 (Z.pos p) + e)))
             + Z.min e (fexp (Zdigits2 (Z.pos p) + e))) with (Zdigits2 (Z.pos p) + e) by lia.
    lia.
Qed.

Lemma binary_normalize_correct (z e k : Z) (szero : bool) :
  (Qabs (inject_Z z * bpow e) < bpow k)%Q → k < emax →
  finite_valid prec emax (binary_normalize prec emax z e szero)
  ∧ (Qabs (SF2Q (binary_normalize prec emax z e szero) - inject_Z z * bpow e)
       <= bpow (fexp k - 1))%Q.
Proof.
  intros Ht Hk. pose proof (bpow_pos e) as He. pose proof (bpow_pos (fexp k - 1)) as Hf.
  destruct z as [|p|p]; cbn [binary_normalize].
  - split; [done |]. cbn [SF2Q]. push_inject.
    apply Qabs_Qle_condition. split; lra.
  - apply (binary_round_correct false); [| done].
    apply Qabs_Qlt_condition in Ht. lra.
  - assert (inject_Z (Z.neg p) == - inject_Z (Z.pos p))%Q as Hneg.
    { change (Z.neg p) with (- Z.pos p). by rewrite inject_Z_opp. }
    destruct (binary_round_correct true p e k) as [Hfv Herr]; [| done |].
    + apply Qabs_Qlt_condition in Ht. nra.
    + split; [done |]. apply Qabs_Qle_condition in Herr.
      apply Qabs_Qle_condition. split; nra.
Qed.

Lemma cond_Zopp_aligned (s : bool) (m : positive) (e ez : Z) :
  ez ≤ e →
  (inject_Z (cond_Zopp s (Z.pos (shl_align m e ez).1)) * bpow ez
   == SF2Q (S754_finite s m e))%Q.
Proof.
  intros Hez. destruct (shl_align_spec m e ez) as [_ Hm]. rewrite Hm.
  rewrite Z.min_r by lia. rewrite SF2Q_finite.
  assert (inject_Z (Z.pos m * 2 ^ (e - ez)) * bpow ez == inject_Z (Z.pos m) * bpow e)%Q as H.
  { push_inject. rewrite <- (bpow_Z (e - ez)) by lia.
    rewrite <- Qmult_assoc, <- bpow_add. by replace (e - ez + ez) with e by lia. }
  destruct s; cbn [cond_Zopp]; [| done].
  rewrite inject_Z_opp. rewrite <- H. ring.
Qed.

Lemma finite_valid_zero (s : bool) : finite_valid prec emax (S754_zero s).
Proof. done. Qed.

Lemma bpow_nonneg (e : Z) : (0 <= bpow e)%Q.
Proof. apply Qlt_le_weak, bpow_pos. Qed.

Lemma Qabs_zero_le (x : Q) (e : Z) : (x == 0)%Q → (Qabs x <= bpow e)%Q.
Proof.
  intros Hx. apply Qabs_Qle_condition. pose proof (bpow_pos e). split; lra.
Qed.

(** Addition of two numbers of the format: the result is in the format and
    within half a unit in the last place of the exact sum. *)
Lemma SFadd_correct (x y : spec_float) (k : Z) :
  finite_valid prec emax x → finite_valid prec emax y →
  (Qabs (SF2Q x + SF2Q y) < bpow k)%Q → k < emax →
  finite_valid prec emax (SFadd prec emax x y)
  ∧ (Qabs (SF2Q (SFadd prec emax x y) - (SF2Q x + SF2Q y)) <= bpow (fexp k - 1))%Q.
Proof.
  intros [Hfx Hvx] [Hfy Hvy] Ht Hk.
  destruct x as [sx | | | sx mx ex], y as [sy | | | sy my ey]; try done.
  - split; [by destruct sx, sy |].
    apply Qabs_zero_le. destruct sx, sy; cbn [SFadd SF2Q]; ring.
  - split; [done |]. apply Qabs_zero_le. cbn [SFadd]. cbn [SF2Q]. ring.
  - split; [done |]. apply Qabs_zero_le. cbn [SFadd]. cbn [SF2Q]. ring.
  - cbn [SFadd].
    pose proof (cond_Zopp_aligned sx mx ex (Z.min ex ey) ltac:(lia)) as Hx.
    pose proof (cond_Zopp_aligned sy my ey (Z.min ex ey) ltac:(lia)) as Hy.
    set (zx := cond_Zopp sx _) in *. set (zy := cond_Zopp sy _) in *.
    assert (inject_Z (zx + zy) * bpow (Z.min ex ey)
            == SF2Q (S754_finite sx mx ex) + SF2Q (S754_finite sy my ey))%Q as Hz.
    { rewrite inject_Z_plus, <- Hx, <- Hy. ring. }
    destruct (binary_normalize_correct (zx + zy) (Z.min ex ey) k false) as [Hfv Herr];
      [| done |].
    + apply Qabs_Qlt_condition in Ht. apply Qabs_Qlt_condition. lra.
    + split; [done |]. apply Qabs_Qle_condition in Herr.
      apply Qabs_Qle_condition. lra.
Qed.

Lemma SFsub_correct (x y : spec_float) (k : Z) :
  finite_valid prec emax x → finite_valid prec emax y →
  (Qabs (SF2Q x - SF2Q y) < bpow k)%Q → k < emax →
  finite_valid prec emax (SFsub prec emax x y)
  ∧ (Qabs (SF2Q (SFsub prec emax x y) - (SF2Q x - SF2Q y)) <= bpow (fexp k - 1))%Q.
Proof.
  intros [Hfx Hvx] [Hfy Hvy] Ht Hk.
  destruct x as [sx | | | sx mx ex], y as [sy | | | sy my ey]; try done.
  - split; [by destruct sx, sy |].
    apply Qabs_zero_le. destruct sx, sy; cbn [SFsub SF2Q]; ring.
  - split; [done |]. apply Qabs_zero_le. cbn [SFsub].
    rewrite !SF2Q_finite. cbn [SF2Q]. destruct sy; cbn [negb]; ring.
  - split; [done |]. apply Qabs_zero_le. cbn [SFsub]. cbn [SF2Q]. ring.
  - cbn [SFsub].
    pose proof (cond_Zopp_aligned sx mx ex (Z.min ex ey) ltac:(lia)) as Hx.
    pose proof (cond_Zopp_aligned sy my ey (Z.min ex ey) ltac:(lia)) as Hy.
    set (zx := cond_Zopp sx _) in *. set (zy := cond_Zopp sy _) in *.
    assert (inject_Z (zx - zy) * bpow (Z.min ex ey)
            == SF2Q (S754_finite sx mx ex) - SF2Q (S754_finite sy my ey))%Q as Hz.
    { unfold Z.sub. rewrite inject_Z_plus, inject_Z_opp, <- Hx, <- Hy. ring. }
    destruct (binary_normalize_correct (zx - zy) (Z.min ex ey) k false) as [Hfv Herr];
      [| done |].
    + apply Qabs_Qlt_condition in Ht. apply Qabs_Qlt_condition. lra.
    + split; [done |]. apply Qabs_Qle_condition in Herr.
      apply Qabs_Qle_condition. lra.
Qed.

Lemma valid_finite_inv (s : bool) (m : positive) (e : Z) :
  valid_binary prec emax (S754_finite s m e) = true →
  fexp (Zdigits2 (Z.pos m) + e) = e ∧ e ≤ emax - prec.
Proof.
  cbn [valid_binary]. unfold bounded, canonical_mantissa.
  intros H. apply andb_true_iff in H as [H1 H2].
  apply Z.eqb_eq in H1. apply Z.leb_le in H2. done.
Qed.

(** Multiplication of two numbers of the format. *)
Lemma SFmul_correct (x y : spec_float) (k : Z) :
  finite_valid prec emax x → finite_valid prec emax y →
  (Qabs (SF2Q x * SF2Q y) < bpow k)%Q → k < emax →
  finite_valid prec emax (SFmul prec emax x y)
  ∧ (Qabs (SF2Q (SFmul prec emax x y) - SF2Q x * SF2Q y) <= bpow (fexp k - 1))%Q.
Proof.
  intros [Hfx Hvx] [Hfy Hvy] Ht Hk.
  destruct x as [sx | | | sx mx ex], y as [sy | | | sy my ey]; try done;
    try (split; [done |]; apply Qabs_zero_le; cbn [SFmul]; cbn [SF2Q]; ring).
  cbn [SFmul].
  apply valid_finite_inv in Hvx as [Hcx Hbx]. apply valid_finite_inv in Hvy as [Hcy Hby].
  pose proof (Zdigits2_mul (Z.pos mx) (Z.pos my) ltac:(lia) ltac:(lia)) as Hd.
  change (Z.pos mx * Z.pos my) with (Z.pos (mx * my)) in Hd.
  pose proof (SF2Q_finite sx mx ex) as Hx. pose proof (SF2Q_finite sy my ey) as Hy.
  assert (inject_Z (Z.pos (mx * my)) * bpow (ex + ey)
          == (inject_Z (Z.pos mx) * bpow ex) * (inject_Z (Z.pos my) * bpow ey))%Q as Hprod.
  { rewrite Pos2Z.inj_mul, inject_Z_mult, bpow_add. ring. }
  set (ax := (inject_Z (Z.pos mx) * bpow ex)%Q) in *.
  set (ay := (inject_Z (Z.pos my) * bpow ey)%Q) in *.
  assert (0 < ax)%Q as Hax.
  { subst ax. apply Qmult_lt_0_compat; [| apply bpow_pos].
    change 0%Q with (inject_Z 0). rewrite <- Zlt_Qlt. lia. }
  assert (0 < ay)%Q as Hay.
  { subst ay. apply Qmult_lt_0_compat; [| apply bpow_pos].
    change 0%Q with (inject_Z 0). rewrite <- Zlt_Qlt. lia. }
  assert (0 < ax * ay)%Q as Hxy by (by apply Qmult_lt_0_compat).
  assert (SF2Q (S754_finite sx mx ex) * SF2Q (S754_finite sy my ey)
          == (if xorb sx sy then - (ax * ay) else ax * ay))%Q as Hsign.
  { rewrite Hx, Hy. destruct sx, sy; cbn [xorb]; ring. }
  destruct (binary_round_aux_correct (xorb sx sy) (Z.pos (mx * my)) (ex + ey) k
              loc_Exact (ax * ay)) as [Hfv Herr]; try done.
  - by apply located_exact.
  - pose proof (Zdigits2_nonneg (Z.pos mx)). pose proof (Zdigits2_nonneg (Z.pos my)).
    assert (1 ≤ Zdigits2 (Z.pos mx)) by (simpl; lia).
    assert (1 ≤ Zdigits2 (Z.pos my)) by (simpl; lia).
    unfold SpecFloat.fexp, SpecFloat.emin in *. lia.
  - rewrite Hsign in Ht. apply Qabs_Qlt_condition in Ht.
    destruct (xorb sx sy); lra.
  - split; [done |]. rewrite Hsign. exact Herr.
Qed.

Lemma inject_Z_pos (p : positive) : (0 < inject_Z (Z.pos p))%Q.
Proof. change 0%Q with (inject_Z 0). rewrite <- Zlt_Qlt. lia. Qed.

(** Division of two numbers of the format, the divisor not zero. *)
Lemma SFdiv_correct (x y : spec_float) (k : Z) :
  finite_valid prec emax x → finite_valid prec emax y →
  ¬ (SF2Q y == 0)%Q →
  (Qabs (SF2Q x / SF2Q y) < bpow k)%Q → k < emax →
  finite_valid prec emax (SFdiv prec emax x y)
  ∧ (Qabs (SF2Q (SFdiv prec emax x y) - SF2Q x / SF2Q y) <= bpow (fexp k - 1))%Q.
Proof.
  intros [Hfx Hvx] [Hfy Hvy] Hy0 Ht Hk.
  destruct x as [sx | | | sx mx ex], y as [sy | | | sy my ey]; try done;
    try (exfalso; apply Hy0; reflexivity).
  { split; [done |]. apply Qabs_zero_le. cbn [SFdiv]. cbn [SF2Q].
    unfold Qdiv. ring. }
  cbn [SFdiv]. unfold SFdiv_core_binary.
  set (d1 := Zdigits2 (Z.pos mx)). set (d2 := Zdigits2 (Z.pos my)).
  set (e' := Z.min (fexp (d1 + ex - (d2 + ey))) (ex - ey)).
  set (s := ex - ey - e').
  assert (0 ≤ s) as Hs by (subst s e'; lia).
  set (m' := match s with Z.pos _ => Z.shiftl (Z.pos mx) s | 0 => Z.pos mx | Z.neg _ => 0 end).
  assert (m' = Z.pos mx * 2 ^ s) as Hm'.
  { subst m'. destruct s as [|ps|ps]; [simpl; lia | | lia].
    apply Z.shiftl_mul_pow2. lia. }
  assert (0 < 2 ^ s) as H2s by (apply Z.pow_pos_nonneg; lia).
  assert (0 < m') as Hm'pos by (rewrite Hm'; lia).
  pose proof (Z_div_mod m' (Z.pos my) ltac:(lia)) as Hdm.
  assert (m' / Z.pos my = (Z.div_eucl m' (Z.pos my)).1) as Hq by reflexivity.
  destruct (Z.div_eucl m' (Z.pos my)) as [q r]. cbn [fst] in Hq.
  destruct Hdm as [Hdiv Hr].
  assert (0 ≤ q) as Hq0 by (rewrite <- Hq; apply Z.div_pos; lia).
  pose proof (SF2Q_finite sx mx ex) as Hx. pose proof (SF2Q_finite sy my ey) as Hy.
  pose proof (inject_Z_pos mx) as Hmx. pose proof (inject_Z_pos my) as Hmy.
  pose proof (bpow_pos ex) as Hbx. pose proof (bpow_pos ey) as Hby.
  set (ax := (inject_Z (Z.pos mx) * bpow ex)%Q) in *.
  set (ay := (inject_Z (Z.pos my) * bpow ey)%Q) in *.
  assert (0 < ax)%Q as Hax by (by apply Qmult_lt_0_compat).
  assert (0 < ay)%Q as Hay by (by apply Qmult_lt_0_compat).
  assert (0 < ax / ay)%Q as Hxy.
  { apply Qlt_shift_div_l; [done |]. lra. }
  assert (SF2Q (S754_finite sx mx ex) / SF2Q (S754_finite sy my ey)
          == (if xorb sx sy then - (ax / ay) else ax / ay))%Q as Hsign.
  { rewrite Hx, Hy. destruct sx, sy; cbn [xorb]; field; lra. }
  destruct (binary_round_aux_correct (xorb sx sy) q e' k (new_location (Z.pos my) r)
              (ax / ay)) as [Hfv Herr]; try done.
  - apply div_located; try done; try lia.
    rewrite <- Hdiv, Hm'. push_inject.
    rewrite <- (bpow_Z s) by done.
    assert (bpow ex == bpow s * bpow e' * bpow ey)%Q as Hex.
    { rewrite <- !bpow_add. by replace (s + e' + ey) with ex by (subst s; lia). }
    subst ax ay. rewrite Hex. field. lra.
  - pose proof (Zdigits2_div m' (Z.pos my) Hm'pos ltac:(lia)) as Hd.
    rewrite Hq in Hd. rewrite Hm', Zdigits2_shift in Hd by lia.
    fold d1 d2 in Hd.
    assert (fexp (d1 + ex - (d2 + ey)) ≤ fexp (Zdigits2 q + e')) as Hmono.
    { apply fexp_mono. subst s. lia. }
    subst e'. lia.
  - rewrite Hsign in Ht. apply Qabs_Qlt_condition in Ht.
    destruct (xorb sx sy); lra.
  - split; [done |]. rewrite Hsign. exact Herr.
Qed.

(** Among the numbers of the format a larger exponent means a larger
    magnitude. *)
Lemma canonical_exponent_lt (m1 m2 : positive) (e1 e2 : Z) :
  fexp (Zdigits2 (Z.pos m1) + e1) = e1 →
  fexp (Zdigits2 (Z.pos m2) + e2) = e2 →
  e1 < e2 →
  (inject_Z (Z.pos m1) * bpow e1 < inject_Z (Z.pos m2) * bpow e2)%Q.
Proof.
  intros H1 H2 Hlt.
  pose proof (mantissa_upper (Z.pos m1) e1 ltac:(lia)) as Hup.
  pose proof (mantissa_lower (Z.pos m2) e2 ltac:(lia)) as Hlo.
  assert (bpow (Zdigits2 (Z.pos m1) + e1) <= bpow (Zdigits2 (Z.pos m2) - 1 + e2))%Q.
  { apply bpow_le. unfold SpecFloat.fexp, SpecFloat.emin in *. lia. }
  lra.
Qed.

Lemma Qcompare_scale (a b u : Q) :
  (0 < u)%Q → (a * u ?= b * u)%Q = (a ?= b)%Q.
Proof.
  intros Hu. destruct (Qcompare_spec a b) as [Heq | Hlt | Hgt].
  - apply (proj1 (Qeq_alt _ _)). by rewrite Heq.
  - apply (proj1 (Qlt_alt _ _)). by apply Qmult_lt_r.
  - apply (proj1 (Qgt_alt _ _)). by apply Qmult_lt_r.
Qed.

Lemma Qcompare_inject_pos (m1 m2 : positive) :
  (inject_Z (Z.pos m1) ?= inject_Z (Z.pos m2))%Q = (m1 ?= m2)%positive.
Proof.
  unfold Qcompare. simpl. by rewrite !Pos.mul_1_r.
Qed.

Lemma Qcompare_opp (a b : Q) : (- a ?= - b)%Q = CompOpp (a ?= b)%Q.
Proof.
  destruct (Qcompare_spec a b) as [Heq | Hlt | Hgt]; cbn [CompOpp].
  - apply (proj1 (Qeq_alt _ _)). by rewrite Heq.
  - apply (proj1 (Qgt_alt _ _)). lra.
  - apply (proj1 (Qlt_alt _ _)). lra.
Qed.

(** The comparison of two numbers of the format is the comparison of the
    rationals they stand for. *)
Lemma SFcompare_correct (x y : spec_float) :
  finite_valid prec emax x → finite_valid prec emax y →
  SFcompare x y = Some (SF2Q x ?= SF2Q y)%Q.
Proof.
  intros [Hfx Hvx] [Hfy Hvy].
  destruct x as [sx | | | sx mx ex], y as [sy | | | sy my ey]; try done.
  - cbn [SFcompare]. f_equal. pose proof (SF2Q_finite sy my ey) as Hy.
    pose proof (inject_Z_pos my). pose proof (bpow_pos ey).
    assert (0 < inject_Z (Z.pos my) * bpow ey)%Q by (by apply Qmult_lt_0_compat).
    symmetry. destruct sy; [apply (proj1 (Qgt_alt _ _)) | apply (proj1 (Qlt_alt _ _))]; cbn [SF2Q] in *; lra.
  - cbn [SFcompare]. f_equal. pose proof (SF2Q_finite sx mx ex) as Hx.
    pose proof (inject_Z_pos mx). pose proof (bpow_pos ex).
    assert (0 < inject_Z (Z.pos mx) * bpow ex)%Q by (by apply Qmult_lt_0_compat).
    symmetry. destruct sx; [apply (proj1 (Qlt_alt _ _)) | apply (proj1 (Qgt_alt _ _))]; cbn [SF2Q] in *; lra.
  - apply valid_finite_inv in Hvx as [Hcx _]. apply valid_finite_inv in Hvy as [Hcy _].
    pose proof (SF2Q_finite sx mx ex) as Hx. pose proof (SF2Q_finite sy my ey) as Hy.
    pose proof (inject_Z_pos mx). pose proof (bpow_pos ex).
    pose proof (inject_Z_pos my). pose proof (bpow_pos ey).
    assert (0 < inject_Z (Z.pos mx) * bpow ex)%Q as Hax by (by apply Qmult_lt_0_compat).
    assert (0 < inject_Z (Z.pos my) * bpow ey)%Q as Hay by (by apply Qmult_lt_0_compat).
    assert ((inject_Z (Z.pos mx) * bpow ex ?= inject_Z (Z.pos my) * bpow ey)%Q
            = match ex ?= ey with
              | Lt => Lt | Gt => Gt | Eq => Pos.compare_cont Eq mx my
              end) as Hpos.
    { destruct (Z.compare_spec ex ey) as [-> | Hlt | Hgt].
      - rewrite Qcompare_scale by done. apply Qcompare_inject_pos.
      - apply (proj1 (Qlt_alt _ _)). by apply canonical_exponent_lt.
      - apply (proj1 (Qgt_alt _ _)). by apply canonical_exponent_lt. }
    cbn [SFcompare]. f_equal. symmetry.
    destruct sx, sy.
    + rewrite Hx, Hy, Qcompare_opp, Hpos. by destruct (ex ?= ey).
    + apply (proj1 (Qlt_alt _ _)). lra.
    + apply (proj1 (Qgt_alt _ _)). lra.
    + by rewrite Hx, Hy, Hpos.
Qed.

Lemma SFltb_correct (x y : spec_float) :
  finite_valid prec emax x → finite_valid prec emax y →
  SFltb x y = true ↔ (SF2Q x < SF2Q y)%Q.
Proof.
  intros Hx Hy. unfold SFltb. rewrite (SFcompare_correct x y Hx Hy).
  rewrite Qlt_alt. destruct (SF2Q x ?= SF2Q y)%Q; split; congruence.
Qed.

Lemma SFleb_correct (x y : spec_float) :
  finite_valid prec emax x → finite_valid prec emax y →
  SFleb x y = true ↔ (SF2Q x <= SF2Q y)%Q.
Proof.
  intros Hx Hy. unfold SFleb. rewrite (SFcompare_correct x y Hx Hy).
  rewrite Qle_alt. destruct (SF2Q x ?= SF2Q y)%Q; split; congruence.
Qed.
End Rounding.

End FloatTheory.

(** * Values: the codec and the clamp *)

(** ** binary32 *)

Lemma F32_params : (1 < F32.prec)%Z ∧ (F32.prec < F32.emax)%Z.
Proof. unfold F32.prec, F32.emax. lia. Qed.

Lemma F32_sub_correct (x y : F32.t) (k : Z) :
  fv32 x → fv32 y → (Qabs (SF2Q x - SF2Q y) < bpow k)%Q → (k < 128)%Z →
  fv32 (F32.sub x y)
  ∧ (Qabs (SF2Q (F32.sub x y) - (SF2Q x - SF2Q y)) <= bpow (Z.max (k - 24) (-149) - 1))%Q.
Proof. apply SFsub_correct; apply F32_params. Qed.

Lemma F32_add_correct (x y : F32.t) (k : Z) :
  fv32 x → fv32 y → (Qabs (SF2Q x + SF2Q y) < bpow k)%Q → (k < 128)%Z →
  fv32 (F32.add x y)
  ∧ (Qabs (SF2Q (F32.add x y) - (SF2Q x + SF2Q y)) <= bpow (Z.max (k - 24) (-149) - 1))%Q.
Proof. apply SFadd_correct; apply F32_params. Qed.

Lemma F32_mul_correct (x y : F32.t) (k : Z) :
  fv32 x → fv32 y → (Qabs (SF2Q x * SF2Q y) < bpow k)%Q → (k < 128)%Z →
  fv32 (F32.mul x y)
  ∧ (Qabs (SF2Q (F32.mul x y) - SF2Q x * SF2Q y) <= bpow (Z.max (k - 24) (-149) - 1))%Q.
Proof. apply SFmul_correct; apply F32_params. Qed.

Lemma F32_div_correct (x y : F32.t) (k : Z) :
  fv32 x → fv32 y → ¬ (SF2Q y == 0)%Q →
  (Qabs (SF2Q x / SF2Q y) < bpow k)%Q → (k < 128)%Z →
  fv32 (F32.div x y)
  ∧ (Qabs (SF2Q (F32.div x y) - SF2Q x / SF2Q y) <= bpow (Z.max (k - 24) (-149) - 1))%Q.
Proof. apply SFdiv_correct; apply F32_params. Qed.

Lemma F32_leb_correct (x y : F32.t) :
  fv32 x → fv32 y → F32.leb x y = true ↔ (SF2Q x <= SF2Q y)%Q.
Proof. apply SFleb_correct; apply F32_params. Qed.

Lemma F32_ltb_correct (x y : F32.t) :
  fv32 x → fv32 y → F32.ltb x y = true ↔ (SF2Q x < SF2Q y)%Q.
Proof. apply SFltb_correct; apply F32_params. Qed.

Lemma in_unit_inv (x : F32.t) : in_unit x → fv32 x ∧ (0 <= SF2Q x <= 1)%Q.
Proof.
  intros (Hv & H0 & H1).
  assert (fv32 x) as Hx.
  { split; [| done]. destruct x as [| [] | |]; try done;
      vm_compute in H0, H1; congruence. }
  apply (F32_leb_correct F32.zero x) in H0; [| done | done].
  apply (F32_leb_correct x F32.one) in H1; [| done | done].
  assert (SF2Q F32.zero == 0)%Q as Hz by reflexivity.
  assert (SF2Q F32.one == 1)%Q as Ho by (vm_compute; reflexivity).
  split; [done |]. lra.
Qed.

(** The steps of the error analysis, for a channel with concrete mean and
    standard deviation. *)
Ltac power_facts :=
  assert (bpow 0 == 1)%Q by reflexivity;
  assert (bpow 1 == 2)%Q by reflexivity;
  assert (bpow 2 == 4)%Q by reflexivity;
  assert (bpow (-25) == 1 # 33554432)%Q by reflexivity;
  assert (bpow (-24) == 1 # 16777216)%Q by reflexivity;
  assert (bpow (-23) == 1 # 8388608)%Q by reflexivity.

Ltac roundtrip_channel x Mq Sq :=
  intros m s Hx HX; unfold roundtrip_elem;
  assert (fv32 m) as Hfm by done; assert (fv32 s) as Hfs by done;
  assert (SF2Q m == Mq)%Q as HM by reflexivity;
  assert (SF2Q s == Sq)%Q as HS by reflexivity;
  power_facts;
  destruct (F32_sub_correct x m 0 Hx Hfm) as [Hfa Ha];
    [apply Qabs_Qlt_condition; lra | lia |];
  change (Z.max (0 - 24) (-149) - 1)%Z with (-25)%Z in Ha;
  apply Qabs_Qle_condition in Ha;
  set (a := F32.sub x m) in *;
  set (qe := (SF2Q a / SF2Q s)%Q);
  assert (qe * Sq == SF2Q a)%Q as Hqe by (subst qe; rewrite HS; field);
  destruct (F32_div_correct a s 2 Hfa Hfs) as [Hfb Hb];
    [rewrite HS; discriminate | fold qe; apply Qabs_Qlt_condition; lra | lia |];
  change (Z.max (2 - 24) (-149) - 1)%Z with (-23)%Z in Hb; fold qe in Hb;
  apply Qabs_Qle_condition in Hb;
  set (b := F32.div a s) in *;
  assert (SF2Q b * SF2Q s == SF2Q b * Sq)%Q as Hbs by (by rewrite HS);
  destruct (F32_mul_correct b s 0 Hfb Hfs) as [Hfc Hc];
    [apply Qabs_Qlt_condition; lra | lia |];
  change (Z.max (0 - 24) (-149) - 1)%Z with (-25)%Z in Hc;
  apply Qabs_Qle_condition in Hc;
  set (c := F32.mul b s) in *;
  destruct (F32_add_correct c m 1 Hfc Hfm) as [Hfd Hd];
    [apply Qabs_Qlt_condition; lra | lia |];
  change (Z.max (1 - 24) (-149) - 1)%Z with (-24)%Z in Hd;
  apply Qabs_Qle_condition in Hd;
  split; [done |]; apply Qabs_Qle_condition; lra.

Lemma roundtrip_ch0 (x : F32.t) :
  let m := S754_finite false 16273900 (-25) in
  let s := S754_finite false 15367930 (-26) in
  fv32 x → (0 <= SF2Q x <= 1)%Q →
  fv32 (roundtrip_elem m s x)
  ∧ (Qabs (SF2Q (roundtrip_elem m s x) - SF2Q x) <= 3 # 16777216)%Q.
Proof. roundtrip_channel x (16273900 # 33554432)%Q (15367930 # 67108864)%Q. Qed.

Lemma roundtrip_ch1 (x : F32.t) :
  let m := S754_finite false 15300821 (-25) in
  let s := S754_finite false 15032386 (-26) in
  fv32 x → (0 <= SF2Q x <= 1)%Q →
  fv32 (roundtrip_elem m s x)
  ∧ (Qabs (SF2Q (roundtrip_elem m s x) - SF2Q x) <= 3 # 16777216)%Q.
Proof. roundtrip_channel x (15300821 # 33554432)%Q (15032386 # 67108864)%Q. Qed.

Lemma roundtrip_ch2 (x : F32.t) :
  let m := S754_finite false 13623099 (-25) in
  let s := S754_finite false 15099494 (-26) in
  fv32 x → (0 <= SF2Q x <= 1)%Q →
  fv32 (roundtrip_elem m s x)
  ∧ (Qabs (SF2Q (roundtrip_elem m s x) - SF2Q x) <= 3 # 16777216)%Q.
Proof. roundtrip_channel x (13623099 # 33554432)%Q (15099494 # 67108864)%Q. Qed.

(** ** The clamp *)

Lemma clamp_within (lo hi x : F32.t) :
  fv32 lo → fv32 hi → (SF2Q lo <= SF2Q hi)%Q → is_number x →
  fv32 (clamp lo hi x) ∧ within lo hi (clamp lo hi x).
Proof.
  intros Hlo Hhi Hle [Hv Hnan]. unfold clamp, within.
  assert (F32.leb lo lo = true) as Hll by (apply F32_leb_correct; [done | done | lra]).
  assert (F32.leb lo hi = true) as Hlh by (by apply F32_leb_correct).
  assert (F32.leb hi hi = true) as Hhh by (apply F32_leb_correct; [done | done | lra]).
  assert (F32.ltb hi lo = false) as Hhl.
  { apply not_true_is_false. intros H. apply F32_ltb_correct in H; [lra | done | done]. }
  destruct x as [sx | [] | | sx mx ex]; try done.
  - (* zero *)
    set (x := S754_zero sx) in *. assert (fv32 x) as Hx by done.
    destruct (F32.ltb x lo) eqn:H1.
    + rewrite Hhl. done.
    + assert (SF2Q lo <= SF2Q x)%Q as H1'.
      { apply Qnot_lt_le. intros H. apply F32_ltb_correct in H; [congruence | done | done]. }
      destruct (F32.ltb hi x) eqn:H2; [done |].
      assert (SF2Q x <= SF2Q hi)%Q as H2'.
      { apply Qnot_lt_le. intros H. apply F32_ltb_correct in H; [congruence | done | done]. }
      split; [done |]. split; by apply F32_leb_correct.
  - (* minus infinity *)
    assert (F32.ltb (S754_infinity true) lo = true) as ->.
    { destruct Hlo as [Hf _]. by destruct lo. }
    rewrite Hhl. done.
  - (* plus infinity *)
    assert (F32.ltb (S754_infinity false) lo = false) as ->.
    { destruct Hlo as [Hf _]. by destruct lo. }
    assert (F32.ltb hi (S754_infinity false) = true) as ->.
    { destruct Hhi as [Hf _]. by destruct hi. }
    done.
  - (* finite *)
    set (x := S754_finite sx mx ex) in *. assert (fv32 x) as Hx by done.
    destruct (F32.ltb x lo) eqn:H1.
    + rewrite Hhl. done.
    + assert (SF2Q lo <= SF2Q x)%Q as H1'.
      { apply Qnot_lt_le. intros H. apply F32_ltb_correct in H; [congruence | done | done]. }
      destruct (F32.ltb hi x) eqn:H2; [done |].
      assert (SF2Q x <= SF2Q hi)%Q as H2'.
      { apply Qnot_lt_le. intros H. apply F32_ltb_correct in H; [congruence | done | done]. }
      split; [done |]. split; by apply F32_leb_correct.
Qed.

Ltac denorm_channel y Mq Sq :=
  intros m s lo hi Hy [Hlo Hhi]; unfold denorm_elem, in_range, F32.to_Q;
  assert (fv32 m) as Hfm by done; assert (fv32 s) as Hfs by done;
  assert (fv32 lo) as Hflo by (split; vm_compute; reflexivity);
  assert (fv32 hi) as Hfhi by (split; vm_compute; reflexivity);
  apply (F32_leb_correct lo y Hflo Hy) in Hlo;
  apply (F32_leb_correct y hi Hy Hfhi) in Hhi;
  let LO := eval vm_compute in (SF2Q lo) in
  let HI := eval vm_compute in (SF2Q hi) in
  assert (SF2Q lo == LO)%Q as HLO by (vm_compute; reflexivity);
  assert (SF2Q hi == HI)%Q as HHI by (vm_compute; reflexivity);
  assert (SF2Q m == Mq)%Q as HM by reflexivity;
  assert (SF2Q s == Sq)%Q as HS by reflexivity;
  power_facts;
  assert (SF2Q y * SF2Q s == SF2Q y * Sq)%Q as Hys by (by rewrite HS);
  destruct (F32_mul_correct y s 0 Hy Hfs) as [Hfc Hc];
    [apply Qabs_Qlt_condition; lra | lia |];
  change (Z.max (0 - 24) (-149) - 1)%Z with (-25)%Z in Hc;
  apply Qabs_Qle_condition in Hc;
  set (c := F32.mul y s) in *;
  destruct (F32_add_correct c m 1 Hfc Hfm) as [Hfd Hd];
    [apply Qabs_Qlt_condition; lra | lia |];
  change (Z.max (1 - 24) (-149) - 1)%Z with (-24)%Z in Hd;
  apply Qabs_Qle_condition in Hd;
  split; [apply Hfd | lra].

Lemma denorm_ch0 (y : F32.t) :
  let m := S754_finite false 16273900 (-25) in
  let s := S754_finite false 15367930 (-26) in
  let lo := clip_lo m s in let hi := clip_hi m s in
  fv32 y → within lo hi y →
  in_range (- (1 # 1000000)) (1 + (1 # 1000000)) (denorm_elem m s y).
Proof. denorm_channel y (16273900 # 33554432)%Q (15367930 # 67108864)%Q. Qed.

Lemma denorm_ch1 (y : F32.t) :
  let m := S754_finite false 15300821 (-25) in
  let s := S754_finite false 15032386 (-26) in
  let lo := clip_lo m s in let hi := clip_hi m s in
  fv32 y → within lo hi y →
  in_range (- (1 # 1000000)) (1 + (1 # 1000000)) (denorm_elem m s y).
Proof. denorm_channel y (15300821 # 33554432)%Q (15032386 # 67108864)%Q. Qed.

Lemma denorm_ch2 (y : F32.t) :
  let m := S754_finite false 13623099 (-25) in
  let s := S754_finite false 15099494 (-26) in
  let lo := clip_lo m s in let hi := clip_hi m s in
  fv32 y → within lo hi y →
  in_range (- (1 # 1000000)) (1 + (1 # 1000000)) (denorm_elem m s y).
Proof. denorm_channel y (13623099 # 33554432)%Q (15099494 # 67108864)%Q. Qed.

(** ** Elementwise relations through the transposition *)

Lemma omap_lookup2_Forall2 {A B} (R : A → B → Prop) (h w : nat)
    (t : tensor3 A) (t' : tensor3 B) :
  Forall2 (Forall2 (Forall2 R)) t t' →
  Forall2 R (omap (λ ch : list (list A), ch !! h ≫= (.!! w)) t)
            (omap (λ ch : list (list B), ch !! h ≫= (.!! w)) t').
Proof.
  induction 1 as [|ch ch' t t' Hch _ IH]; [constructor |].
  change (omap ?f (ch :: t)) with
    (match ch !! h ≫= (.!! w) with
     | Some y => y :: omap (λ ch : list (list A), ch !! h ≫= (.!! w)) t
     | None => omap (λ ch : list (list A), ch !! h ≫= (.!! w)) t
     end).
  change (omap ?f (ch' :: t')) with
    (match ch' !! h ≫= (.!! w) with
     | Some y => y :: omap (λ ch : list (list B), ch !! h ≫= (.!! w)) t'
     | None => omap (λ ch : list (list B), ch !! h ≫= (.!! w)) t'
     end).
  assert (option_Forall2 R (ch !! h ≫= (.!! w)) (ch' !! h ≫= (.!! w))) as Ho.
  { pose proof (proj1 (Forall2_lookup _ _ _) Hch h) as Hrow.
    destruct Hrow as [row row' Hrow |]; cbn; [| constructor].
    apply (proj1 (Forall2_lookup _ _ _) Hrow w). }
  destruct Ho; [by constructor | done].
Qed.

Lemma transpose_120_3_Forall2 {A B} (R : A → B → Prop)
    (t : tensor3 A) (t' : tensor3 B) :
  Forall2 (Forall2 (Forall2 R)) t t' →
  Forall2 (Forall2 (Forall2 R)) (transpose_120_3 t) (transpose_120_3 t').
Proof.
  intros Ht. unfold transpose_120_3.
  destruct Ht as [|c0 c0' ts ts' Hc0 Hts]; [constructor |].
  assert (Forall2 (Forall2 (Forall2 R)) (c0 :: ts) (c0' :: ts')) as Ht by (by constructor).
  set (t := c0 :: ts) in *. set (t' := c0' :: ts') in *. clearbody t t'.
  apply Forall2_same_length_lookup_2.
  { rewrite !length_imap. by eapply Forall2_length. }
  intros h r r'. rewrite !list_lookup_imap.
  destruct (c0 !! h) as [row0|] eqn:Hr0; [| done].
  destruct (c0' !! h) as [row0'|] eqn:Hr0'; [| done].
  cbn. intros [= <-] [= <-].
  pose proof (Forall2_lookup_lr _ _ _ _ _ _ Hc0 Hr0 Hr0') as Hrow.
  apply Forall2_same_length_lookup_2.
  { rewrite !length_imap. by eapply Forall2_length. }
  intros w p p'. rewrite !list_lookup_imap.
  destruct (row0 !! w); [| done]. destruct (row0' !! w); [| done].
  cbn. intros [= <-] [= <-]. by apply omap_lookup2_Forall2.
Qed.

Lemma Forall2_fmap_same {A B} (P : A → Prop) (R : B → A → Prop) (f : A → B) (l : list A) :
  (∀ x, P x → R (f x) x) → Forall P l → Forall2 R (f <$> l) l.
Proof. intros Hf. induction 1; constructor; auto. Qed.

Lemma Forall3_diag {A} (P : A → Prop) (t : tensor3 A) :
  Forall (Forall (Forall P)) t →
  Forall2 (Forall2 (Forall2 (λ x _, P x))) t t.
Proof.
  intros H. apply Forall_Forall2_diag. eapply Forall_impl; [exact H |].
  intros ch Hch. apply Forall_Forall2_diag. eapply Forall_impl; [exact Hch |].
  intros row Hrow. by apply Forall_Forall2_diag.
Qed.

Lemma Forall3_of_Forall2 {A B} (P : A → Prop) (t : tensor3 A) (t' : tensor3 B) :
  Forall2 (Forall2 (Forall2 (λ x _, P x))) t t' → Forall (Forall (Forall P)) t.
Proof.
  intros H. eapply Forall2_Forall_l; [exact H |]. apply Forall_forall. intros ch' _ ch Hch.
  eapply Forall2_Forall_l; [exact Hch |]. apply Forall_forall. intros row' _ row Hrow.
  eapply Forall2_Forall_l; [exact Hrow |]. apply Forall_forall. by intros.
Qed.

Lemma transpose_120_3_Forall {A} (P : A → Prop) (t : tensor3 A) :
  Forall (Forall (Forall P)) t → Forall (Forall (Forall P)) (transpose_120_3 t).
Proof.
  intros H. eapply Forall3_of_Forall2. apply transpose_120_3_Forall2.
  by apply Forall3_diag.
Qed.

Lemma rect2_lookup {A} (H W : nat) (m : list (list A)) (i j : nat) :
  rect2 H W m → i < H → j < W → ∃ x, m !! i ≫= (.!! j) = Some x.
Proof.
  intros [Hlen Hrows] Hi Hj.
  destruct (lookup_lt_is_Some_2 m i) as [row Hrow]; [lia |].
  pose proof (proj1 (Forall_lookup _ _) Hrows i row Hrow) as Hw. cbn in Hw.
  destruct (lookup_lt_is_Some_2 row j) as [x Hx]; [lia |].
  exists x. rewrite Hrow. exact Hx.
Qed.

(** The transposition of three [H] by [W] channels: an [H] by [W] image of
    pixels with three components, the pixel at [(i, j)] collecting the
    entries at [(i, j)] of the channels in their order. *)
Lemma transpose_120_3_pixels {A} (H W : nat) (c0 c1 c2 : list (list A)) :
  rect2 H W c0 → rect2 H W c1 → rect2 H W c2 →
  rect3 H W 3 (transpose_120_3 [c0; c1; c2])
  ∧ ∀ i j x0 x1 x2,
      c0 !! i ≫= (.!! j) = Some x0 → c1 !! i ≫= (.!! j) = Some x1 →
      c2 !! i ≫= (.!! j) = Some x2 →
      transpose_120_3 [c0; c1; c2] !! i ≫= (.!! j) = Some [x0; x1; x2].
Proof.
  intros H0 H1 H2. unfold transpose_120_3.
  assert (∀ i j x0 x1 x2,
      c0 !! i ≫= (.!! j) = Some x0 → c1 !! i ≫= (.!! j) = Some x1 →
      c2 !! i ≫= (.!! j) = Some x2 →
      omap (λ ch : list (list A), ch !! i ≫= (.!! j)) [c0; c1; c2] = [x0; x1; x2]) as Hpix.
  { intros i j x0 x1 x2 E0 E1 E2. cbn. by rewrite E0, E1, E2. }
  split.
  - destruct H0 as [Hlen Hrows]. split; [by rewrite length_imap |].
    apply Forall_forall. intros r Hr.
    apply list_elem_of_lookup in Hr as [i Hr]. rewrite list_lookup_imap in Hr.
    destruct (c0 !! i) as [row0|] eqn:Hrow0; [| done]. cbn in Hr. injection Hr as <-.
    pose proof (proj1 (Forall_lookup _ _) Hrows i row0 Hrow0) as Hw. cbn in Hw.
    assert (i < H) as Hi by (rewrite <- Hlen; by eapply lookup_lt_Some).
    split; [by rewrite length_imap |].
    apply Forall_forall. intros p Hp.
    apply list_elem_of_lookup in Hp as [j Hp]. rewrite list_lookup_imap in Hp.
    destruct (row0 !! j) as [x|] eqn:Hx; [| done]. cbn in Hp. injection Hp as <-.
    assert (j < W) as Hj by (rewrite <- Hw; by eapply lookup_lt_Some).
    destruct (rect2_lookup H W c0 i j) as [x0 E0]; [by split | done | done |].
    destruct (rect2_lookup H W c1 i j H1 Hi Hj) as [x1 E1].
    destruct (rect2_lookup H W c2 i j H2 Hi Hj) as [x2 E2].
    exact (f_equal length (Hpix i j x0 x1 x2 E0 E1 E2)).
  - intros i j x0 x1 x2 E0 E1 E2. rewrite list_lookup_imap.
    destruct (c0 !! i) as [row0|] eqn:Hrow0; [| done]. cbn in E0 |- *.
    rewrite list_lookup_imap, E0. cbn. f_equal.
    apply Hpix; [by rewrite Hrow0 | done | done].
Qed.

(** An image related entry by entry to an [H] by [W] image of pixels has
    its shape, and its pixel at [(i, j)] is related to the pixel there. *)
Lemma Forall2_pixels {A B} (R : A → B → Prop) (H W : nat)
    (img : tensor3 A) (ref : tensor3 B) :
  Forall2 (Forall2 (Forall2 R)) img ref → rect3 H W 3 ref →
  rect3 H W 3 img
  ∧ ∀ i j p, ref !! i ≫= (.!! j) = Some p →
      ∃ q, img !! i ≫= (.!! j) = Some q ∧ Forall2 R q p.
Proof.
  intros HF [Hlen Hrows]. split.
  - split; [by rewrite (Forall2_length _ _ _ HF) |].
    apply Forall_forall. intros row Hrow. apply list_elem_of_lookup in Hrow as [i Hi].
    destruct (Forall2_lookup_l _ _ _ _ _ HF Hi) as (rrow & Hri & HFr).
    destruct (proj1 (Forall_lookup _ _) Hrows i rrow Hri) as [Hw Hp].
    split; [by rewrite (Forall2_length _ _ _ HFr) |].
    apply Forall_forall. intros q Hq. apply list_elem_of_lookup in Hq as [j Hj].
    destruct (Forall2_lookup_l _ _ _ _ _ HFr Hj) as (p & Hpj & HFp).
    rewrite (Forall2_length _ _ _ HFp).
    exact (proj1 (Forall_lookup _ _) Hp j p Hpj).
  - intros i j p Hp. destruct (ref !! i) as [rrow|] eqn:Hri; [| done]. cbn in Hp.
    destruct (Forall2_lookup_r _ _ _ _ _ HF Hri) as (row & Hi & HFr).
    destruct (Forall2_lookup_r _ _ _ _ _ HFr Hp) as (q & Hj & HFp).
    exists q. rewrite Hi. cbn. done.
Qed.

(** ** The image [denormalize] returns *)

(** On the data of a tensor of shape [(1, 3, H, W)] that does not require
    grad: the image has shape [(H, W, 3)] and its pixel at [(i, j)] holds
    [x * stdv[c] + mean[c]] for the three channels in their order. *)
Lemma denormalize_data_image (self : Utils) (H W : nat)
    (c0 c1 c2 : list (list F32.t)) (m0 m1 m2 s0 s1 s2 : F32.t) :
  rect3 3 H W [c0; c1; c2] →
  mean self = [m0; m1; m2] → stdv self = [s0; s1; s2] →
  ∃ img : tensor3 F32.t,
    denormalize_data self false [[c0; c1; c2]] = Ok img
    ∧ rect3 H W 3 img
    ∧ ∀ i j x0 x1 x2,
        c0 !! i ≫= (.!! j) = Some x0 → c1 !! i ≫= (.!! j) = Some x1 →
        c2 !! i ≫= (.!! j) = Some x2 →
        img !! i ≫= (.!! j)
        = Some [F32.add (F32.mul x0 s0) m0; F32.add (F32.mul x1 s1) m1;
                F32.add (F32.mul x2 s2) m2].
Proof.
  intros [_ Hrect] Hm Hs.
  apply Forall_cons in Hrect as [R0 Hrect]. apply Forall_cons in Hrect as [R1 Hrect].
  apply Forall_cons in Hrect as [R2 _].
  eexists. split.
  { rewrite denormalize_data_batch1; [reflexivity | done | |];
      [by rewrite Hm | by rewrite Hs]. }
  unfold denorm_chw. rewrite Hm, Hs. cbn [zip_with].
  destruct (transpose_120_3_pixels H W
              (map (map (λ x, F32.add x m0)) (map (map (λ x, F32.mul x s0)) c0))
              (map (map (λ x, F32.add x m1)) (map (map (λ x, F32.mul x s1)) c1))
              (map (map (λ x, F32.add x m2)) (map (map (λ x, F32.mul x s2)) c2)))
    as [Hshape Hpix]; [by do 2 apply rect2_map .. |].
  split; [exact Hshape |].
  intros i j x0 x1 x2 E0 E1 E2. apply Hpix.
  - rewrite !list_lookup_fmap. destruct (c0 !! i) as [row|]; [| done]. cbn in E0 |- *.
    rewrite !list_lookup_fmap, E0. done.
  - rewrite !list_lookup_fmap. destruct (c1 !! i) as [row|]; [| done]. cbn in E1 |- *.
    rewrite !list_lookup_fmap, E1. done.
  - rewrite !list_lookup_fmap. destruct (c2 !! i) as [row|]; [| done]. cbn in E2 |- *.
    rewrite !list_lookup_fmap, E2. done.
Qed.



(** ** The codec round trip *)

Lemma Utils_init_inv (name : string) (self : Utils) :
  Utils_init name = Ok self → self = vgg19_profile name.
Proof. rewrite Utils_init_spec. case_bool_decide; congruence. Qed.

Lemma normalize_data_vgg19 (name : string) (c0 c1 c2 : list (list F32.t)) :
  normalize_data (vgg19_profile name) [[c0; c1; c2]] =
    Ok [[map (map (λ x, F32.div (F32.sub x (S754_finite false 16273900 (-25)))
                                 (S754_finite false 15367930 (-26)))) c0;
         map (map (λ x, F32.div (F32.sub x (S754_finite false 15300821 (-25)))
                                 (S754_finite false 15032386 (-26)))) c1;
         map (map (λ x, F32.div (F32.sub x (S754_finite false 13623099 (-25)))
                                 (S754_finite false 15099494 (-26)))) c2]].
Proof. reflexivity. Qed.

Lemma map_map_compose {A B C} (f : A → B) (g : B → C) (ch : list (list A)) :
  map (map g) (map (map f) ch) = map (map (λ x, g (f x))) ch.
Proof.
  rewrite <- list_fmap_compose. apply list_fmap_ext. intros _ row _. cbn.
  by rewrite <- list_fmap_compose.
Qed.

Lemma denorm_chw_vgg19 (name : string) (c0 c1 c2 : list (list F32.t)) :
  denorm_chw (vgg19_profile name) [c0; c1; c2] =
    [map (map (denorm_elem (S754_finite false 16273900 (-25))
                           (S754_finite false 15367930 (-26)))) c0;
     map (map (denorm_elem (S754_finite false 15300821 (-25))
                           (S754_finite false 15032386 (-26)))) c1;
     map (map (denorm_elem (S754_finite false 13623099 (-25))
                           (S754_finite false 15099494 (-26)))) c2].
Proof. unfold denorm_chw. cbn. by rewrite !map_map_compose. Qed.

Lemma roundtrip_channel_close (m s : F32.t) (ch : list (list F32.t)) :
  (∀ x, fv32 x → (0 <= SF2Q x <= 1)%Q →
        fv32 (roundtrip_elem m s x)
        ∧ (Qabs (SF2Q (roundtrip_elem m s x) - SF2Q x) <= 3 # 16777216)%Q) →
  Forall (Forall in_unit) ch →
  Forall2 (Forall2 (close_f32 (1 # 100000)))
    (map (map (denorm_elem m s)) (map (map (λ x, F32.div (F32.sub x m) s)) ch)) ch.
Proof.
  intros Hrt Hch. rewrite map_map_compose.
  apply (Forall2_fmap_same (Forall in_unit)); [| done].
  intros row Hrow.
  apply (Forall2_fmap_same in_unit); [| done].
  intros x Hx. apply in_unit_inv in Hx as [Hfx HX].
  destruct (Hrt x Hfx HX) as [[Hfin _] Herr].
  split; [exact Hfin |]. unfold F32.to_Q.
  eapply Qle_trans; [exact Herr |]. done.
Qed.

(** C1.  For the profile of the registry and a tensor of shape
    [(1, 3, H, W)] that does not require grad and whose values are binary32
    numbers in [[0, 1]], [denormalize(normalize(t))] returns; the result is
    the channel-last image of [t], each value finite and within [1e-5] of
    the value it came from: the image has shape [(H, W, 3)] and its pixel at
    [(i, j)] holds, in this order, values close to the entries at [(i, j)]
    of the three channels.  (The proof gives [3 * 2^-24].)  The tensor
    itself is not changed. *)
Theorem codec_round_trip
    (name : string) (self : Utils) (σ : gmap nat tensor_obj) (h : nat)
    (o : tensor_obj) (c0 c1 c2 : list (list F32.t)) :
  Utils_init name = Ok self →
  σ !! h = Some o → requires_grad o = false →
  data o = [[c0; c1; c2]] →
  Forall (Forall (Forall in_unit)) [c0; c1; c2] →
  ∃ (img : tensor3 F32.t) (σ' : gmap nat tensor_obj),
    (t ← normalize self h; denormalize self t) σ = (Ok img, σ')
    ∧ σ' !! h = Some o
    ∧ Forall2 (Forall2 (Forall2 (close_f32 (1 # 100000))))
        img (transpose_120_3 [c0; c1; c2])
    ∧ ∀ H W : nat, rect3 3 H W [c0; c1; c2] →
        rect3 H W 3 img
        ∧ ∀ i j x0 x1 x2,
            c0 !! i ≫= (.!! j) = Some x0 → c1 !! i ≫= (.!! j) = Some x1 →
            c2 !! i ≫= (.!! j) = Some x2 →
            ∃ y0 y1 y2,
              img !! i ≫= (.!! j) = Some [y0; y1; y2]
              ∧ close_f32 (1 # 100000) y0 x0 ∧ close_f32 (1 # 100000) y1 x1
              ∧ close_f32 (1 # 100000) y2 x2.
Proof.
  intros Hinit Hh Hg Hd Hunit. apply Utils_init_inv in Hinit as ->.
  pose proof (normalize_data_vgg19 name c0 c1 c2) as Hn. rewrite <- Hd in Hn.
  set (d := [[map (map (λ x, F32.div (F32.sub x (S754_finite false 16273900 (-25)))
                                    (S754_finite false 15367930 (-26)))) c0;
             map (map (λ x, F32.div (F32.sub x (S754_finite false 15300821 (-25)))
                                    (S754_finite false 15032386 (-26)))) c1;
             map (map (λ x, F32.div (F32.sub x (S754_finite false 13623099 (-25)))
                                    (S754_finite false 15099494 (-26)))) c2]]) in *.
  assert (normalize (vgg19_profile name) h σ =
            (Ok (fresh (dom σ)),
             <[fresh (dom σ) := {| data := d; requires_grad := false;
                                   is_leaf := true |}]> σ))
    as Hnorm.
  { unfold normalize. rewrite (bind_ok _ _ _ _ _ (read_ok _ _ _ Hh)).
    unfold mbind, M_bind, lift, alloc. by rewrite Hn, Hg. }
  set (h' := fresh (dom σ)) in *.
  set (σ' := <[h' := {| data := d; requires_grad := false; is_leaf := true |}]> σ) in *.
  assert (Forall2 (Forall2 (Forall2 (close_f32 (1 # 100000))))
            (transpose_120_3 (denorm_chw (vgg19_profile name) (hd [] d)))
            (transpose_120_3 [c0; c1; c2])) as Hclose.
  { subst d. cbn [hd].
    apply transpose_120_3_Forall2. rewrite denorm_chw_vgg19.
    apply Forall_cons in Hunit as [H0 Hunit].
    apply Forall_cons in Hunit as [H1 Hunit].
    apply Forall_cons in Hunit as [H2 _].
    repeat constructor.
    + apply roundtrip_channel_close; [apply roundtrip_ch0 | done].
    + apply roundtrip_channel_close; [apply roundtrip_ch1 | done].
    + apply roundtrip_channel_close; [apply roundtrip_ch2 | done]. }
  eexists _, σ'.
  split; [| split; [| split] ].
  - rewrite (bind_ok _ _ _ _ _ Hnorm). unfold denormalize.
    erewrite bind_ok; [| apply read_ok; apply lookup_insert_eq].
    unfold lift. cbn [data requires_grad]. subst d. by rewrite denormalize_data_batch1.
  - subst σ'. rewrite lookup_insert_ne; [done |].
    intros Heq. subst h'. rewrite <- Heq in Hh. by rewrite fresh_lookup in Hh.
  - exact Hclose.
  - intros H W [_ Hrect].
    apply Forall_cons in Hrect as [R0 Hrect]. apply Forall_cons in Hrect as [R1 Hrect].
    apply Forall_cons in Hrect as [R2 _].
    destruct (transpose_120_3_pixels H W c0 c1 c2 R0 R1 R2) as [Hshape Hpix].
    destruct (Forall2_pixels _ H W _ _ Hclose Hshape) as [Himg Hlook].
    split; [exact Himg |].
    intros i j x0 x1 x2 E0 E1 E2.
    destruct (Hlook i j _ (Hpix i j x0 x1 x2 E0 E1 E2)) as (q & Hq & HF).
    apply Forall2_cons_inv_r in HF as (y0 & q0 & Hy0 & HF & ->).
    apply Forall2_cons_inv_r in HF as (y1 & q1 & Hy1 & HF & ->).
    apply Forall2_cons_inv_r in HF as (y2 & q2 & Hy2 & HF & ->).
    apply Forall2_nil_inv_r in HF as ->.
    by exists y0, y1, y2.
Qed.

Lemma codec_round_trip_witness :
  let c0 : list (list F32.t) := [[F32.zero; F32.one]] in
  let c1 : list (list F32.t) := [[F32.one; F32.zero]] in
  let c2 : list (list F32.t) := [[F32.zero; F32.zero]] in
  let σ : gmap nat tensor_obj := {[ 0 := mkTensor [[c0; c1; c2]] false true ]} in
  ∃ (img : tensor3 F32.t) (σ' : gmap nat tensor_obj),
    (x ← normalize (vgg19_profile "vgg19") 0; denormalize (vgg19_profile "vgg19") x) σ
      = (Ok img, σ')
    ∧ σ' !! 0 = Some (mkTensor [[c0; c1; c2]] false true)
    ∧ Forall2 (Forall2 (Forall2 (close_f32 (1 # 100000))))
        img (transpose_120_3 [c0; c1; c2])
    ∧ ∀ H W : nat, rect3 3 H W [c0; c1; c2] →
        rect3 H W 3 img
        ∧ ∀ i j x0 x1 x2,
            c0 !! i ≫= (.!! j) = Some x0 → c1 !! i ≫= (.!! j) = Some x1 →
            c2 !! i ≫= (.!! j) = Some x2 →
            ∃ y0 y1 y2,
              img !! i ≫= (.!! j) = Some [y0; y1; y2]
              ∧ close_f32 (1 # 100000) y0 x0 ∧ close_f32 (1 # 100000) y1 x1
              ∧ close_f32 (1 # 100000) y2 x2.
Proof.
  intros c0 c1 c2 σ.
  apply (codec_round_trip "vgg19" (vgg19_profile "vgg19") σ 0
           (mkTensor [[c0; c1; c2]] false true) c0 c1 c2).
  - reflexivity.
  - reflexivity.
  - reflexivity.
  - reflexivity.
  - repeat constructor.
Defined.

(** ** The clamp and the pixel range *)

Lemma clamp_channel_within (m s : F32.t) (ch : list (list F32.t)) :
  fv32 (clip_lo m s) → fv32 (clip_hi m s) →
  (SF2Q (clip_lo m s) <= SF2Q (clip_hi m s))%Q →
  Forall (Forall is_number) ch →
  Forall (Forall (λ y, fv32 y ∧ within (clip_lo m s) (clip_hi m s) y))
    (clamp_channel m s ch).
Proof.
  intros Hlo Hhi Hle Hch. unfold clamp_channel.
  apply Forall_fmap. eapply Forall_impl; [exact Hch |]. intros row Hrow. cbn.
  apply Forall_fmap. eapply Forall_impl; [exact Hrow |]. intros x Hx. cbn.
  by apply clamp_within.
Qed.

Lemma denorm_channel_in_range (m s : F32.t) (ch : list (list F32.t)) :
  (∀ y, fv32 y → within (clip_lo m s) (clip_hi m s) y →
        in_range (- (1 # 1000000)) (1 + (1 # 1000000)) (denorm_elem m s y)) →
  Forall (Forall (λ y, fv32 y ∧ within (clip_lo m s) (clip_hi m s) y)) ch →
  Forall (Forall (in_range (- (1 # 1000000)) (1 + (1 # 1000000))))
    (map (map (denorm_elem m s)) ch).
Proof.
  intros Hd Hch.
  apply Forall_fmap. eapply Forall_impl; [exact Hch |]. intros row Hrow. cbn.
  apply Forall_fmap. eapply Forall_impl; [exact Hrow |]. intros y [Hy Hw]. cbn.
  by apply Hd.
Qed.

(** The bounds of [clip] do not depend on how NumPy promotes the Python
    integer in [(1 - ch_m) / ch_s]: for the registered profile the bound
    computed in binary64 and rounded to float32 is the one computed in
    float32. *)
Lemma clip_hi_promotion :
  Forall (λ ms : F32.t * F32.t, clip_hi_wide ms.1 ms.2 = clip_hi ms.1 ms.2)
    (zip (mean (vgg19_profile "")) (stdv (vgg19_profile ""))).
Proof. repeat constructor. Qed.

Lemma vgg19_bounds_ok :
  Forall (λ ms : F32.t * F32.t,
            fv32 (clip_lo ms.1 ms.2) ∧ fv32 (clip_hi ms.1 ms.2)
            ∧ (SF2Q (clip_lo ms.1 ms.2) <= SF2Q (clip_hi ms.1 ms.2))%Q)
    (zip (mean (vgg19_profile "")) (stdv (vgg19_profile ""))).
Proof.
  repeat constructor; try (vm_compute; reflexivity);
    apply Qle_by_bool; vm_compute; reflexivity.
Qed.

(** [torch.clamp] on a channel, element by element, for bounds in order *)
Lemma clamp_channel_pointwise (m s : F32.t) (ch : list (list F32.t)) :
  F32.ltb (clip_hi m s) (clip_lo m s) = false →
  Forall (Forall (λ y, fv32 y ∧ within (clip_lo m s) (clip_hi m s) y))
    (clamp_channel m s ch) →
  Forall2 (Forall2 (λ x y,
     y = (if F32.ltb x (F32.div (F32.opp m) s) then F32.div (F32.opp m) s
          else if F32.ltb (F32.div (F32.sub F32.one m) s) x
               then F32.div (F32.sub F32.one m) s else x)
     ∧ within (F32.div (F32.opp m) s) (F32.div (F32.sub F32.one m) s) y))
    ch (clamp_channel m s ch).
Proof.
  intros Hord Hw. unfold clamp_channel in *.
  apply Forall2_fmap_r, Forall_Forall2_diag.
  rewrite Forall_fmap in Hw. eapply Forall_impl; [exact Hw |].
  intros row Hrow. cbn in Hrow |- *.
  apply Forall2_fmap_r, Forall_Forall2_diag.
  rewrite Forall_fmap in Hrow. eapply Forall_impl; [exact Hrow |].
  intros x [_ Hx]. cbn in Hx |- *. split; [| exact Hx].
  unfold clamp. fold (clip_lo m s). fold (clip_hi m s).
  destruct (F32.ltb x (clip_lo m s)); [by rewrite Hord | done].
Qed.

(** C2, the claim as stated fails for a tensor that requires grad: the
    tensor the shift returns is a leaf that requires grad, and on it the
    assignment of the first clamped channel is refused; [clip] raises
    [RuntimeError] and the tensor keeps its values, here 5 in a channel
    whose upper bound is below 3. *)
Lemma clip_refuses_shifted_tensor :
  let t : tensor4 F32.t := [[ [[F32.of_Z 5]]; [[F32.zero]]; [[F32.one]] ]] in
  let σ : gmap nat tensor_obj := {[ 0 := mkTensor t false true ]} in
  let u := vgg19_profile "vgg19" in
  ∃ σ1 : gmap nat tensor_obj,
    random_circular_spatial_shift u 0 0 0 false σ = (Ok 1, σ1)
    ∧ σ1 !! 1 = Some (mkTensor t true true)
    ∧ clip u 1 σ1 = (Raise RuntimeError, σ1).
Proof.
  intros t σ u. eexists. split; [| split].
  - rewrite (shift_spec u σ 0 (mkTensor t false true) 0 0 false);
      [reflexivity | reflexivity | simpl; lia | simpl; lia].
  - reflexivity.
  - by eapply clip_leaf_requires_grad.
Qed.

(** C2, amended.  For the profile of the registry and a tensor of shape
    [(1, 3, H, W)].  If the tensor holds no NaN and does not require grad,
    [clip] returns the tensor it was given, now holding in channel [c] the
    elements clamped to [lo = -mean[c] / stdv[c]] and
    [hi = (1 - mean[c]) / stdv[c]] (computed in float32): an element below
    [lo] has become [lo], one above [hi] has become [hi], another one is
    unchanged, so every element [y] of channel [c] satisfies
    [lo <= y <= hi]; and [denormalize] of the clipped tensor returns an
    image of shape [(H, W, 3)] whose values are finite and in [[0, 1]] up to
    [1e-6].  If the tensor is a leaf that requires grad, [clip] raises
    [RuntimeError] and changes nothing. *)
Theorem clip_then_denormalize_in_range
    (name : string) (self : Utils) (σ : gmap nat tensor_obj) (h : nat)
    (o : tensor_obj) (c0 c1 c2 : list (list F32.t)) :
  Utils_init name = Ok self →
  σ !! h = Some o →
  data o = [[c0; c1; c2]] →
  (requires_grad o = false →
   Forall (Forall (Forall is_number)) [c0; c1; c2] →
     ∃ (clipped img : tensor3 F32.t),
       let σ' := <[h := {| data := [clipped]; requires_grad := requires_grad o;
                           is_leaf := is_leaf o |}]> σ in
       clip self h σ = (Ok h, σ')
       ∧ Forall3 (λ (ch ch' : list (list F32.t)) (ms : F32.t * F32.t),
                    let lo := F32.div (F32.opp ms.1) ms.2 in
                    let hi := F32.div (F32.sub F32.one ms.1) ms.2 in
                    Forall2 (Forall2 (λ x y,
                      y = (if F32.ltb x lo then lo else if F32.ltb hi x then hi else x)
                      ∧ within lo hi y)) ch ch')
           [c0; c1; c2] clipped (zip (mean self) (stdv self))
       ∧ denormalize self h σ' = (Ok img, σ')
       ∧ Forall (Forall (Forall (in_range (- (1 # 1000000)) (1 + (1 # 1000000))))) img
       ∧ ∀ H W : nat, rect3 3 H W [c0; c1; c2] → rect3 H W 3 img)
  ∧ (requires_grad o = true → is_leaf o = true →
     clip self h σ = (Raise RuntimeError, σ)).
Proof.
  intros Hinit Hh Hd. apply Utils_init_inv in Hinit as ->.
  split; [| intros Hg Hl; by eapply clip_leaf_requires_grad].
  intros Hg Hnum.
  apply Forall_cons in Hnum as [H0 Hnum].
  apply Forall_cons in Hnum as [H1 Hnum].
  apply Forall_cons in Hnum as [H2 _].
  pose proof vgg19_bounds_ok as Hb.
  apply Forall_cons in Hb as [(Hl0 & Hh0 & Hle0) Hb].
  apply Forall_cons in Hb as [(Hl1 & Hh1 & Hle1) Hb].
  apply Forall_cons in Hb as [(Hl2 & Hh2 & Hle2) _].
  cbn [fst snd] in *.
  pose proof (clamp_channel_within _ _ c0 Hl0 Hh0 Hle0 H0) as Hc0.
  pose proof (clamp_channel_within _ _ c1 Hl1 Hh1 Hle1 H1) as Hc1.
  pose proof (clamp_channel_within _ _ c2 Hl2 Hh2 Hle2 H2) as Hc2.
  eexists _, _. cbv zeta. split; [| split; [| split; [| split] ] ].
  - by apply (clip_three_channels _ σ h o c0 c1 c2 []).
  - apply Forall3_cons; [| apply Forall3_cons; [| apply Forall3_cons; [| apply Forall3_nil] ] ];
      cbn [fst snd]; (apply clamp_channel_pointwise; [vm_compute; reflexivity | done]).
  - unfold denormalize.
    erewrite bind_ok; [| apply read_ok; apply lookup_insert_eq].
    unfold lift. cbn [data requires_grad]. rewrite Hg.
    by rewrite denormalize_data_batch1.
  - apply transpose_120_3_Forall. rewrite denorm_chw_vgg19.
    repeat constructor.
    + apply denorm_channel_in_range; [apply denorm_ch0 | done].
    + apply denorm_channel_in_range; [apply denorm_ch1 | done].
    + apply denorm_channel_in_range; [apply denorm_ch2 | done].
  - intros H W [_ Hrect].
    apply Forall_cons in Hrect as [R0 Hrect]. apply Forall_cons in Hrect as [R1 Hrect].
    apply Forall_cons in Hrect as [R2 _].
    rewrite denorm_chw_vgg19.
    apply transpose_120_3_pixels; unfold clamp_channel; by do 2 apply rect2_map.
Qed.

Lemma clip_then_denormalize_in_range_witness :
  let c0 : list (list F32.t) := [[F32.of_Z 5; S754_infinity true]] in
  let c1 : list (list F32.t) := [[F32.of_Z (-7); F32.zero]] in
  let c2 : list (list F32.t) := [[F32.one; S754_infinity false]] in
  let σ : gmap nat tensor_obj := {[ 0 := mkTensor [[c0; c1; c2]] false true ]} in
  let u := vgg19_profile "vgg19" in
  ∃ (clipped img : tensor3 F32.t),
    let σ' := <[0 := {| data := [clipped]; requires_grad := false;
                        is_leaf := true |}]> σ in
    clip u 0 σ = (Ok 0, σ')
    ∧ Forall3 (λ (ch ch' : list (list F32.t)) (ms : F32.t * F32.t),
                 let lo := F32.div (F32.opp ms.1) ms.2 in
                 let hi := F32.div (F32.sub F32.one ms.1) ms.2 in
                 Forall2 (Forall2 (λ x y,
                   y = (if F32.ltb x lo then lo else if F32.ltb hi x then hi else x)
                   ∧ within lo hi y)) ch ch')
        [c0; c1; c2] clipped (zip (mean u) (stdv u))
    ∧ denormalize u 0 σ' = (Ok img, σ')
    ∧ Forall (Forall (Forall (in_range (- (1 # 1000000)) (1 + (1 # 1000000))))) img
    ∧ ∀ H W : nat, rect3 3 H W [c0; c1; c2] → rect3 H W 3 img.
Proof.
  intros c0 c1 c2 σ u.
  refine (proj1 (clip_then_denormalize_in_range "vgg19" u σ 0
                   (mkTensor [[c0; c1; c2]] false true) c0 c1 c2 _ _ _) _ _).
  - reflexivity.
  - reflexivity.
  - reflexivity.
  - reflexivity.
  - repeat constructor.
Defined.

(** * The kernels of the smoother *)

(** ** Signs and membership in the format *)

Section SignAndValidity.
Local Open Scope Z_scope.
Variables prec emax : Z.
Hypothesis Hprec : 1 < prec.
Hypothesis Hemax : prec < emax.
Local Abbreviation fexp := (SpecFloat.fexp prec emax).
Local Abbreviation emin := (SpecFloat.emin prec emax).

(** Rounding keeps the sign it is given. *)
Lemma binary_round_aux_sign (sx : bool) (m e : Z) (l : location) :
  SFis_nan (binary_round_aux prec emax sx m e l) = true
  ∨ SFsign (binary_round_aux prec emax sx m e l) = sx.
Proof.
  unfold binary_round_aux.
  destruct (shr_fexp prec emax m e l) as [mrs' e'].
  destruct (shr_fexp prec emax _ e' loc_Exact) as [mrs'' e''].
  destruct (shr_m mrs'') as [|p|p]; [by right | | by left].
  destruct (e'' <=? emax - prec); by right.
Qed.

Lemma binary_round_aux_valid (sx : bool) (m e : Z) (l : location) (t : Q) :
  0 ≤ m →
  located (shr_record_of_loc m l) e t →
  e ≤ fexp (Zdigits2 m + e) →
  valid_binary prec emax (binary_round_aux prec emax sx m e l) = true.
Proof.
  intros Hm Hl He.
  destruct (binary_round_aux_cases prec emax Hprec sx m e l t Hm Hl He)
    as [[-> _] | [[_ Hv] _]]; done.
Qed.

(** The product of two floats of the format is a float of the format. *)
Lemma SFmul_valid (x y : spec_float) :
  valid_binary prec emax x = true → valid_binary prec emax y = true →
  valid_binary prec emax (SFmul prec emax x y) = true.
Proof.
  intros Hvx Hvy.
  destruct x as [sx | sx | | sx mx ex], y as [sy | sy | | sy my ey]; try done.
  cbn [SFmul].
  apply valid_finite_inv in Hvx as [Hcx Hbx]. apply valid_finite_inv in Hvy as [Hcy Hby].
  pose proof (Zdigits2_mul (Z.pos mx) (Z.pos my) ltac:(lia) ltac:(lia)) as Hd.
  change (Z.pos mx * Z.pos my) with (Z.pos (mx * my)) in Hd.
  apply (binary_round_aux_valid _ _ _ _ (inject_Z (Z.pos (mx * my)) * bpow (ex + ey)));
    [lia | by apply located_exact |].
  assert (1 ≤ Zdigits2 (Z.pos mx)) by (simpl; lia).
  assert (1 ≤ Zdigits2 (Z.pos my)) by (simpl; lia).
  unfold SpecFloat.fexp, SpecFloat.emin in *. lia.
Qed.

(** A finite product has finite factors, and its sign is the product of
    their signs. *)
Lemma SFmul_finite_inv (x y : spec_float) :
  SFis_finite (SFmul prec emax x y) = true →
  SFis_finite x = true ∧ SFis_finite y = true
  ∧ SFsign (SFmul prec emax x y) = xorb (SFsign x) (SFsign y).
Proof.
  destruct x as [sx | sx | | sx mx ex], y as [sy | sy | | sy my ey]; try done.
  cbn [SFmul]. intros Hf. split; [done |]. split; [done |].
  destruct (binary_round_aux_sign (xorb sx sy) (Z.pos (mx * my)) (ex + ey) loc_Exact)
    as [Hn | Hs]; [| exact Hs].
  by destruct (binary_round_aux _ _ _ _ _ _).
Qed.

(** Rounding a mantissa given at any exponent yields a float of the
    format. *)
Lemma binary_round_valid (sx : bool) (p : positive) (e : Z) :
  valid_binary prec emax (binary_round prec emax sx p e) = true.
Proof.
  unfold binary_round.
  destruct (shl_align_spec p e (fexp (Z.pos (digits2_pos p) + e))) as [He Hm].
  destruct (shl_align p e (fexp (Z.pos (digits2_pos p) + e))) as [mz ez].
  cbn [fst snd] in *.
  change (Z.pos (digits2_pos p)) with (Zdigits2 (Z.pos p)) in *.
  apply (binary_round_aux_valid _ _ _ _ (inject_Z (Z.pos mz) * bpow ez));
    [lia | by apply located_exact |].
  rewrite Hm, Zdigits2_shift by lia. rewrite He.
  replace (Zdigits2 (Z.pos p) + (e - Z.min e (fexp (Zdigits2 (Z.pos p) + e)))
           + Z.min e (fexp (Zdigits2 (Z.pos p) + e))) with (Zdigits2 (Z.pos p) + e) by lia.
  lia.
Qed.

Lemma binary_round_sign (sx : bool) (p : positive) (e : Z) :
  SFis_nan (binary_round prec emax sx p e) = true
  ∨ SFsign (binary_round prec emax sx p e) = sx.
Proof.
  unfold binary_round.
  destruct (shl_align p e _) as [mz ez]. apply binary_round_aux_sign.
Qed.

(** A finite float whose sign bit is clear stands for a non-negative
    rational. *)
Lemma SF2Q_nonneg (x : spec_float) : SFsign x = false → (0 <= SF2Q x)%Q.
Proof.
  destruct x as [s | s | | s m e]; try done. cbn [SFsign]. intros ->.
  rewrite SF2Q_finite. pose proof (bpow_pos e).
  apply Qmult_le_0_compat; [| lra].
  change 0%Q with (inject_Z 0). rewrite <- Zle_Qle. lia.
Qed.
End SignAndValidity.

(** ** The error of the normalization *)

(** Every positive rational lies between two powers of two, four apart. *)
Lemma bpow_bracket (q : Q) :
  (0 < q)%Q → ∃ k : Z, (bpow (k - 2) <= q)%Q ∧ (q < bpow k)%Q.
Proof.
  destruct q as [n d]. intros Hq.
  assert (0 < n)%Z as Hn.
  { unfold Qlt in Hq. simpl in Hq. lia. }
  set (a := Z.log2 n). set (b := Z.log2 (Z.pos d)).
  destruct (Z.log2_spec n Hn) as [Ha1 Ha2]. fold a in Ha1, Ha2.
  destruct (Z.log2_spec (Z.pos d) ltac:(lia)) as [Hb1 Hb2]. fold b in Hb1, Hb2.
  pose proof (Z.log2_nonneg n) as Ha0. fold a in Ha0.
  pose proof (Z.log2_nonneg (Z.pos d)) as Hb0. fold b in Hb0.
  assert (bpow a <= inject_Z n)%Q as HA1 by (rewrite bpow_Z by lia; by rewrite <- Zle_Qle).
  assert (inject_Z n < bpow (a + 1))%Q as HA2
    by (rewrite bpow_Z by lia; by rewrite <- Zlt_Qlt).
  assert (bpow b <= inject_Z (Z.pos d))%Q as HB1
    by (rewrite bpow_Z by lia; by rewrite <- Zle_Qle).
  assert (inject_Z (Z.pos d) < bpow (b + 1))%Q as HB2
    by (rewrite bpow_Z by lia; by rewrite <- Zlt_Qlt).
  assert (n # d == inject_Z n / inject_Z (Z.pos d))%Q as Hdiv by apply Qmake_Qdiv.
  pose proof (inject_Z_pos d) as Hd.
  exists (a - b + 1)%Z. rewrite Hdiv. split.
  - apply Qle_shift_div_l; [done |].
    replace (a - b + 1 - 2)%Z with (a - (b + 1))%Z by lia.
    pose proof (bpow_add (a - (b + 1)) (b + 1)) as Hs.
    replace (a - (b + 1) + (b + 1))%Z with a in Hs by lia.
    pose proof (bpow_pos (a - (b + 1))) as Hp.
    assert (bpow (a - (b + 1)) * inject_Z (Z.pos d)
            <= bpow (a - (b + 1)) * bpow (b + 1))%Q
      by (apply Qmult_le_l; [done | by apply Qlt_le_weak]).
    lra.
  - apply Qlt_shift_div_r; [done |].
    pose proof (bpow_add (a - b + 1) b) as Hs.
    replace (a - b + 1 + b)%Z with (a + 1)%Z in Hs by lia.
    pose proof (bpow_pos (a - b + 1)) as Hp.
    assert (bpow (a - b + 1) * bpow b <= bpow (a - b + 1) * inject_Z (Z.pos d))%Q
      by (by apply Qmult_le_l).
    lra.
Qed.

(** One division of the normalization: the quotient of a non-negative
    entry by the sum carries a relative error of at most [2^-23], or an
    absolute one of [2^-150] when it underflows. *)
Lemma div_entry (x s : F32.t) :
  fv32 x → fv32 s → (0 <= SF2Q x)%Q → (0 < SF2Q s)%Q → (SF2Q x <= 2 * SF2Q s)%Q →
  fv32 (F32.div x s)
  ∧ (Qabs (SF2Q (F32.div x s) - SF2Q x / SF2Q s)
       <= (1 # 8388608) * (SF2Q x / SF2Q s) + bpow (-150))%Q.
Proof.
  intros Hx Hs Hx0 Hs0 Hxs.
  assert (¬ (SF2Q s == 0)%Q) as Hne by lra.
  set (q := (SF2Q x / SF2Q s)%Q).
  assert (0 <= q)%Q as Hq0 by (apply Qle_shift_div_l; lra).
  assert (q <= 2)%Q as Hq2 by (apply Qle_shift_div_r; lra).
  pose proof (bpow_pos (-150)) as Hu.
  destruct (Qlt_le_dec 0 q) as [Hpos | Hzero].
  - destruct (bpow_bracket q Hpos) as (k & Hk1 & Hk2).
    assert (k - 2 < 2)%Z as Hk.
    { apply bpow_lt_inv. assert (bpow 2 == 4)%Q by reflexivity. lra. }
    destruct (F32_div_correct x s k) as [Hfv Herr]; try done; [| lia |].
    { rewrite Qabs_pos by done. exact Hk2. }
    split; [done |]. fold q in Herr. eapply Qle_trans; [exact Herr |].
    destruct (Z.le_ge_cases (-149) (k - 24)) as [Hn | Hsub].
    + rewrite Z.max_l by lia.
      pose proof (bpow_add (-23) (k - 2)) as Hb.
      replace (-23 + (k - 2))%Z with (k - 24 - 1)%Z in Hb by lia.
      assert (bpow (-23) == 1 # 8388608)%Q as H23 by reflexivity.
      rewrite Hb, H23.
      assert ((1 # 8388608) * bpow (k - 2) <= (1 # 8388608) * q)%Q
        by (apply Qmult_le_l; [reflexivity | done]).
      lra.
    + rewrite Z.max_r by lia. change (-149 - 1)%Z with (-150)%Z. lra.
  - assert (q == 0)%Q as Hz by lra.
    destruct (F32_div_correct x s (-149)) as [Hfv Herr]; try done.
    { fold q. rewrite Hz. apply bpow_pos. }
    split; [done |]. fold q in Herr. eapply Qle_trans; [exact Herr |].
    change (Z.max (-149 - 24) (-149) - 1)%Z with (-150)%Z. lra.
Qed.

Lemma sumQ_nonneg (l : list F32.t) :
  Forall (λ x, fv32 x ∧ (0 <= SF2Q x)%Q) l → (0 <= sumQ (map SF2Q l))%Q.
Proof.
  induction 1 as [| x l [_ Hx] _ IH]; simpl; [done | lra].
Qed.

(** The divisions of one kernel, added up. *)
Lemma sum_div_error (s : F32.t) (l : list F32.t) :
  fv32 s → (0 < SF2Q s)%Q →
  Forall (λ x, fv32 x ∧ (0 <= SF2Q x)%Q) l →
  (sumQ (map SF2Q l) <= 2 * SF2Q s)%Q →
  Forall fv32 (map (λ x, F32.div x s) l)
  ∧ (Qabs (sumQ (map SF2Q (map (λ x, F32.div x s) l)) - sumQ (map SF2Q l) / SF2Q s)
       <= (1 # 8388608) * (sumQ (map SF2Q l) / SF2Q s)
          + inject_Z (Z.of_nat (length l)) * bpow (-150))%Q.
Proof.
  intros Hs Hs0 Hl. induction Hl as [| x l [Hx Hx0] Hl IH]; intros Hsum.
  - split; [constructor |]. cbn [map sumQ foldr length].
    assert (0 / SF2Q s == 0)%Q as -> by (field; lra).
    change (inject_Z (Z.of_nat 0)) with 0%Q.
    apply Qabs_Qle_condition. split; lra.
  - pose proof (sumQ_nonneg l Hl) as Hl0. cbn [map sumQ foldr] in Hsum |- *.
    fold (sumQ (map SF2Q l)) in *.
    fold (sumQ (map SF2Q (map (λ x, F32.div x s) l))).
    destruct IH as [IHfv IHerr]; [lra |].
    destruct (div_entry x s Hx Hs Hx0 Hs0 ltac:(lra)) as [Hfv Herr].
    split; [by constructor |].
    assert ((SF2Q x + sumQ (map SF2Q l)) / SF2Q s
            == SF2Q x / SF2Q s + sumQ (map SF2Q l) / SF2Q s)%Q as -> by (field; lra).
    rewrite length_cons, Nat2Z.inj_succ. unfold Z.succ. rewrite inject_Z_plus.
    change (inject_Z 1) with 1%Q.
    apply Qabs_Qle_condition in IHerr, Herr. apply Qabs_Qle_condition.
    split; lra.
Qed.

Lemma normalized_kernel (S : F32.t) (l : list F32.t) :
  Forall (λ x, fv32 x ∧ (0 <= SF2Q x)%Q) l →
  fv32 S → ¬ (SF2Q S == 0)%Q →
  (Qabs (SF2Q S - sumQ (map SF2Q l)) <= (1 # 2097152) * Qabs (SF2Q S))%Q →
  (Z.of_nat (length l) ≤ 2 ^ 126)%Z →
  Forall fv32 (map (λ x, F32.div x S) l)
  ∧ (Qabs (sumQ (map SF2Q (map (λ x, F32.div x S) l)) - 1) <= 1 # 1000000)%Q.
Proof.
  intros Hl HS Hne Hacc Hlen.
  pose proof (sumQ_nonneg l Hl) as HT. set (T := sumQ (map SF2Q l)) in *.
  assert (0 < SF2Q S)%Q as HS0.
  { destruct (Qlt_le_dec 0 (SF2Q S)) as [Hp | Hn]; [done | exfalso].
    rewrite (Qabs_neg (SF2Q S)) in Hacc by done.
    apply Qabs_Qle_condition in Hacc. lra. }
  rewrite (Qabs_pos (SF2Q S)) in Hacc by lra.
  apply Qabs_Qle_condition in Hacc.
  assert (1 - (1 # 2097152) <= T / SF2Q S)%Q as Hr1 by (apply Qle_shift_div_l; lra).
  assert (T / SF2Q S <= 1 + (1 # 2097152))%Q as Hr2 by (apply Qle_shift_div_r; lra).
  destruct (sum_div_error S l HS HS0 Hl) as [Hfv Herr]; [fold T; lra |].
  split; [done |]. fold T in Herr. set (r := (T / SF2Q S)%Q) in *.
  assert (inject_Z (Z.of_nat (length l)) * bpow (-150) <= 1 # 16777216)%Q as Hn.
  { assert (bpow 126 * bpow (-150) == 1 # 16777216)%Q as <- by reflexivity.
    apply Qmult_le_compat_r; [| apply Qlt_le_weak, bpow_pos].
    rewrite bpow_Z by lia. by rewrite <- Zle_Qle. }
  apply Qabs_Qle_condition in Herr. apply Qabs_Qle_condition. split; lra.
Qed.

(** ** The entries of the un-normalized kernels *)

Lemma to_f32_valid (x : F64.t) : F32.valid (to_f32 x) = true.
Proof.
  destruct x as [s | s | | s m e]; try done.
  apply binary_round_valid; apply F32_params.
Qed.

Lemma F32_mul_valid (x y : F32.t) :
  F32.valid x = true → F32.valid y = true → F32.valid (F32.mul x y) = true.
Proof. apply SFmul_valid; apply F32_params. Qed.

Lemma F32_mul_finite_inv (x y : F32.t) :
  SFis_finite (F32.mul x y) = true →
  SFis_finite x = true ∧ SFis_finite y = true
  ∧ SFsign (F32.mul x y) = xorb (SFsign x) (SFsign y).
Proof. apply SFmul_finite_inv. Qed.

Lemma Forall_Forall_map {A B} (P : B → Prop) (f : A → B) (l : list (list A)) :
  (∀ a, P (f a)) → Forall (Forall P) (map (map f) l).
Proof.
  intros Hf. apply Forall_fmap, Forall_forall. intros row _.
  apply Forall_fmap, Forall_forall. intros a _. apply Hf.
Qed.

Lemma Forall_Forall_map_impl {A B} (P : A → Prop) (Q : B → Prop) (f : A → B)
    (l : list (list A)) :
  (∀ a, P a → Q (f a)) → Forall (Forall P) l → Forall (Forall Q) (map (map f) l).
Proof.
  intros Hf Hl. apply Forall_fmap. eapply Forall_impl; [exact Hl |].
  intros row Hrow. apply Forall_fmap. eapply Forall_impl; [exact Hrow |]. exact Hf.
Qed.

Lemma Forall_zip_with_both {A B C} (P : A → Prop) (Q : B → Prop) (R : C → Prop)
    (f : A → B → C) (l : list A) (k : list B) :
  (∀ a b, P a → Q b → R (f a b)) → Forall P l → Forall Q k → Forall R (zip_with f l k).
Proof.
  intros Hf Hl. revert k. induction Hl as [| a l Ha Hl IH]; intros k Hk; [constructor |].
  destruct Hk as [| b k Hb Hk]; [constructor |]. simpl. constructor; auto.
Qed.

Section KernelEntries.
Variable torch_exp : F32.t → F32.t.
Hypothesis Hexp : exp_nonneg torch_exp.

(** Every entry of a one-dimensional factor is a float32 that, when
    finite, has the sign of the coefficient it was multiplied with. *)
Lemma gauss_factor_entries (size_1d : Z) (std_1d : F64.t) (g f : list (list F32.t)) :
  gauss_factor torch_exp size_1d std_1d g = Ok f →
  let c := to_f32 (F64.div (F64.of_Z 1)
                     (F64.mul std_1d (F64.sqrt (F64.mul (F64.of_Z 2) math_pi)))) in
  Forall (Forall (λ a, F32.valid a = true
                       ∧ (SFis_finite a = true → SFsign a = SFsign c))) f.
Proof.
  unfold gauss_factor. destruct (F64.eqb _ _); [done |]. intros Hf.
  apply (f_equal (λ r, match r with Ok v => v | Raise _ => f end)) in Hf.
  cbv beta iota in Hf. rewrite <- Hf. clear Hf.
  cbv zeta. set (c := to_f32 (F64.div (F64.of_Z 1) _)).
  apply Forall_Forall_map. intros x.
  match goal with |- context [torch_exp ?a] => destruct (Hexp a) as [Hv Hs] end.
  split.
  - apply F32_mul_valid; [apply to_f32_valid | exact Hv].
  - intros Hfin. destruct (F32_mul_finite_inv _ _ Hfin) as (_ & _ & ->).
    rewrite Hs. by destruct (SFsign c).
Qed.

(** Every entry of an un-normalized kernel is a float32, and is not
    negative when it is finite: it is the product of two factors of the
    same sign. *)
Lemma gauss_kernel_entries (kernel_size : Z) (sigma : F64.t) (r : list F32.t)
    (k : list (list F32.t)) :
  gauss_kernel torch_exp kernel_size sigma (meshgrid r r) = Ok k →
  Forall (Forall (λ x, F32.valid x = true ∧ (SFis_finite x = true → SFsign x = false))) k.
Proof.
  destruct (meshgrid_rect r) as (g0 & g1 & -> & _ & _).
  unfold gauss_kernel.
  destruct (gauss_factor _ _ _ g0) as [f0|] eqn:Hf0; [cbn [rbind] | done].
  destruct (gauss_factor _ _ _ g1) as [f1|] eqn:Hf1; [cbn [rbind] | done].
  intros [= <-].
  apply gauss_factor_entries in Hf0, Hf1. cbv zeta in Hf0, Hf1.
  set (c := to_f32 _) in *.
  eapply Forall_zip_with_both; [| | exact Hf1].
  2:{ eapply (Forall_Forall_map_impl _
              (λ a, F32.valid a = true ∧ (SFis_finite a = true → SFsign a = SFsign c)));
        [| exact Hf0].
      intros a [Hv Hs]. split.
      - by apply F32_mul_valid.
      - intros Hfin. destruct (F32_mul_finite_inv _ _ Hfin) as (Ha & _ & ->).
        rewrite (Hs Ha). by destruct (SFsign c). }
  intros row0 row1 Hr0 Hr1. cbv beta.
  eapply Forall_zip_with_both; [| exact Hr0 | exact Hr1].
  intros a b [Hva Hsa] [Hvb Hsb]. split.
  - by apply F32_mul_valid.
  - intros Hfin. destruct (F32_mul_finite_inv _ _ Hfin) as (Ha & Hb & ->).
    rewrite (Hsa Ha), (Hsb Hb). by destruct (SFsign c).
Qed.
End KernelEntries.

Lemma length_concat_rect {A} (H W : nat) (k : list (list A)) :
  rect2 H W k → length (concat k) = H * W.
Proof.
  intros [<- Hrows]. induction Hrows as [| row k Hrow _ IH]; [done |].
  simpl. rewrite length_app, IH, Hrow. lia.
Qed.

(** ** The normalized kernels *)

(** Dividing a kernel of finite, non-negative entries by a faithful,
    finite and non-zero sum leaves entries that add up to 1 within
    [1e-6], in each of the three channel copies. *)
Lemma prepare_kernel_sums_to_one (torch_sum : list (list F32.t) → F32.t)
    (k : list (list F32.t)) (n : nat) (w : tensor4 F32.t) :
  Forall (Forall (λ x, F32.valid x = true ∧ (SFis_finite x = true → SFsign x = false))) k →
  rect2 n n k → (Z.of_nat n < 2 ^ 63)%Z →
  sum_faithful torch_sum k →
  SFis_finite (torch_sum k) = true → ¬ (SF2Q (torch_sum k) == 0)%Q →
  prepare_kernel torch_sum true k = Ok w →
  sums_to_one (1 # 1000000) w.
Proof.
  intros Hent Hrect Hn Hsf Hfin Hne Hw.
  destruct (Hsf Hfin) as (Hv & Hallfin & Hacc).
  unfold prepare_kernel, to_device in Hw. injection Hw as <-.
  set (S := torch_sum k) in *.
  assert (Forall (λ x, fv32 x ∧ (0 <= SF2Q x)%Q) (concat k)) as Hk.
  { apply Forall_concat, Forall_forall. intros row Hrow.
    apply Forall_forall. intros x Hx.
    pose proof (proj1 (Forall_forall _ _) Hent row Hrow) as Hr1.
    pose proof (proj1 (Forall_forall _ _) Hallfin row Hrow) as Hr2.
    destruct (proj1 (Forall_forall _ _) Hr1 x Hx) as [Hvx Hsx].
    pose proof (proj1 (Forall_forall _ _) Hr2 x Hx) as Hfx. cbv beta in Hfx.
    split; [by split |]. apply SF2Q_nonneg. auto. }
  assert (Z.of_nat (length (concat k)) ≤ 2 ^ 126)%Z as Hlen.
  { rewrite (length_concat_rect n n k Hrect). nia. }
  destruct (normalized_kernel S (concat k) Hk (conj Hfin Hv) Hne Hacc Hlen)
    as [Hfv Hsum].
  rewrite concat_map in Hfv, Hsum.
  assert (Forall (λ x, SFis_finite x = true)
            (concat (map (map (λ x, F32.div x S)) k))) as Hfin'.
  { eapply Forall_impl; [exact Hfv |]. by intros x [Hx _]. }
  unfold sums_to_one, kernel_entries. cbn [replicate concat app map].
  repeat (constructor; [by split |]). constructor.
Qed.

(** X17.  When the construction succeeds and [torch.sum] of each
    un-normalized kernel is finite and not zero, each of the three kernels
    of the bank has finite entries that sum to 1 within [1e-6], in every
    channel; [torch.exp] is taken to return non-negative float32 numbers
    and [torch.sum] to be accurate to 4 units in the last place (a relative
    [2^-21]).  The bound is the error of the sum, plus a relative [2^-23]
    for the divisions, plus [2^-150] for each quotient that underflows. *)
Theorem smoother_kernels_sum_to_one
    (torch_exp : F32.t → F32.t) (torch_sum : list (list F32.t) → F32.t)
    (kernel_size : Z) (sigma : F64.t) (s : CascadeGaussianSmoothing)
    (ks : list (list (list F32.t))) :
  exp_nonneg torch_exp →
  CascadeGaussianSmoothing_init torch_exp torch_sum true kernel_size sigma = Ok s →
  kernels torch_exp kernel_size sigma = Ok ks →
  Forall (sum_faithful torch_sum) ks →
  Forall (λ k, SFis_finite (torch_sum k) = true ∧ ¬ (SF2Q (torch_sum k) == 0)%Q) ks →
  Forall (sums_to_one (1 # 1000000)) [weight1 s; weight2 s; weight3 s].
Proof.
  intros Hexp Hinit Hks Hsf Hfin.
  unfold CascadeGaussianSmoothing_init in Hinit.
  destruct (py_int _) as [p|]; [cbn [rbind] in Hinit | done].
  rewrite Hks in Hinit. cbn [rbind] in Hinit.
  apply kernels_inv in Hks as (Hsize & r & a & b & c & _ & -> & Hk).
  assert (Forall (λ k, ∀ w, prepare_kernel torch_sum true k = Ok w →
                            sums_to_one (1 # 1000000) w) [a; b; c]) as Hall.
  { apply Forall_forall. intros k Hin w Hw.
    pose proof (proj1 (Forall_forall _ _) Hsf k Hin) as Hsfk.
    destruct (proj1 (Forall_forall _ _) Hfin k Hin) as [Hfk Hnk].
    apply list_elem_of_lookup in Hin as [i Hi].
    destruct (Forall2_lookup_r _ _ _ _ _ Hk Hi) as (coeff & _ & Hg & Hrect).
    apply (prepare_kernel_sums_to_one torch_sum k (Z.to_nat kernel_size)); try done.
    - by eapply gauss_kernel_entries.
    - lia. }
  destruct (mapM _ _) as [prepared|] eqn:Hprep; [cbn [rbind] in Hinit | done].
  apply mapM_Forall2 in Hprep.
  apply Forall2_cons_inv_l in Hprep as (w1 & p1 & Hw1 & Hprep & ->).
  apply Forall2_cons_inv_l in Hprep as (w2 & p2 & Hw2 & Hprep & ->).
  apply Forall2_cons_inv_l in Hprep as (w3 & p3 & Hw3 & Hprep & ->).
  apply Forall2_nil_inv_l in Hprep as ->.
  injection Hinit as <-. cbn [weight1 weight2 weight3].
  apply Forall_cons in Hall as [Ha Hall]. apply Forall_cons in Hall as [Hb Hall].
  apply Forall_cons in Hall as [Hc _].
  repeat constructor; auto.
Qed.

Lemma exp_model_nonneg : exp_nonneg exp_model.
Proof.
  intros x. destruct x as [s | s | | s m e]; cbn [exp_model].
  - split; reflexivity.
  - destruct s; split; reflexivity.
  - split; reflexivity.
  - destruct (Qle_bool 89 _); [split; reflexivity |].
    destruct (Qle_bool _ (-104)); [split; reflexivity |]. cbv zeta.
    set (k := Qfloor (_ / ln2 + _)). set (z := Qfloor (_ * _)).
    pose proof (Z.le_max_l 0 z) as Hz.
    destruct (Z.max 0 z) as [|p|p]; [split; reflexivity | | lia].
    cbn [binary_normalize]. split.
    + apply binary_round_valid; apply F32_params.
    + destruct (binary_round_sign F32.prec F32.emax false p (k - 40)) as [Hn | Hs];
        [| exact Hs].
      by destruct (binary_round _ _ _ _ _).
Qed.

(** C5, the failing input: kernel size 3 and sigma [1e-20] on a CUDA host,
    an odd positive kernel size and a positive sigma.  The construction
    returns, and the centre entry of every kernel of the three weights is
    NaN, so that no kernel sums to 1 (with the reference exponential and the
    in-order sum in the place of [torch.exp] and [torch.sum]). *)
Lemma small_sigma_gives_nan_kernels :
  ∃ s : CascadeGaussianSmoothing,
    CascadeGaussianSmoothing_init exp_model sum_in_order true 3
      (F64.literal 1 (10 ^ 20)) = Ok s
    ∧ Forall (λ w : tensor4 F32.t,
                Forall (Forall (λ k : list (list F32.t),
                                  k !! 1 ≫= (.!! 1) = Some S754_nan)) w)
        [weight1 s; weight2 s; weight3 s].
Proof.
  eexists. split; [vm_compute; reflexivity |].
  cbn [weight1 weight2 weight3]. repeat constructor.
Qed.

(** C5, the claim as stated fails for a small sigma: with kernel size 3 and
    sigma [1e-20] the construction succeeds, but the centre of each
    un-normalized kernel is the square of a coefficient near [1e20], which
    overflows to infinity in float32; the sum is infinite, and the
    division leaves a NaN at the centre of every kernel. *)
Lemma kernel_sum_fails_for_small_sigma :
  ¬ (∀ (torch_exp : F32.t → F32.t) (torch_sum : list (list F32.t) → F32.t)
       (kernel_size : Z) (sigma : F64.t) (s : CascadeGaussianSmoothing)
       (ks : list (list (list F32.t))),
       exp_nonneg torch_exp →
       Z.odd kernel_size = true → (0 < kernel_size)%Z →
       F64.ltb F64.zero sigma = true →
       CascadeGaussianSmoothing_init torch_exp torch_sum true kernel_size sigma = Ok s →
       kernels torch_exp kernel_size sigma = Ok ks →
       Forall (sum_faithful torch_sum) ks →
       Forall (sums_to_one (1 # 1000000)) [weight1 s; weight2 s; weight3 s]).
Proof.
  intros Hclaim.
  set (sigma := F64.literal 1 (10 ^ 20)).
  set (k := [[F32.zero; F32.zero; F32.zero];
             [F32.zero; S754_infinity false; F32.zero];
             [F32.zero; F32.zero; F32.zero]]).
  assert (kernels exp_model 3 sigma = Ok [k; k; k]) as Hk by (vm_compute; reflexivity).
  destruct (CascadeGaussianSmoothing_init exp_model sum_in_order true 3 sigma)
    as [s|] eqn:Hs; [| vm_compute in Hs; discriminate Hs].
  assert (Forall (sum_faithful sum_in_order) [k; k; k]) as Hsum.
  { assert (sum_faithful sum_in_order k) as Hinf
      by (intros Hfin; vm_compute in Hfin; discriminate Hfin).
    repeat (constructor; [exact Hinf |]). constructor. }
  specialize (Hclaim exp_model sum_in_order 3%Z sigma s [k; k; k] exp_model_nonneg
                eq_refl ltac:(lia) eq_refl Hs Hk Hsum).
  vm_compute in Hs. injection Hs as <-. cbn [weight1] in Hclaim.
  apply Forall_inv in Hclaim. unfold sums_to_one, kernel_entries in Hclaim.
  cbn [concat app map] in Hclaim. apply Forall_inv in Hclaim as [Hfin _].
  pose proof (Forall_lookup_1 _ _ 4 S754_nan Hfin eq_refl) as Hnan.
  discriminate Hnan.
Qed.

Lemma smoother_kernels_sum_to_one_witness :
  ∃ s, CascadeGaussianSmoothing_init exp_model sum_in_order true 3 (F64.of_Z 1) = Ok s
       ∧ Forall (sums_to_one (1 # 1000000)) [weight1 s; weight2 s; weight3 s].
Proof.
  destruct (CascadeGaussianSmoothing_init exp_model sum_in_order true 3 (F64.of_Z 1))
    as [s|] eqn:Hs; [| vm_compute in Hs; discriminate Hs].
  exists s. split; [reflexivity |].
  eapply (smoother_kernels_sum_to_one exp_model sum_in_order 3 (F64.of_Z 1) s).
  - exact exp_model_nonneg.
  - exact Hs.
  - vm_compute. reflexivity.
  - repeat (constructor;
              [intros _; split; [vm_compute; reflexivity |];
               split; [repeat constructor | apply Qle_by_bool; vm_compute; reflexivity] |]).
    constructor.
  - repeat (constructor;
              [split; [vm_compute; reflexivity |];
               intros Hz; vm_compute in Hz; discriminate Hz |]).
    constructor.
Defined.

(* ===================================================================== *)
(** * Further properties: [clip] *)

Lemma SFltb_irrefl (x : spec_float) : SFltb x x = false.
Proof.
  destruct x as [s | s | | s m e].
  - reflexivity.
  - by destruct s.
  - reflexivity.
  - unfold SFltb, SFcompare.
    assert (Pos.compare_cont Eq m m = Eq) as Hm by apply Pos.compare_cont_refl.
    destruct s; by rewrite Z.compare_refl, Hm.
Qed.

(** Clamping twice is clamping once, for all floats and bounds. *)
Lemma clamp_idemp (lo hi x : F32.t) : clamp lo hi (clamp lo hi x) = clamp lo hi x.
Proof.
  unfold clamp, F32.ltb.
  destruct (SFltb x lo) eqn:Hx.
  - destruct (SFltb hi lo) eqn:Hl.
    + rewrite Hl. by rewrite Hl.
    + rewrite SFltb_irrefl. by rewrite Hl.
  - destruct (SFltb hi x) eqn:Hh.
    + destruct (SFltb hi lo) eqn:Hl.
      * by rewrite Hl.
      * by rewrite SFltb_irrefl.
    + by rewrite Hx, Hh.
Qed.

Lemma clamp_channel_idemp (m s : F32.t) (ch : list (list F32.t)) :
  clamp_channel m s (clamp_channel m s ch) = clamp_channel m s ch.
Proof.
  unfold clamp_channel. rewrite <- list_fmap_compose.
  apply list_fmap_ext. intros _ row _. cbn. rewrite <- list_fmap_compose.
  apply list_fmap_ext. intros _ x _. cbn. apply clamp_idemp.
Qed.

Lemma length_clip_data (self : Utils) (b : tensor3 F32.t) :
  length b ≤ length (zip (mean self) (stdv self)) →
  length (clip_data self b) = length b.
Proof. intros H. unfold clip_data. rewrite length_zip_with. lia. Qed.

Lemma clip_data_idemp (self : Utils) (b : tensor3 F32.t) :
  clip_data self (clip_data self b) = clip_data self b.
Proof.
  unfold clip_data. generalize (zip (mean self) (stdv self)). intros ms.
  revert ms. induction b as [| ch b IH]; intros [| [m s] ms]; simpl; try done.
  by rewrite clamp_channel_idemp, IH.
Qed.

Lemma for_each_app {A} (body : A → M unit) (l1 l2 : list A) σ σ1 :
  for_each body l1 σ = (Ok tt, σ1) →
  for_each body (l1 ++ l2) σ = for_each body l2 σ1.
Proof.
  revert σ. induction l1 as [| x l1 IH]; intros σ; simpl.
  - by intros [= ->].
  - unfold mbind, M_bind. destruct (body x σ) as [[[]|e] σ']; [apply IH | done].
Qed.

(** The loop of [clip] from channel [length done] on: the channels [todo]
    are clamped one after the other, each with the bounds of its index;
    the channels [later] are not visited. *)
Lemma for_each_clip_channels (self : Utils) (h : nat) (rest : tensor4 F32.t) (lf : bool)
    (later todo done : tensor3 F32.t) (σ : gmap nat tensor_obj) :
  σ !! h = Some {| data := (done ++ todo ++ later) :: rest; requires_grad := false;
                   is_leaf := lf |} →
  length done + length todo ≤ length (zip (mean self) (stdv self)) →
  for_each (clip_channel self h) (seq (length done) (length todo)) σ =
    (Ok tt,
     <[h := {| data := (done ++ zip_with (λ ch (ms : F32.t * F32.t),
                                            clamp_channel ms.1 ms.2 ch)
                             todo (drop (length done) (zip (mean self) (stdv self)))
                        ++ later) :: rest;
               requires_grad := false; is_leaf := lf |}]> σ).
Proof.
  revert done σ. induction todo as [| ch todo IH]; intros done σ Hh Hlen.
  - simpl. by rewrite insert_id.
  - cbn [length seq for_each]. cbn [length] in Hlen.
    destruct (lookup_lt_is_Some_2 (zip (mean self) (stdv self)) (length done))
      as [[m s] Hms]; [lia |].
    apply lookup_zip_Some in Hms as Hms'. destruct Hms' as [Hm Hs].
    rewrite (drop_S _ _ _ Hms). cbn [zip_with fst snd].
    erewrite bind_ok;
      [| eapply clip_channel_ok; [exact Hm | exact Hs | exact Hh | reflexivity |] ].
    2:{ unfold get_0c. cbn. rewrite lookup_app_r by lia.
        by rewrite Nat.sub_diag. }
    cbn [data requires_grad is_leaf set_0c].
    rewrite insert_app_r_alt by lia. rewrite Nat.sub_diag. cbn [insert list_insert app].
    fold (clamp_channel m s ch).
    specialize (IH (done ++ [clamp_channel m s ch])
                  (<[h := {| data := (done ++ clamp_channel m s ch :: todo ++ later) :: rest;
                             requires_grad := false; is_leaf := lf |}]> σ)).
    rewrite length_app in IH. cbn [length] in IH.
    replace (length done + 1) with (S (length done)) in IH by lia.
    rewrite IH.
    + rewrite insert_insert_eq. by rewrite <- app_assoc.
    + rewrite lookup_insert_eq. by rewrite <- app_assoc.
    + lia.
Qed.

(** [clip] on a tensor whose channels do not outnumber the means and the
    deviations of the profile. *)
Lemma clip_channels (self : Utils) (σ : gmap nat tensor_obj) (h : nat) (o : tensor_obj)
    (b : tensor3 F32.t) (rest : tensor4 F32.t) :
  σ !! h = Some o → requires_grad o = false → data o = b :: rest →
  length b ≤ length (zip (mean self) (stdv self)) →
  clip self h σ =
    (Ok h, <[h := {| data := clip_data self b :: rest;
                     requires_grad := requires_grad o;
                     is_leaf := is_leaf o |}]> σ).
Proof.
  intros Hh Hg Hd Hlen. unfold clip.
  rewrite (bind_ok _ _ _ _ _ (read_ok _ _ _ Hh)). rewrite Hd. cbn [shape1].
  pose proof (for_each_clip_channels self h rest (is_leaf o) [] b [] σ) as Hloop.
  cbn [length app] in Hloop. rewrite drop_0, !app_nil_r in Hloop.
  rewrite Hg. erewrite bind_ok; [reflexivity |]. apply Hloop; [| lia].
  rewrite Hh. f_equal. destruct o. cbn in *. by subst.
Qed.

Lemma clip_data_take (self : Utils) (b : tensor3 F32.t) :
  clip_data self (take (length (zip (mean self) (stdv self))) b) = clip_data self b.
Proof.
  unfold clip_data. generalize (zip (mean self) (stdv self)). intros ms.
  revert b. induction ms as [| p ms IH]; intros [| ch b]; simpl; try done.
  by rewrite IH.
Qed.

(** With more channels than the profile has means, [clip] raises
    [IndexError] at the first channel without a mean, and the channels
    before it have already been clamped in the tensor. *)
Lemma clip_extra_channels (self : Utils) (σ : gmap nat tensor_obj) (h : nat) (o : tensor_obj)
    (b : tensor3 F32.t) (rest : tensor4 F32.t) :
  σ !! h = Some o → requires_grad o = false → data o = b :: rest →
  length (zip (mean self) (stdv self)) < length b →
  clip self h σ =
    (Raise IndexError,
     <[h := {| data := (clip_data self b
                        ++ drop (length (zip (mean self) (stdv self))) b) :: rest;
               requires_grad := requires_grad o;
               is_leaf := is_leaf o |}]> σ).
Proof.
  intros Hh Hg Hd Hlen. unfold clip. rewrite Hg.
  rewrite (bind_ok _ _ _ _ _ (read_ok _ _ _ Hh)). rewrite Hd. cbn [shape1].
  pose proof (clip_data_take self b) as Htake. unfold clip_data in Htake |- *.
  set (ms := zip (mean self) (stdv self)) in *. set (k := length ms) in *.
  replace (length b) with (k + S (length b - S k)) by lia. rewrite seq_app.
  pose proof (for_each_clip_channels self h rest (is_leaf o) (drop k b) (take k b) []
                σ) as Hloop.
  cbn [length app] in Hloop. rewrite drop_0 in Hloop. fold ms in Hloop.
  rewrite length_take in Hloop. rewrite Nat.min_l in Hloop by lia.
  rewrite Htake in Hloop.
  erewrite bind_raise; [reflexivity |].
  rewrite (for_each_app _ _ _ _ _ (Hloop ltac:(rewrite Hh, take_drop; f_equal;
                                          destruct o; cbn in *; by subst) ltac:(lia))).
  cbn [seq for_each Nat.add]. erewrite bind_raise; [reflexivity |].
  unfold clip_channel.
  assert (ms !! k = None) as Hnone by (apply lookup_ge_None_2; lia).
  apply lookup_zip_None in Hnone as [Hm | Hs].
  - unfold mbind, M_bind, lift. rewrite Hm. reflexivity.
  - unfold mbind, M_bind, lift. rewrite Hs.
    by destruct (mean self !! k).
Qed.

(** X1.  [clip] is idempotent on a tensor that does not require grad: a
    second call on the tensor it returned changes nothing, whatever the
    values (NaN and infinities included) and the number of channels. *)
Theorem clip_idempotent
    (self : Utils) (σ σ' : gmap nat tensor_obj) (h x : nat) (o : tensor_obj) :
  σ !! h = Some o → requires_grad o = false →
  clip self h σ = (Ok x, σ') → clip self h σ' = (Ok x, σ').
Proof.
  intros Hh Hg Hc.
  destruct (data o) as [| b rest] eqn:Hd.
  { unfold clip in *. rewrite (bind_ok _ _ _ _ _ (read_ok _ _ _ Hh)) in Hc.
    rewrite Hd in Hc. cbn in Hc. injection Hc as <- <-.
    rewrite (bind_ok _ _ _ _ _ (read_ok _ _ _ Hh)). by rewrite Hd. }
  destruct (decide (length b ≤ length (zip (mean self) (stdv self)))) as [Hlen | Hlen].
  - rewrite (clip_channels self σ h o b rest Hh Hg Hd Hlen) in Hc.
    injection Hc as <- <-.
    rewrite (clip_channels self _ h
               {| data := clip_data self b :: rest; requires_grad := requires_grad o;
                  is_leaf := is_leaf o |}
               (clip_data self b) rest (lookup_insert_eq _ _ _) Hg eq_refl).
    + cbn [requires_grad]. by rewrite insert_insert_eq, clip_data_idemp.
    + by rewrite length_clip_data.
  - rewrite (clip_extra_channels self σ h o b rest Hh Hg Hd ltac:(lia)) in Hc.
    discriminate Hc.
Qed.

Lemma clip_idempotent_witness :
  let t : tensor4 F32.t :=
    [[ [[F32.of_Z 5; S754_nan]]; [[F32.of_Z (-7); F32.zero]];
       [[F32.one; S754_infinity false]] ]] in
  let σ : gmap nat tensor_obj := {[ 0 := mkTensor t false true ]} in
  let u := vgg19_profile "vgg19" in
  clip u 0 (clip u 0 σ).2 = (Ok 0, (clip u 0 σ).2).
Proof.
  intros t σ u.
  apply (clip_idempotent u σ (clip u 0 σ).2 0 0 (mkTensor t false true)).
  - reflexivity.
  - reflexivity.
  - vm_compute. reflexivity.
Defined.



(** The comparison of two floats, read the other way round. *)
Lemma SFcompare_antisym (x y : spec_float) :
  SFcompare y x = option_map CompOpp (SFcompare x y).
Proof.
  destruct x as [sx | sx | | sx mx ex], y as [sy | sy | | sy my ey];
    try reflexivity; try (by destruct sx); try (by destruct sy);
    try (by destruct sx, sy).
  unfold SFcompare, option_map. f_equal.
  rewrite (Z.compare_antisym ey ex).
  change (Pos.compare_cont Eq mx my) with (Pos.compare_cont (CompOpp Eq) mx my).
  rewrite <- (Pos.compare_cont_antisym my mx Eq).
  by destruct sx, sy, (ey ?= ex)%Z, (Pos.compare_cont Eq my mx).
Qed.

Lemma SFleb_not_ltb (x y : spec_float) : SFleb x y = true → SFltb y x = false.
Proof.
  unfold SFleb, SFltb. rewrite (SFcompare_antisym x y).
  by destruct (SFcompare x y) as [[]|].
Qed.

(** A value within the bounds is left as it is. *)
Lemma clamp_within_id (lo hi x : F32.t) : within lo hi x → clamp lo hi x = x.
Proof.
  intros [Hlo Hhi]. unfold clamp, F32.ltb.
  by rewrite (SFleb_not_ltb lo x Hlo), (SFleb_not_ltb x hi Hhi).
Qed.

Lemma zip_with_id_l {A B} (f : A → B → A) (l : list A) (k : list B) :
  length l ≤ length k →
  (∀ i x y, l !! i = Some x → k !! i = Some y → f x y = x) →
  zip_with f l k = l.
Proof.
  revert k. induction l as [| x l IH]; intros [| y k] Hlen Hf; simpl in *;
    [done | done | lia |].
  rewrite (Hf 0 x y eq_refl eq_refl). f_equal. apply IH; [lia |].
  intros i. apply (Hf (S i)).
Qed.

(** X2.  [clip] changes nothing in a tensor whose values are already within
    the bounds of their channels. *)
Theorem clip_in_range_unchanged
    (self : Utils) (σ : gmap nat tensor_obj) (h : nat) (o : tensor_obj)
    (b : tensor3 F32.t) (rest : tensor4 F32.t) :
  σ !! h = Some o → requires_grad o = false → data o = b :: rest →
  length b ≤ length (mean self) → length b ≤ length (stdv self) →
  (∀ c ch m s, b !! c = Some ch → mean self !! c = Some m → stdv self !! c = Some s →
     Forall (Forall (within (clip_lo m s) (clip_hi m s))) ch) →
  clip self h σ = (Ok h, σ).
Proof.
  intros Hh Hg Hd Hm Hs Hin.
  rewrite (clip_channels self σ h o b rest Hh Hg Hd) by (rewrite length_zip; lia).
  f_equal. apply insert_id. rewrite Hh. f_equal.
  destruct o as [d rg]. cbn in *. subst d. f_equal. f_equal.
  unfold clip_data. symmetry. apply zip_with_id_l; [rewrite length_zip; lia |].
  intros c ch [m s] Hch Hms. apply lookup_zip_Some in Hms as [Hmc Hsc]. cbn [fst snd].
  specialize (Hin c ch m s Hch Hmc Hsc). unfold clamp_channel.
  rewrite <- (list_fmap_id ch) at 2. apply list_fmap_ext. intros i row Hrow. cbn.
  rewrite <- (list_fmap_id row) at 2. apply list_fmap_ext. intros j x Hx. cbn.
  apply clamp_within_id.
  pose proof (proj1 (Forall_lookup _ _) Hin i row Hrow) as Hr.
  exact (proj1 (Forall_lookup _ _) Hr j x Hx).
Qed.

Lemma clip_in_range_unchanged_witness :
  let t : tensor4 F32.t :=
    [[ [[F32.zero; F32.one]]; [[F32.one; F32.zero]]; [[F32.zero; F32.zero]] ]] in
  let σ : gmap nat tensor_obj := {[ 0 := mkTensor t false true ]} in
  clip (vgg19_profile "vgg19") 0 σ = (Ok 0, σ).
Proof.
  intros t σ.
  apply (clip_in_range_unchanged (vgg19_profile "vgg19") σ 0 (mkTensor t false true)
           [[[F32.zero; F32.one]]; [[F32.one; F32.zero]]; [[F32.zero; F32.zero]]] []).
  - reflexivity.
  - reflexivity.
  - reflexivity.
  - cbn. lia.
  - cbn. lia.
  - intros [| [| [| c]]] ch m s Hch Hm Hs; cbn in Hch, Hm, Hs; try discriminate;
      injection Hch as <-; injection Hm as <-; injection Hs as <-;
      repeat constructor.
Defined.

Lemma clamp_nan (lo hi x : F32.t) :
  SFis_nan lo = false → SFis_nan hi = false →
  SFis_nan (clamp lo hi x) = SFis_nan x.
Proof.
  intros Hlo Hhi. unfold clamp, F32.ltb.
  destruct x as [sx | sx | | sx mx ex].
  - destruct (SFltb _ lo); [| destruct (SFltb hi _)]; try done;
      destruct (SFltb hi lo); done.
  - destruct (SFltb _ lo); [| destruct (SFltb hi _)]; try done;
      destruct (SFltb hi lo); done.
  - cbn. by destruct hi.
  - destruct (SFltb _ lo); [| destruct (SFltb hi _)]; try done;
      destruct (SFltb hi lo); done.
Qed.

Lemma Forall2_fmap_self {A B} (R : A → B → Prop) (f : A → B) (l : list A) :
  (∀ x, R x (f x)) → Forall2 R l (f <$> l).
Proof. intros Hf. induction l; constructor; auto. Qed.

(** X4.  [clip] neither removes a NaN nor makes one: after the call the NaN
    values of the tensor are where they were, so a tensor with a NaN is
    not brought into the pixel range by [clip]. *)
Theorem clip_keeps_nan
    (name : string) (self : Utils) (σ : gmap nat tensor_obj) (h : nat) (o : tensor_obj)
    (c0 c1 c2 : list (list F32.t)) (rest : tensor4 F32.t) :
  Utils_init name = Ok self →
  σ !! h = Some o → requires_grad o = false →
  data o = [c0; c1; c2] :: rest →
  ∃ clipped : tensor3 F32.t,
    clip self h σ =
      (Ok h, <[h := {| data := clipped :: rest; requires_grad := requires_grad o;
                       is_leaf := is_leaf o |}]> σ)
    ∧ Forall2 (Forall2 (Forall2 (λ x y, SFis_nan y = SFis_nan x))) [c0; c1; c2] clipped.
Proof.
  intros Hinit Hh Hg Hd. apply Utils_init_inv in Hinit as ->.
  eexists. split.
  - by apply (clip_three_channels _ σ h o c0 c1 c2 rest).
  - repeat constructor; unfold clamp_channel;
      (apply Forall2_fmap_self; intros row; apply Forall2_fmap_self; intros x;
       by apply clamp_nan).
Qed.

Lemma clip_keeps_nan_witness :
  let t : tensor4 F32.t :=
    [[ [[S754_nan; F32.of_Z 5]]; [[F32.zero; S754_nan]]; [[F32.one; F32.one]] ]] in
  let σ : gmap nat tensor_obj := {[ 0 := mkTensor t false true ]} in
  ∃ clipped : tensor3 F32.t,
    clip (vgg19_profile "vgg19") 0 σ =
      (Ok 0, <[0 := {| data := clipped :: []; requires_grad := false; is_leaf := true |}]> σ)
    ∧ Forall2 (Forall2 (Forall2 (λ x y, SFis_nan y = SFis_nan x)))
        [[[S754_nan; F32.of_Z 5]]; [[F32.zero; S754_nan]]; [[F32.one; F32.one]]] clipped.
Proof.
  intros t σ.
  apply (clip_keeps_nan "vgg19" (vgg19_profile "vgg19") σ 0 (mkTensor t false true)
           [[S754_nan; F32.of_Z 5]] [[F32.zero; S754_nan]] [[F32.one; F32.one]] []).
  - reflexivity.
  - reflexivity.
  - reflexivity.
  - reflexivity.
Defined.

(** * Further properties: [denormalize] *)

(** X5.  [denormalize] on a tensor of shape [(1, 3, H, W)] that does not require
    grad (torch refuses [numpy()] on one that does): the image has shape
    [(H, W, 3)], and its pixel at [(i, j)] holds, for each channel [c] in
    order, [x[c][i][j] * stdv[c] + mean[c]]. *)
Theorem denormalize_pixels
    (self : Utils) (σ : gmap nat tensor_obj) (h : nat) (o : tensor_obj)
    (H W : nat) (c0 c1 c2 : list (list F32.t)) (m0 m1 m2 s0 s1 s2 : F32.t) :
  σ !! h = Some o → requires_grad o = false →
  data o = [[c0; c1; c2]] →
  rect3 3 H W [c0; c1; c2] →
  mean self = [m0; m1; m2] → stdv self = [s0; s1; s2] →
  ∃ img : tensor3 F32.t,
    denormalize self h σ = (Ok img, σ)
    ∧ rect3 H W 3 img
    ∧ ∀ i j x0 x1 x2,
        c0 !! i ≫= (.!! j) = Some x0 → c1 !! i ≫= (.!! j) = Some x1 →
        c2 !! i ≫= (.!! j) = Some x2 →
        img !! i ≫= (.!! j)
        = Some [denorm_elem m0 s0 x0; denorm_elem m1 s1 x1; denorm_elem m2 s2 x2].
Proof.
  intros Hh Hg Hd [_ Hrect] Hm Hs.
  apply Forall_cons in Hrect as [R0 Hrect]. apply Forall_cons in Hrect as [R1 Hrect].
  apply Forall_cons in Hrect as [R2 _].
  eexists. split.
  { unfold denormalize. rewrite (bind_ok _ _ _ _ _ (read_ok _ _ _ Hh)).
    unfold lift. rewrite Hg, Hd, denormalize_data_batch1; [reflexivity | done | |];
      [by rewrite Hm | by rewrite Hs]. }
  unfold denorm_chw. rewrite Hm, Hs. cbn [zip_with].
  destruct (transpose_120_3_pixels H W
              (map (map (λ x, F32.add x m0)) (map (map (λ x, F32.mul x s0)) c0))
              (map (map (λ x, F32.add x m1)) (map (map (λ x, F32.mul x s1)) c1))
              (map (map (λ x, F32.add x m2)) (map (map (λ x, F32.mul x s2)) c2)))
    as [Hshape Hpix]; [by do 2 apply rect2_map .. |].
  split; [exact Hshape |].
  intros i j x0 x1 x2 E0 E1 E2. apply Hpix.
  - rewrite !list_lookup_fmap. destruct (c0 !! i) as [row|]; [| done]. cbn in E0 |- *.
    rewrite !list_lookup_fmap, E0. done.
  - rewrite !list_lookup_fmap. destruct (c1 !! i) as [row|]; [| done]. cbn in E1 |- *.
    rewrite !list_lookup_fmap, E1. done.
  - rewrite !list_lookup_fmap. destruct (c2 !! i) as [row|]; [| done]. cbn in E2 |- *.
    rewrite !list_lookup_fmap, E2. done.
Qed.

Lemma denormalize_pixels_witness :
  let u := vgg19_profile "vgg19" in
  let c0 : list (list F32.t) := [[F32.zero; F32.one]] in
  let c1 : list (list F32.t) := [[F32.one; F32.zero]] in
  let c2 : list (list F32.t) := [[F32.of_Z 2; F32.of_Z (-2)]] in
  let σ : gmap nat tensor_obj := {[ 0 := mkTensor [[c0; c1; c2]] false true ]} in
  ∃ img : tensor3 F32.t,
    denormalize u 0 σ = (Ok img, σ)
    ∧ rect3 1 2 3 img
    ∧ ∀ i j x0 x1 x2,
        c0 !! i ≫= (.!! j) = Some x0 → c1 !! i ≫= (.!! j) = Some x1 →
        c2 !! i ≫= (.!! j) = Some x2 →
        img !! i ≫= (.!! j)
        = Some [denorm_elem (S754_finite false 16273900 (-25))
                  (S754_finite false 15367930 (-26)) x0;
                denorm_elem (S754_finite false 15300821 (-25))
                  (S754_finite false 15032386 (-26)) x1;
                denorm_elem (S754_finite false 13623099 (-25))
                  (S754_finite false 15099494 (-26)) x2].
Proof.
  intros u c0 c1 c2 σ.
  apply (denormalize_pixels u σ 0 (mkTensor [[c0; c1; c2]] false true) 1 2 c0 c1 c2).
  - reflexivity.
  - reflexivity.
  - reflexivity.
  - by repeat constructor.
  - reflexivity.
  - reflexivity.
Defined.

(** X6.  The number of channels [denormalize] accepts, for a tensor of batch
    size one that does not require grad and a profile of three means and
    deviations.  A tensor with one channel is broadcast against them: the
    image has shape [(H, W, 3)] and its pixel at [(i, j)] holds
    [x * stdv[c] + mean[c]] for [c = 0, 1, 2], all computed from the one
    entry [x] at [(i, j)].  A tensor with two channels, or more than three,
    or none, raises NumPy's [ValueError]. *)
Theorem denormalize_channel_count
    (self : Utils) (σ : gmap nat tensor_obj) (h : nat) (o : tensor_obj)
    (b : tensor3 F32.t) (m0 m1 m2 s0 s1 s2 : F32.t) :
  σ !! h = Some o → requires_grad o = false →
  data o = [b] →
  mean self = [m0; m1; m2] → stdv self = [s0; s1; s2] →
  (∀ (ch : list (list F32.t)) (H W : nat), b = [ch] → rect2 H W ch →
     ∃ img : tensor3 F32.t,
       denormalize self h σ = (Ok img, σ)
       ∧ rect3 H W 3 img
       ∧ ∀ i j x, ch !! i ≫= (.!! j) = Some x →
           img !! i ≫= (.!! j)
           = Some [F32.add (F32.mul x s0) m0; F32.add (F32.mul x s1) m1;
                   F32.add (F32.mul x s2) m2])
  ∧ (length b ≠ 1 → length b ≠ 3 → denormalize self h σ = (Raise ValueError, σ)).
Proof.
  intros Hh Hg Hd Hm Hs.
  unfold denormalize. rewrite (bind_ok _ _ _ _ _ (read_ok _ _ _ Hh)).
  unfold lift. rewrite Hg, Hd. split.
  - intros ch H W -> Hch.
    assert (denormalize_data self false [[ch]] = denormalize_data self false [[ch; ch; ch]])
      as -> by (unfold denormalize_data; rewrite Hm, Hs; reflexivity).
    destruct (denormalize_data_image self H W ch ch ch m0 m1 m2 s0 s1 s2)
      as (img & -> & Hshape & Hpix);
      [split; [done | repeat (apply Forall_cons_2; [exact Hch |]); apply Forall_nil_2]
      | done | done |].
    exists img. split; [done |]. split; [done |].
    intros i j x Hx. by apply Hpix.
  - intros H1 H3. f_equal. unfold denormalize_data. rewrite Hm, Hs.
    destruct b as [| c0 [| c1 [| c2 [| c3 b]]]]; cbn in H1, H3; try done.
Qed.

Lemma denormalize_channel_count_witness :
  let u := vgg19_profile "vgg19" in
  let ch : list (list F32.t) := [[F32.zero; F32.one]] in
  let σ1 : gmap nat tensor_obj := {[ 0 := mkTensor [[ch]] false true ]} in
  let σ2 : gmap nat tensor_obj := {[ 0 := mkTensor [[ch; ch]] false true ]} in
  (∃ img : tensor3 F32.t,
     denormalize u 0 σ1 = (Ok img, σ1)
     ∧ rect3 1 2 3 img
     ∧ ∀ i j x, ch !! i ≫= (.!! j) = Some x →
         img !! i ≫= (.!! j)
         = Some [F32.add (F32.mul x (S754_finite false 15367930 (-26)))
                   (S754_finite false 16273900 (-25));
                 F32.add (F32.mul x (S754_finite false 15032386 (-26)))
                   (S754_finite false 15300821 (-25));
                 F32.add (F32.mul x (S754_finite false 15099494 (-26)))
                   (S754_finite false 13623099 (-25))])
  ∧ denormalize u 0 σ2 = (Raise ValueError, σ2).
Proof.
  intros u ch σ1 σ2. split.
  - refine (proj1 (denormalize_channel_count u σ1 0 (mkTensor [[ch]] false true) [ch]
                     _ _ _ _ _ _ _ _ _ _ _) ch 1 2 _ _).
    + reflexivity.
    + reflexivity.
    + reflexivity.
    + reflexivity.
    + reflexivity.
    + reflexivity.
    + by repeat constructor.
  - refine (proj2 (denormalize_channel_count u σ2 0 (mkTensor [[ch; ch]] false true)
                     [ch; ch] _ _ _ _ _ _ _ _ _ _ _) _ _).
    + reflexivity.
    + reflexivity.
    + reflexivity.
    + reflexivity.
    + reflexivity.
    + simpl. lia.
    + simpl. lia.
Defined.

(** * Further properties: the circular shift *)

(** Two rotations are one, by the sum of the offsets modulo the length. *)
Lemma rotate_rotate_mod {A} (a b c : nat) (l : list A) :
  ((Z.of_nat a + Z.of_nat b) `mod` Z.of_nat (length l)
   = Z.of_nat c `mod` Z.of_nat (length l))%Z →
  rotate b (rotate a l) = rotate c l.
Proof.
  intros Hab. apply list_eq. intros i.
  destruct (decide (i < length l)) as [Hi | Hi].
  - rewrite lookup_rotate_r by (by rewrite length_rotate).
    rewrite length_rotate.
    rewrite lookup_rotate_r by (apply rotate_nat_add_lt; lia).
    rewrite (lookup_rotate_r l c) by done.
    f_equal. unfold rotate_nat_add.
    rewrite Z2Nat.id by (apply Z.mod_pos; lia).
    rewrite Zplus_mod_idemp_r.
    replace (Z.of_nat a + (Z.of_nat b + Z.of_nat i))%Z
      with ((Z.of_nat a + Z.of_nat b) + Z.of_nat i)%Z by lia.
    rewrite <- Zplus_mod_idemp_l, Hab, Zplus_mod_idemp_l. done.
  - rewrite !lookup_ge_None_2; [done | rewrite length_rotate; lia |].
    rewrite !length_rotate. lia.
Qed.

(** Rolls along one dimension add up. *)
Lemma roll_roll {A} (s t : Z) (l : list A) : roll t (roll s l) = roll (s + t) l.
Proof.
  destruct l as [|x l']; [by rewrite !roll_nil |].
  unfold roll. rewrite length_rotate.
  set (n := Z.of_nat (length (x :: l'))).
  assert (0 < n)%Z by (subst n; simpl; lia).
  apply rotate_rotate_mod. fold n.
  rewrite !Z2Nat.id by (apply Z.mod_pos; lia).
  rewrite Z.mod_mod by lia. rewrite <- Zplus_mod. f_equal. lia.
Qed.

(** The offset of a roll counts modulo the length of the dimension. *)
Lemma roll_periodic {A} (s k : Z) (l : list A) :
  roll (s + k * Z.of_nat (length l)) l = roll s l.
Proof.
  destruct l as [|x l']; [by rewrite !roll_nil |].
  unfold roll. f_equal. f_equal.
  set (n := Z.of_nat (length (x :: l'))).
  replace (- (s + k * n))%Z with (- s + (- k) * n)%Z by lia.
  apply Z.mod_add. subst n. simpl. lia.
Qed.

Lemma roll_23_roll_23 {A} (a b c d : Z) (t : tensor4 A) :
  roll_23 c d (roll_23 a b t) = roll_23 (a + c) (b + d) t.
Proof.
  unfold roll_23. rewrite <- list_fmap_compose.
  apply list_fmap_ext. intros _ blk _. cbn. rewrite <- list_fmap_compose.
  apply list_fmap_ext. intros _ img _. cbn.
  rewrite roll_map, roll_roll, <- list_fmap_compose.
  apply list_fmap_ext. intros _ row _. cbn. apply roll_roll.
Qed.

Lemma roll_23_periodic {A} (N C H W : nat) (dy dx i j : Z) (t : tensor4 A) :
  rect4 N C H W t →
  roll_23 (dy + i * Z.of_nat H) (dx + j * Z.of_nat W) t = roll_23 dy dx t.
Proof.
  intros [_ Ht]. unfold roll_23.
  apply Forall_fmap_ext. eapply Forall_impl; [exact Ht |]. intros blk [_ Hb]. cbn.
  apply Forall_fmap_ext. eapply Forall_impl; [exact Hb |]. intros img [Hh Hw]. cbn.
  rewrite <- Hh, roll_periodic.
  apply Forall_fmap_ext.
  assert (Forall (λ row : list A, length row = W) (roll dy img)) as Hr.
  { rewrite roll_Permutation. exact Hw. }
  eapply Forall_impl; [exact Hr |]. intros row Hrow. cbn.
  by rewrite <- Hrow, roll_periodic.
Qed.

(** X7.  Two shifts in a row, with offsets of magnitude below [2^62], are
    the shift by the sums of the offsets: the tensor returned by the second
    has the data of the original rolled by [(dy1 + dy2, dx1 + dx2)]. *)
Theorem shift_compose
    (self : Utils) (σ : gmap nat tensor_obj) (h : nat) (o : tensor_obj)
    (dy1 dx1 dy2 dx2 : Z) :
  σ !! h = Some o →
  (- 2 ^ 62 < dy1 < 2 ^ 62)%Z → (- 2 ^ 62 < dx1 < 2 ^ 62)%Z →
  (- 2 ^ 62 < dy2 < 2 ^ 62)%Z → (- 2 ^ 62 < dx2 < 2 ^ 62)%Z →
  ∃ (h' : nat) (σ' : gmap nat tensor_obj),
    (h1 ← random_circular_spatial_shift self h dy1 dx1 false;
     random_circular_spatial_shift self h1 dy2 dx2 false) σ = (Ok h', σ')
    ∧ σ' !! h' = Some {| data := roll_23 (dy1 + dy2) (dx1 + dx2) (data o);
                         requires_grad := true; is_leaf := true |}.
Proof.
  intros Hh Hdy1 Hdx1 Hdy2 Hdx2.
  pose proof (shift_spec self σ h o dy1 dx1 false Hh ltac:(lia) ltac:(lia)) as H1.
  cbv iota in H1.
  set (h1 := fresh (dom σ)) in *.
  set (o1 := {| data := roll_23 dy1 dx1 (data o); requires_grad := true;
                is_leaf := true |}) in *.
  set (σ1 := <[h1 := o1]> σ) in *.
  assert (σ1 !! h1 = Some o1) as Hh1 by apply lookup_insert_eq.
  pose proof (shift_spec self σ1 h1 o1 dy2 dx2 false Hh1 ltac:(lia) ltac:(lia)) as H2.
  cbv iota in H2.
  cbn [data o1] in H2. rewrite roll_23_roll_23 in H2.
  eexists _, _. split.
  - rewrite (bind_ok _ _ _ _ _ H1). exact H2.
  - apply lookup_insert_eq.
Qed.

Lemma shift_compose_witness :
  let t : tensor4 F32.t := [[[[F32.one; F32.zero; F32.of_Z 2]; [F32.zero; F32.zero; F32.one]]]] in
  let σ : gmap nat tensor_obj := {[ 0 := mkTensor t false true ]} in
  ∃ (h' : nat) (σ' : gmap nat tensor_obj),
    (h1 ← random_circular_spatial_shift (vgg19_profile "vgg19") 0 1 2 false;
     random_circular_spatial_shift (vgg19_profile "vgg19") h1 3 (-4) false) σ = (Ok h', σ')
    ∧ σ' !! h' = Some {| data := roll_23 (1 + 3) (2 + -4) t; requires_grad := true;
                         is_leaf := true |}.
Proof.
  intros t σ.
  apply (shift_compose (vgg19_profile "vgg19") σ 0 (mkTensor t false true) 1 2 3 (-4)).
  - reflexivity.
  - lia.
  - lia.
  - lia.
  - lia.
Defined.

(** X8.  The offsets of a shift count modulo the height and the width: adding
    multiples of them gives a tensor with the same data, as long as the
    offsets stay of magnitude below [2^62]. *)
Theorem shift_periodic
    (self : Utils) (σ : gmap nat tensor_obj) (h : nat) (o : tensor_obj)
    (N C H W : nat) (dy dx i j : Z) (undo : bool) :
  σ !! h = Some o →
  rect4 N C H W (data o) →
  (- 2 ^ 62 < dy < 2 ^ 62)%Z → (- 2 ^ 62 < dx < 2 ^ 62)%Z →
  (- 2 ^ 62 < dy + i * Z.of_nat H < 2 ^ 62)%Z →
  (- 2 ^ 62 < dx + j * Z.of_nat W < 2 ^ 62)%Z →
  random_circular_spatial_shift self h (dy + i * Z.of_nat H) (dx + j * Z.of_nat W) undo σ
  = random_circular_spatial_shift self h dy dx undo σ.
Proof.
  intros Hh Hrect Hdy Hdx Hdy' Hdx'.
  rewrite !(shift_spec self σ h o) by (done || (destruct undo; lia)).
  destruct undo; [| by rewrite (roll_23_periodic N C H W)].
  replace (- (dy + i * Z.of_nat H))%Z with (- dy + (- i) * Z.of_nat H)%Z by lia.
  replace (- (dx + j * Z.of_nat W))%Z with (- dx + (- j) * Z.of_nat W)%Z by lia.
  by rewrite (roll_23_periodic N C H W).
Qed.

Lemma shift_periodic_witness :
  let t : tensor4 F32.t := [[[[F32.one; F32.zero; F32.of_Z 2]; [F32.zero; F32.zero; F32.one]]]] in
  let σ : gmap nat tensor_obj := {[ 0 := mkTensor t false true ]} in
  random_circular_spatial_shift (vgg19_profile "vgg19") 0
    (1 + 5 * Z.of_nat 2) (2 + -3 * Z.of_nat 3) false σ
  = random_circular_spatial_shift (vgg19_profile "vgg19") 0 1 2 false σ.
Proof.
  intros t σ.
  apply (shift_periodic (vgg19_profile "vgg19") σ 0 (mkTensor t false true) 1 1 2 3).
  - reflexivity.
  - by repeat constructor.
  - lia.
  - lia.
  - lia.
  - lia.
Defined.

Lemma concat_Permutation {A} (l k : list (list A)) : l ≡ₚ k → concat l ≡ₚ concat k.
Proof.
  induction 1 as [| x l k _ IH | x y l | l k m _ IH1 _ IH2]; simpl.
  - done.
  - by rewrite IH.
  - rewrite !app_assoc. by rewrite (Permutation_app_comm y x).
  - by rewrite IH1.
Qed.

Lemma concat_map_Permutation {A} (f : list A → list A) (l : list (list A)) :
  (∀ x, f x ≡ₚ x) → concat (map f l) ≡ₚ concat l.
Proof.
  intros Hf. induction l as [| x l IH]; simpl; [done |]. by rewrite Hf, IH.
Qed.

Lemma roll_23_rect {A} (N C H W : nat) (dy dx : Z) (t : tensor4 A) :
  rect4 N C H W t → rect4 N C H W (roll_23 dy dx t).
Proof.
  intros [Hn Ht]. unfold roll_23. split; [by rewrite length_fmap |].
  apply Forall_fmap. eapply Forall_impl; [exact Ht |]. intros blk [Hc Hb]. cbn.
  split; [by rewrite length_fmap |].
  apply Forall_fmap. eapply Forall_impl; [exact Hb |]. intros img [Hh Hw]. cbn.
  split; [by rewrite length_fmap, length_roll |].
  apply Forall_fmap. rewrite roll_Permutation.
  eapply Forall_impl; [exact Hw |]. intros row Hrow. cbn. by rewrite length_roll.
Qed.

(** X9.  For offsets of magnitude below [2^62] the shift keeps the shape of
    the tensor and moves its values without adding or losing any: every
    image plane of the result holds the values of the plane it comes from,
    each as many times. *)
Theorem shift_keeps_shape_and_values
    (self : Utils) (σ : gmap nat tensor_obj) (h : nat) (o : tensor_obj)
    (N C H W : nat) (dy dx : Z) (undo : bool) :
  σ !! h = Some o →
  rect4 N C H W (data o) →
  (- 2 ^ 62 < dy < 2 ^ 62)%Z → (- 2 ^ 62 < dx < 2 ^ 62)%Z →
  ∃ (h' : nat) (σ' : gmap nat tensor_obj) (o' : tensor_obj),
    random_circular_spatial_shift self h dy dx undo σ = (Ok h', σ')
    ∧ σ' !! h' = Some o'
    ∧ rect4 N C H W (data o')
    ∧ Forall2 (Forall2 (λ img img' : list (list F32.t), concat img' ≡ₚ concat img))
        (data o) (data o').
Proof.
  intros Hh Hrect Hdy Hdx. eexists _, _, _.
  split; [apply shift_spec; [done | destruct undo; lia | destruct undo; lia] |].
  split; [apply lookup_insert_eq |].
  cbn [data]. split; [by apply roll_23_rect |].
  unfold roll_23. apply Forall2_fmap_r, Forall_Forall2_diag, Forall_forall.
  intros blk _. apply Forall2_fmap_r, Forall_Forall2_diag, Forall_forall.
  intros img _.
  unfold compose.
  etrans; [apply concat_map_Permutation; intros row; apply roll_Permutation |].
  apply concat_Permutation, roll_Permutation.
Qed.

Lemma shift_keeps_shape_and_values_witness :
  let t : tensor4 F32.t := [[[[F32.one; F32.zero; F32.of_Z 2]; [F32.zero; F32.zero; F32.one]]]] in
  let σ : gmap nat tensor_obj := {[ 0 := mkTensor t false true ]} in
  ∃ (h' : nat) (σ' : gmap nat tensor_obj) (o' : tensor_obj),
    random_circular_spatial_shift (vgg19_profile "vgg19") 0 7 (-5) false σ = (Ok h', σ')
    ∧ σ' !! h' = Some o'
    ∧ rect4 1 1 2 3 (data o')
    ∧ Forall2 (Forall2 (λ img img' : list (list F32.t), concat img' ≡ₚ concat img))
        t (data o').
Proof.
  intros t σ.
  apply (shift_keeps_shape_and_values (vgg19_profile "vgg19") σ 0 (mkTensor t false true)
           1 1 2 3 7 (-5) false).
  - reflexivity.
  - by repeat constructor.
  - lia.
  - lia.
Defined.

(** * Further properties: the construction of the smoother *)

Lemma F64_params : (1 < F64.prec)%Z ∧ (F64.prec < F64.emax)%Z.
Proof. by vm_compute. Qed.

(** [int(kernel_size / 2)] returns for every kernel size that
    [torch.arange] accepts: the quotient is a finite binary64. *)
Lemma py_int_half (kernel_size : Z) :
  (0 ≤ kernel_size < 2 ^ 63)%Z →
  ∃ p, py_int (F64.div (F64.of_Z kernel_size) (F64.of_Z 2)) = Ok p.
Proof.
  intros Hks.
  destruct F64_params as [Hp He].
  assert (inject_Z kernel_size * bpow 0 == inject_Z kernel_size)%Q as Hk0.
  { assert (bpow 0 == 1)%Q as -> by reflexivity. ring. }
  assert (0 <= inject_Z kernel_size)%Q as Hlo.
  { change 0%Q with (inject_Z 0). rewrite <- Zle_Qle. lia. }
  assert (inject_Z kernel_size < bpow 63)%Q as Hhi.
  { rewrite bpow_Z by lia. rewrite <- Zlt_Qlt. lia. }
  destruct (binary_normalize_correct F64.prec F64.emax Hp He kernel_size 0 63 false)
    as [Hfv Herr].
  { rewrite Hk0, Qabs_pos by done. exact Hhi. }
  { by vm_compute. }
  fold (F64.of_Z kernel_size) in Hfv, Herr. rewrite Hk0 in Herr.
  assert (bpow (fexp F64.prec F64.emax 63 - 1) == 512)%Q as Hb by reflexivity.
  rewrite Hb in Herr. apply Qabs_Qle_condition in Herr.
  assert (bpow 63 + 512 < bpow 64)%Q as Hroom by reflexivity.
  assert (SF2Q (F64.of_Z 2) == 2)%Q as H2 by reflexivity.
  destruct (SFdiv_correct F64.prec F64.emax Hp He (F64.of_Z kernel_size) (F64.of_Z 2) 64)
    as [[Hfin _] _].
  - exact Hfv.
  - by split.
  - rewrite H2. lra.
  - rewrite H2. apply Qabs_Qlt_condition.
    split; [apply Qlt_shift_div_l | apply Qlt_shift_div_r]; lra.
  - by vm_compute.
  - unfold F64.div. destruct (SFdiv _ _ _ _) as [s | s | | s m e]; try done; cbn; eauto.
Qed.

(** X10.  A sigma that is zero: the construction raises [ZeroDivisionError], at
    [1 / (std_1d * math.sqrt(2 * math.pi))], for every kernel size that
    [torch.arange] accepts and on every host, with or without CUDA. *)
Theorem zero_sigma_raises
    (torch_exp : F32.t → F32.t) (torch_sum : list (list F32.t) → F32.t)
    (cuda : bool) (kernel_size : Z) (s : bool) :
  (0 ≤ kernel_size < 2 ^ 63)%Z →
  CascadeGaussianSmoothing_init torch_exp torch_sum cuda kernel_size (S754_zero s)
  = Raise ZeroDivisionError.
Proof.
  intros Hks. unfold CascadeGaussianSmoothing_init.
  destruct (py_int_half kernel_size Hks) as [p ->]. cbn [rbind].
  assert (kernels torch_exp kernel_size (S754_zero s) = Raise ZeroDivisionError) as ->;
    [| reflexivity].
  unfold kernels, arange.
  assert ((kernel_size <? 0)%Z || (2 ^ 63 <=? kernel_size)%Z = false) as ->.
  { apply orb_false_intro; [apply Z.ltb_ge | apply Z.leb_gt]; lia. }
  cbn [rbind]. unfold cascade_coefficients. cbn [map mapM].
  unfold gauss_kernel at 1. unfold meshgrid. unfold gauss_factor at 1.
  assert (F64.eqb (F64.mul (F64.mul (F64.literal 5 10) (S754_zero s))
                     (F64.sqrt (F64.mul (F64.of_Z 2) math_pi))) F64.zero = true) as ->
    by (destruct s; vm_compute; reflexivity).
  reflexivity.
Qed.

Lemma zero_sigma_raises_witness :
  CascadeGaussianSmoothing_init exp_model sum_in_order false 5 (S754_zero false)
  = Raise ZeroDivisionError.
Proof.
  apply (zero_sigma_raises exp_model sum_in_order false 5 false). lia.
Defined.

(** ** The sign of sigma *)

Section Opposite.
Variables prec emax : Z.

(** Rounding does not look at the sign it is given. *)
Lemma binary_round_aux_opp (sx : bool) (m e : Z) (l : location) :
  binary_round_aux prec emax (negb sx) m e l
  = SFopp (binary_round_aux prec emax sx m e l).
Proof.
  unfold binary_round_aux.
  destruct (shr_fexp prec emax m e l) as [mrs' e'].
  destruct (shr_fexp prec emax _ e' loc_Exact) as [mrs'' e''].
  destruct (shr_m mrs'') as [|p|p]; [done | | done].
  by destruct (e'' <=? emax - prec)%Z.
Qed.

Lemma binary_round_opp (sx : bool) (p : positive) (e : Z) :
  binary_round prec emax (negb sx) p e = SFopp (binary_round prec emax sx p e).
Proof.
  unfold binary_round. destruct (shl_align p e _) as [mz ez].
  apply binary_round_aux_opp.
Qed.

Lemma SFmul_opp_l (x y : spec_float) :
  SFmul prec emax (SFopp x) y = SFopp (SFmul prec emax x y).
Proof.
  destruct x as [sx | sx | | sx mx ex], y as [sy | sy | | sy my ey];
    try reflexivity; cbn [SFmul SFopp]; try (by destruct sx, sy).
  rewrite <- binary_round_aux_opp. by destruct sx, sy.
Qed.

Lemma SFmul_opp_r (x y : spec_float) :
  SFmul prec emax x (SFopp y) = SFopp (SFmul prec emax x y).
Proof.
  destruct x as [sx | sx | | sx mx ex], y as [sy | sy | | sy my ey];
    try reflexivity; cbn [SFmul SFopp]; try (by destruct sx, sy).
  rewrite <- binary_round_aux_opp. by destruct sx, sy.
Qed.

Lemma SFdiv_opp_r (x y : spec_float) :
  SFdiv prec emax x (SFopp y) = SFopp (SFdiv prec emax x y).
Proof.
  destruct x as [sx | sx | | sx mx ex], y as [sy | sy | | sy my ey];
    try reflexivity; cbn [SFdiv SFopp]; try (by destruct sx, sy).
  destruct (SFdiv_core_binary prec emax (Z.pos mx) ex (Z.pos my) ey) as [[mz ez] lz].
  rewrite <- binary_round_aux_opp. by destruct sx, sy.
Qed.
End Opposite.

Lemma SFopp_involutive (x : spec_float) : SFopp (SFopp x) = x.
Proof. destruct x as [s | s | | s m e]; cbn; by rewrite ?negb_involutive. Qed.

Lemma to_f32_opp (x : F64.t) : to_f32 (SFopp x) = SFopp (to_f32 x).
Proof.
  destruct x as [s | s | | s m e]; try reflexivity. cbn [SFopp to_f32].
  apply binary_round_opp.
Qed.

Lemma SFeqb_opp_zero (x : spec_float) : SFeqb (SFopp x) F64.zero = SFeqb x F64.zero.
Proof. by destruct x as [s | [] | | [] m e]. Qed.

(** The factor of a negated deviation is the negated factor. *)
Lemma gauss_factor_opp (torch_exp : F32.t → F32.t) (size_1d : Z) (std_1d : F64.t)
    (g : list (list F32.t)) :
  gauss_factor torch_exp size_1d (SFopp std_1d) g
  = match gauss_factor torch_exp size_1d std_1d g with
    | Ok f => Ok (map (map SFopp) f)
    | Raise e => Raise e
    end.
Proof.
  unfold gauss_factor, F64.mul, F64.div, F64.eqb.
  rewrite SFmul_opp_l, SFeqb_opp_zero.
  destruct (SFeqb _ F64.zero); [done |]. f_equal.
  rewrite <- list_fmap_compose. apply list_fmap_ext. intros _ row _. cbn.
  rewrite <- list_fmap_compose. apply list_fmap_ext. intros _ x _. cbn.
  rewrite SFdiv_opp_r, !to_f32_opp. unfold F32.mul, F32.div, F32.opp.
  rewrite SFmul_opp_l. do 2 f_equal. f_equal.
  rewrite SFdiv_opp_r, SFmul_opp_l, SFmul_opp_r. by rewrite SFopp_involutive.
Qed.

Lemma gauss_kernel_opp (torch_exp : F32.t → F32.t) (kernel_size : Z) (sigma : F64.t)
    (meshgrids : list (list (list F32.t))) :
  gauss_kernel torch_exp kernel_size (SFopp sigma) meshgrids
  = gauss_kernel torch_exp kernel_size sigma meshgrids.
Proof.
  unfold gauss_kernel. destruct meshgrids as [| g0 [| g1 [| g2 gs]]]; try done.
  rewrite !gauss_factor_opp.
  destruct (gauss_factor _ _ sigma g0) as [f0|]; [cbn [rbind] | done].
  destruct (gauss_factor _ _ sigma g1) as [f1|]; [cbn [rbind] | done].
  f_equal. rewrite <- !list_fmap_compose.
  rewrite !zip_with_fmap_l, !zip_with_fmap_r. apply zip_with_ext; [| done | done].
  intros row0 row1. cbn. rewrite <- !list_fmap_compose.
  rewrite !zip_with_fmap_l, !zip_with_fmap_r. apply zip_with_ext; [| done | done].
  intros a b. cbn. unfold F32.mul.
  by rewrite SFmul_opp_l, SFmul_opp_l, SFmul_opp_r, SFopp_involutive.
Qed.

(** X11.  The sign of sigma does not matter: the construction with [-sigma]
    does what the construction with [sigma] does, exceptions included.  A
    negative sigma is not refused. *)
Theorem sigma_sign_irrelevant
    (torch_exp : F32.t → F32.t) (torch_sum : list (list F32.t) → F32.t)
    (cuda : bool) (kernel_size : Z) (sigma : F64.t) :
  CascadeGaussianSmoothing_init torch_exp torch_sum cuda kernel_size (SFopp sigma)
  = CascadeGaussianSmoothing_init torch_exp torch_sum cuda kernel_size sigma.
Proof.
  unfold CascadeGaussianSmoothing_init.
  assert (kernels torch_exp kernel_size (SFopp sigma)
          = kernels torch_exp kernel_size sigma) as ->; [| done].
  unfold kernels. destruct (arange kernel_size) as [r|]; [cbn [rbind] | done].
  unfold cascade_coefficients. cbn [map mapM]. unfold F64.mul.
  by rewrite !SFmul_opp_r, !gauss_kernel_opp.
Qed.

(** The sign of a product is the product of the signs, unless the product
    is NaN. *)
Lemma F32_mul_sign (x y : F32.t) :
  SFis_nan (F32.mul x y) = true
  ∨ SFsign (F32.mul x y) = xorb (SFsign x) (SFsign y).
Proof.
  destruct x as [sx | sx | | sx mx ex], y as [sy | sy | | sy my ey];
    try (by left); try (by right).
  apply binary_round_aux_sign.
Qed.

Lemma gauss_factor_signs (torch_exp : F32.t → F32.t) (size_1d : Z) (std_1d : F64.t)
    (g f : list (list F32.t)) :
  (∀ x, SFsign (torch_exp x) = false) →
  gauss_factor torch_exp size_1d std_1d g = Ok f →
  let c := to_f32 (F64.div (F64.of_Z 1)
                     (F64.mul std_1d (F64.sqrt (F64.mul (F64.of_Z 2) math_pi)))) in
  Forall (Forall (λ a, SFis_nan a = true ∨ SFsign a = SFsign c)) f.
Proof.
  intros Hexp. unfold gauss_factor. destruct (F64.eqb _ _); [done |]. intros Hf.
  apply (f_equal (λ r, match r with Ok v => v | Raise _ => f end)) in Hf.
  cbv beta iota in Hf. rewrite <- Hf. clear Hf.
  cbv zeta. set (c := to_f32 (F64.div (F64.of_Z 1) _)).
  apply Forall_Forall_map. intros x.
  match goal with |- context [torch_exp ?a] => pose proof (Hexp a) as Hs end.
  destruct (F32_mul_sign c (torch_exp
    (F32.div (F32.opp (F32.mul
       (F32.div (F32.sub x (to_f32 (F64.div (F64.of_Z (size_1d - 1)) (F64.of_Z 2))))
          (to_f32 std_1d))
       (F32.div (F32.sub x (to_f32 (F64.div (F64.of_Z (size_1d - 1)) (F64.of_Z 2))))
          (to_f32 std_1d)))) (F32.of_Z 2)))) as [Hn | Hx]; [by left | right].
  rewrite Hx, Hs. apply xorb_false_r.
Qed.

(** X12.  No entry of an un-normalized kernel is negative, whatever the sign of
    sigma and whatever overflows: each entry is the product of two factors
    of the same sign, so it is NaN or its sign bit is clear. *)
Theorem kernels_never_negative
    (torch_exp : F32.t → F32.t) (kernel_size : Z) (sigma : F64.t)
    (ks : list (list (list F32.t))) :
  (∀ x, SFsign (torch_exp x) = false) →
  kernels torch_exp kernel_size sigma = Ok ks →
  Forall (Forall (Forall (λ x, SFsign x = false))) ks.
Proof.
  intros Hexp Hks.
  apply kernels_inv in Hks as (_ & r & a & b & c & _ & -> & Hk).
  eapply Forall2_Forall_r; [exact Hk |]. apply Forall_forall.
  intros coeff _ k [Hg _]. clear Hk.
  destruct (meshgrid_rect r) as (g0 & g1 & Hm & _ & _). rewrite Hm in Hg.
  unfold gauss_kernel in Hg.
  destruct (gauss_factor _ _ _ g0) as [f0|] eqn:Hf0; [cbn [rbind] in Hg | done].
  destruct (gauss_factor _ _ _ g1) as [f1|] eqn:Hf1; [cbn [rbind] in Hg | done].
  injection Hg as <-.
  apply (gauss_factor_signs _ _ _ _ _ Hexp) in Hf0, Hf1. cbv zeta in Hf0, Hf1.
  set (sc := SFsign (to_f32 _)) in *.
  eapply Forall_zip_with_both; [| | exact Hf1].
  2:{ eapply (Forall_Forall_map_impl _ (λ a, SFis_nan a = true ∨ SFsign a = sc));
        [| exact Hf0].
      intros x [Hn | Hs].
      - left. by destruct x.
      - destruct (F32_mul_sign x F32.one) as [Hn' | Hs']; [by left | right].
        rewrite Hs', Hs. apply xorb_false_r. }
  intros row0 row1 Hr0 Hr1. cbv beta.
  eapply Forall_zip_with_both; [| exact Hr0 | exact Hr1].
  intros x y [Hx | Hx] [Hy | Hy]; cbv beta.
  - by destruct x.
  - by destruct x.
  - by destruct x, y.
  - destruct (F32_mul_sign x y) as [Hn | Hs].
    + by destruct (F32.mul x y).
    + rewrite Hs, Hx, Hy. apply xorb_nilpotent.
Qed.

Lemma kernels_never_negative_witness :
  ∃ ks, kernels exp_model 3 (SFopp (F64.of_Z 3)) = Ok ks
        ∧ Forall (Forall (Forall (λ x, SFsign x = false))) ks.
Proof.
  destruct (kernels exp_model 3 (SFopp (F64.of_Z 3))) as [ks|] eqn:Hks;
    [| vm_compute in Hks; discriminate Hks].
  exists ks. split; [reflexivity |].
  apply (kernels_never_negative exp_model 3 (SFopp (F64.of_Z 3)) ks).
  - intros x. apply exp_model_nonneg.
  - exact Hks.
Defined.

Section ExactRounding.
Local Open Scope Z_scope.
Variables prec emax : Z.
Local Abbreviation fexp := (SpecFloat.fexp prec emax).

(** Rounding a number of the format, given with its mantissa shifted to a
    lower exponent, returns that number. *)
Lemma binary_round_aux_exact (sx : bool) (p : positive) (e e0 : Z) :
  valid_binary prec emax (S754_finite sx p e) = true →
  e0 ≤ e →
  binary_round_aux prec emax sx (Z.pos p * 2 ^ (e - e0)) e0 loc_Exact
  = S754_finite sx p e.
Proof.
  intros Hv He0. apply valid_finite_inv in Hv as [Hc Hb].
  set (m0 := Z.pos p * 2 ^ (e - e0)).
  assert (0 < 2 ^ (e - e0)) as Hpow by (apply Z.pow_pos_nonneg; lia).
  assert (0 < m0) as Hm0 by (subst m0; lia).
  assert (Zdigits2 m0 + e0 = Zdigits2 (Z.pos p) + e) as Hd.
  { subst m0. rewrite Zdigits2_shift by lia. lia. }
  set (t := (inject_Z (Z.pos p) * bpow e)%Q).
  assert (inject_Z m0 * bpow e0 == t)%Q as Ht.
  { subst m0 t. rewrite inject_Z_mult. rewrite <- (bpow_Z (e - e0)) by lia.
    rewrite <- Qmult_assoc, <- bpow_add. by replace (e - e0 + e0) with e by lia. }
  unfold binary_round_aux, shr_fexp. rewrite Hd, Hc.
  destruct (located_shr (shr_record_of_loc m0 loc_Exact) e0 (e - e0) t)
    as (E1 & _ & L1 & D1 & _); [cbn; lia | by apply located_exact |].
  destruct (shr (shr_record_of_loc m0 loc_Exact) e0 (e - e0)) as [mrs' e'].
  cbn [fst snd] in *. rewrite Z.max_l in * by lia.
  replace (e0 + (e - e0)) with e in * by lia. subst e'.
  assert (shr_m mrs' = Z.pos p) as Hm.
  { rewrite D1. cbn [shr_m shr_record_of_loc]. subst m0. by rewrite Z.div_mul by lia. }
  (* the record left by the shift is exact *)
  assert (shr_r mrs' = false ∧ shr_s mrs' = false) as [Hr Hs].
  { destruct L1 as (Hlo & _ & Hst). cbv zeta in Hlo, Hst. rewrite Hm in Hlo, Hst.
    pose proof (bpow_pred e) as Hu. pose proof (bpow_pos (e - 1)) as Hu0.
    assert (t == inject_Z (2 * Z.pos p) * bpow (e - 1))%Q as Ht2.
    { subst t. rewrite inject_Z_mult, Hu. change (inject_Z 2) with 2%Q. ring. }
    destruct (shr_r mrs').
    - exfalso. rewrite Ht2 in Hlo.
      apply Qmult_le_r in Hlo; [| done]. rewrite <- Zle_Qle in Hlo. lia.
    - split; [done |]. apply Hst. rewrite Z.add_0_r. exact Ht2. }
  destruct (round_nearest_even_located mrs' e t L1) as (_ & _ & Hexact).
  rewrite (Hexact Hr Hs), Hm.
  rewrite Hc, Z.sub_diag. cbn [shr shr_record_of_loc shr_m fst snd].
  by rewrite (proj2 (Z.leb_le _ _) Hb).
Qed.
End ExactRounding.

(** The multiplication is commutative, on all floats. *)
Lemma SFmul_comm (prec emax : Z) (x y : spec_float) :
  SFmul prec emax x y = SFmul prec emax y x.
Proof.
  destruct x as [sx | sx | | sx mx ex], y as [sy | sy | | sy my ey];
    try reflexivity; cbn [SFmul]; try (by destruct sx, sy).
  by rewrite (xorb_comm sx sy), (Pos.mul_comm mx my), (Z.add_comm ex ey).
Qed.

(** Multiplying a float32 by the float 1 returns it. *)
Lemma F32_mul_one_r (x : F32.t) : F32.valid x = true → F32.mul x F32.one = x.
Proof.
  intros Hv. destruct x as [s | s | | s m e]; try reflexivity; try (by destruct s).
  change F32.one with (S754_finite false 8388608 (-23)).
  unfold F32.mul. cbn [SFmul]. rewrite xorb_false_r.
  pose proof (binary_round_aux_exact F32.prec F32.emax s m e (e + -23)%Z Hv ltac:(lia))
    as Hx.
  replace (e - (e + -23))%Z with 23%Z in Hx by lia.
  exact Hx.
Qed.

(** The entry at [(i, j)] of the product of a column factor and a row
    factor built from the same function [g] on the grid [r]. *)
Lemma product_kernel_lookup (g : F32.t → F32.t) (r : list F32.t) (i j : nat) :
  zip_with (zip_with F32.mul)
    (map (map (λ x, F32.mul x F32.one))
       (map (map g) (map (λ x, replicate (length r) x) r)))
    (map (map g) (replicate (length r) r)) !! i ≫= (.!! j)
  = r !! i ≫= λ ri, r !! j ≫= λ rj, Some (F32.mul (F32.mul (g ri) F32.one) (g rj)).
Proof.
  rewrite lookup_zip_with, !list_lookup_fmap.
  destruct (r !! i) as [ri|] eqn:Hi; [| done]. cbn.
  rewrite lookup_replicate_2 by (by eapply lookup_lt_Some). cbn.
  rewrite lookup_zip_with, !list_lookup_fmap.
  destruct (r !! j) as [rj|] eqn:Hj; cbn.
  - rewrite lookup_replicate_2 by (by eapply lookup_lt_Some). done.
  - by destruct (replicate (length r) ri !! j).
Qed.

Lemma gauss_kernel_symmetric (torch_exp : F32.t → F32.t)
    (kernel_size : Z) (sigma : F64.t) (r : list F32.t) (k : list (list F32.t)) :
  (∀ x, F32.valid (torch_exp x) = true) →
  gauss_kernel torch_exp kernel_size sigma (meshgrid r r) = Ok k →
  ∀ i j, k !! i ≫= (.!! j) = k !! j ≫= (.!! i).
Proof.
  intros Hexp Hk i j. unfold gauss_kernel, meshgrid, gauss_factor in Hk.
  destruct (F64.eqb _ _); [done |]. cbn [rbind] in Hk.
  apply (f_equal (λ r, match r with Ok v => v | Raise _ => k end)) in Hk.
  cbv beta iota zeta in Hk. rewrite <- Hk. clear Hk.
  match goal with
  | |- context [map (map ?f) (replicate _ r)] => set (g := f)
  end.
  rewrite !(product_kernel_lookup g).
  destruct (r !! i) as [ri|], (r !! j) as [rj|]; try done. cbn. f_equal.
  assert (∀ x, F32.valid (g x) = true) as Hg.
  { intros x. subst g. cbv beta. apply F32_mul_valid; [apply to_f32_valid | apply Hexp]. }
  rewrite !F32_mul_one_r by apply Hg. apply SFmul_comm.
Qed.

(** X13.  The kernels of the smoother are symmetric matrices: the entry at
    [(i, j)] of each kernel of each weight is its entry at [(j, i)], the
    Gaussian being the same along the two dimensions. *)
Theorem smoother_kernels_symmetric
    (torch_exp : F32.t → F32.t) (torch_sum : list (list F32.t) → F32.t)
    (kernel_size : Z) (sigma : F64.t) (s : CascadeGaussianSmoothing) :
  (∀ x, F32.valid (torch_exp x) = true) →
  CascadeGaussianSmoothing_init torch_exp torch_sum true kernel_size sigma = Ok s →
  Forall (λ w : tensor4 F32.t,
            Forall (Forall (λ k : list (list F32.t),
                              ∀ i j, k !! i ≫= (.!! j) = k !! j ≫= (.!! i))) w)
    [weight1 s; weight2 s; weight3 s].
Proof.
  intros Hexp Hinit. unfold CascadeGaussianSmoothing_init in Hinit.
  destruct (py_int _) as [p|]; [cbn [rbind] in Hinit | done].
  destruct (kernels _ _ _) as [ks|] eqn:Hks; [cbn [rbind] in Hinit | done].
  apply kernels_inv in Hks as (_ & r & a & b & c & _ & -> & Hk).
  assert (Forall (λ k : list (list F32.t), ∀ w, prepare_kernel torch_sum true k = Ok w →
            Forall (Forall (λ k' : list (list F32.t),
                              ∀ i j, k' !! i ≫= (.!! j) = k' !! j ≫= (.!! i))) w)
            [a; b; c]) as Hall.
  { apply Forall_forall. intros k Hin w Hw.
    apply list_elem_of_lookup in Hin as [n Hn].
    destruct (Forall2_lookup_r _ _ _ _ _ Hk Hn) as (coeff & _ & Hg & _).
    pose proof (gauss_kernel_symmetric _ _ _ _ _ Hexp Hg) as Hsym.
    unfold prepare_kernel, to_device in Hw. injection Hw as <-.
    cbn [replicate]. repeat constructor; intros i j;
      rewrite !list_lookup_fmap;
      pose proof (Hsym i j) as Hij;
      destruct (k !! i) as [ri|], (k !! j) as [rj|]; cbn in Hij |- *;
      rewrite ?list_lookup_fmap; try done;
      try (by rewrite Hij); try (by rewrite <- Hij). }
  destruct (mapM _ _) as [prepared|] eqn:Hprep; [cbn [rbind] in Hinit | done].
  apply mapM_Forall2 in Hprep.
  apply Forall2_cons_inv_l in Hprep as (w1 & p1 & Hw1 & Hprep & ->).
  apply Forall2_cons_inv_l in Hprep as (w2 & p2 & Hw2 & Hprep & ->).
  apply Forall2_cons_inv_l in Hprep as (w3 & p3 & Hw3 & Hprep & ->).
  apply Forall2_nil_inv_l in Hprep as ->.
  injection Hinit as <-. cbn [weight1 weight2 weight3].
  apply Forall_cons in Hall as [Ha Hall]. apply Forall_cons in Hall as [Hb Hall].
  apply Forall_cons in Hall as [Hc _].
  repeat constructor; auto.
Qed.

Lemma smoother_kernels_symmetric_witness :
  Forall (λ w : tensor4 F32.t,
            Forall (Forall (λ k : list (list F32.t),
                              ∀ i j, k !! i ≫= (.!! j) = k !! j ≫= (.!! i))) w)
    [weight1 smoother_3; weight2 smoother_3; weight3 smoother_3].
Proof.
  apply (smoother_kernels_symmetric exp_model sum_in_order 3 (F64.of_Z 1) smoother_3).
  - intros x. apply exp_model_nonneg.
  - vm_compute. reflexivity.
Defined.

(** * Further properties: the smoothing *)

(** A positive integer below [2^53] is a binary64 number: the conversion
    returns it, with a mantissa of 53 digits. *)
Lemma F64_of_Z_exact (z : Z) :
  (0 < z < 2 ^ 53)%Z →
  ∃ (m : positive) (e : Z),
    F64.of_Z z = S754_finite false m e ∧ (-52 ≤ e ≤ 0)%Z
    ∧ Zdigits2 (Z.pos m) = 53%Z ∧ Z.pos m = (z * 2 ^ (- e))%Z.
Proof.
  intros Hz. destruct z as [| p | p]; [lia | | lia].
  unfold F64.of_Z. cbn [binary_normalize]. unfold binary_round.
  change (Z.pos (digits2_pos p)) with (Zdigits2 (Z.pos p)).
  set (d := Zdigits2 (Z.pos p)).
  assert (1 ≤ d ≤ 53)%Z as Hd.
  { split; [apply Zdigits2_ge; simpl; lia | apply Zdigits2_le; lia]. }
  assert (fexp F64.prec F64.emax (d + 0) = d - 53)%Z as ->.
  { unfold fexp, emin, F64.prec, F64.emax. lia. }
  destruct (shl_align_spec p 0 (d - 53)) as [He Hm].
  destruct (shl_align p 0 (d - 53)) as [mz ez]. cbn [fst snd] in He, Hm.
  rewrite Z.min_r in He, Hm by lia. subst ez.
  assert (Zdigits2 (Z.pos mz) = 53%Z) as Hdig.
  { rewrite Hm, Zdigits2_shift by lia. fold d. lia. }
  assert (valid_binary F64.prec F64.emax (S754_finite false mz (d - 53)) = true) as Hv.
  { cbn [valid_binary]. unfold bounded, canonical_mantissa.
    change (Z.pos (digits2_pos mz)) with (Zdigits2 (Z.pos mz)). rewrite Hdig.
    apply andb_true_iff. split; [apply Z.eqb_eq | apply Z.leb_le].
    - unfold fexp, emin, F64.prec, F64.emax. lia.
    - unfold F64.prec, F64.emax. lia. }
  pose proof (binary_round_aux_exact F64.prec F64.emax false mz (d - 53) (d - 53) Hv
                ltac:(lia)) as Hex.
  rewrite Z.sub_diag, Z.pow_0_r, Z.mul_1_r in Hex.
  exists mz, (d - 53)%Z. split; [exact Hex |]. split; [lia |]. split; [exact Hdig |].
  rewrite Hm. by replace (0 - (d - 53))%Z with (- (d - 53))%Z by lia.
Qed.

(** [int(kernel_size / 2)] is the integer half of the kernel size, for
    every kernel size below [2^53]: the division by two is exact or leaves
    a half, which [int] drops. *)
Lemma py_int_half_exact (kernel_size : Z) :
  (0 ≤ kernel_size < 2 ^ 53)%Z →
  py_int (F64.div (F64.of_Z kernel_size) (F64.of_Z 2)) = Ok (kernel_size / 2)%Z.
Proof.
  intros Hks. destruct (decide (kernel_size = 0%Z)) as [-> | Hne]; [reflexivity |].
  destruct (F64_of_Z_exact kernel_size ltac:(lia)) as (m & e & -> & He & Hdig & Hm).
  change (F64.of_Z 2) with (S754_finite false 4503599627370496 (-51)).
  unfold F64.div. cbn [SFdiv]. unfold SFdiv_core_binary.
  rewrite Hdig.
  change (Zdigits2 (Z.pos 4503599627370496)) with 53%Z.
  assert (fexp F64.prec F64.emax (53 + e - (53 + -51)) = e - 2)%Z as ->.
  { unfold fexp, emin, F64.prec, F64.emax. lia. }
  rewrite Z.min_l by lia.
  replace (e - -51 - (e - 2))%Z with 53%Z by lia.
  rewrite Z.shiftl_mul_pow2 by lia.
  assert (Z.div_eucl (Z.pos m * 2 ^ 53) (Z.pos 4503599627370496) = (2 * Z.pos m, 0))%Z
    as ->.
  { pose proof (Z_div_mod (Z.pos m * 2 ^ 53) (Z.pos 4503599627370496) ltac:(lia)) as H.
    destruct (Z.div_eucl _ _) as [q r]. destruct H as [H1 H2].
    change (2 ^ 53)%Z with 9007199254740992%Z in H1. f_equal; lia. }
  change (new_location (Z.pos 4503599627370496) 0) with loc_Exact.
  assert (valid_binary F64.prec F64.emax (S754_finite false m (e - 1)) = true) as Hv.
  { cbn [valid_binary]. unfold bounded, canonical_mantissa.
    change (Z.pos (digits2_pos m)) with (Zdigits2 (Z.pos m)). rewrite Hdig.
    apply andb_true_iff. split; [apply Z.eqb_eq | apply Z.leb_le].
    - unfold fexp, emin, F64.prec, F64.emax. lia.
    - unfold F64.prec, F64.emax. lia. }
  pose proof (binary_round_aux_exact F64.prec F64.emax false m (e - 1) (e - 2) Hv
                ltac:(lia)) as Hex.
  replace (e - 1 - (e - 2))%Z with 1%Z in Hex by lia.
  rewrite Z.pow_1_r, (Z.mul_comm (Z.pos m) 2) in Hex.
  cbn [xorb]. rewrite Hex. cbn [py_int].
  rewrite (proj2 (Z.leb_gt 0 (e - 1))) by lia.
  f_equal. rewrite Hm. rewrite Z.quot_div_nonneg.
  - replace (- (e - 1))%Z with (1 + - e)%Z by lia.
    rewrite Z.pow_add_r, Z.pow_1_r by lia.
    apply Z.div_mul_cancel_r; [lia |].
    apply Z.pow_nonzero; lia.
  - apply Z.mul_nonneg_nonneg; [lia | apply Z.pow_nonneg; lia].
  - apply Z.pow_pos_nonneg; lia.
Qed.

(** A smoother with [k] by [k] kernels and padding [p]: the padding adds
    [2 p] to the height and the width, each convolution takes [k - 1]
    away. *)
Lemma forward_rect_any (s : CascadeGaussianSmoothing) (k p N H W : nat)
    (k1 k2 k3 : list (list F32.t)) (input : tensor4 F32.t) :
  Z.to_nat (pad s) = p → 1 ≤ k → k ≤ 2 * p + 1 →
  weight1 s = replicate 3 [k1] → weight2 s = replicate 3 [k2] →
  weight3 s = replicate 3 [k3] →
  rect2 k k k1 → rect2 k k k2 → rect2 k k k3 →
  rect4 N 3 H W input → p < H → p < W →
  ∃ out, forward s input = Ok out
         ∧ rect4 N 3 (H + 2 * p + 1 - k) (W + 2 * p + 1 - k) out.
Proof.
  intros Hp Hk1' Hk Hw1 Hw2 Hw3 Hk1 Hk2 Hk3 Hin HpH HpW. unfold forward.
  rewrite Hp, Hw1, Hw2, Hw3.
  destruct (reflect_pad_rect p N 3 H W input Hin HpH HpW) as (padded & -> & Hpad).
  cbn [rbind].
  destruct (conv2d_groups3_rect k N (H + 2 * p) (W + 2 * p) k1 padded) as (g1 & -> & Hg1);
    [lia | done | done | lia | lia |]. cbn [rbind].
  destruct (conv2d_groups3_rect k N (H + 2 * p) (W + 2 * p) k2 padded) as (g2 & -> & Hg2);
    [lia | done | done | lia | lia |]. cbn [rbind].
  destruct (conv2d_groups3_rect k N (H + 2 * p) (W + 2 * p) k3 padded) as (g3 & -> & Hg3);
    [lia | done | done | lia | lia |]. cbn [rbind].
  eexists. split; [reflexivity |].
  by repeat apply rect4_add4.
Qed.

(** X14.  The shape of the smoothed tensor, for every kernel size from 1 up to
    [2^53]: the padding is [kernel_size // 2], and on an input of shape
    [(N, 3, H, W)] whose height and width exceed it the smoother returns a
    tensor of shape [(N, 3, H, W)] when the kernel size is odd and of shape
    [(N, 3, H + 1, W + 1)] when it is even. *)
Theorem smoother_output_shape
    (torch_exp : F32.t → F32.t) (torch_sum : list (list F32.t) → F32.t)
    (kernel_size : Z) (sigma : F64.t) (s : CascadeGaussianSmoothing)
    (N H W : nat) (input : tensor4 F32.t) :
  (0 < kernel_size < 2 ^ 53)%Z →
  CascadeGaussianSmoothing_init torch_exp torch_sum true kernel_size sigma = Ok s →
  rect4 N 3 H W input →
  Z.to_nat (kernel_size / 2) < H →
  Z.to_nat (kernel_size / 2) < W →
  pad s = (kernel_size / 2)%Z
  ∧ ∃ out, forward s input = Ok out
           ∧ rect4 N 3 (if Z.odd kernel_size then H else H + 1)
                       (if Z.odd kernel_size then W else W + 1) out.
Proof.
  intros Hks Hs Hin HpH HpW.
  apply CascadeGaussianSmoothing_init_inv in Hs
    as (_ & Hp & _ & k1 & k2 & k3 & Hw1 & Hw2 & Hw3 & Hk1 & Hk2 & Hk3).
  rewrite py_int_half_exact in Hp by lia.
  assert (pad s = (kernel_size / 2)%Z) as Hpad by congruence.
  split; [done |].
  pose proof (Z.div_mod kernel_size 2 ltac:(lia)) as Hdm.
  pose proof (Z.mod_pos_bound kernel_size 2 ltac:(lia)) as Hmb.
  rewrite Zmod_odd in Hdm, Hmb.
  destruct (forward_rect_any s (Z.to_nat kernel_size) (Z.to_nat (kernel_size / 2))
              N H W k1 k2 k3 input) as (out & Hout & Hrect); try done.
  - by rewrite Hpad.
  - lia.
  - destruct (Z.odd kernel_size); lia.
  - exists out. split; [done |].
    destruct (Z.odd kernel_size).
    + replace (H + 2 * Z.to_nat (kernel_size / 2) + 1 - Z.to_nat kernel_size) with H
        in Hrect by lia.
      by replace (W + 2 * Z.to_nat (kernel_size / 2) + 1 - Z.to_nat kernel_size) with W
        in Hrect by lia.
    + replace (H + 2 * Z.to_nat (kernel_size / 2) + 1 - Z.to_nat kernel_size) with (H + 1)
        in Hrect by lia.
      by replace (W + 2 * Z.to_nat (kernel_size / 2) + 1 - Z.to_nat kernel_size)
        with (W + 1) in Hrect by lia.
Qed.

Lemma smoother_output_shape_witness :
  pad smoother_4 = 2%Z
  ∧ ∃ out, forward smoother_4 (replicate 1 (replicate 3 (replicate 3 (replicate 3 F32.one))))
           = Ok out ∧ rect4 1 3 4 4 out.
Proof.
  apply (smoother_output_shape exp_model sum_in_order 4 (F64.of_Z 1) smoother_4 1 3 3).
  - lia.
  - vm_compute. reflexivity.
  - by repeat constructor.
  - vm_compute. lia.
  - vm_compute. lia.
Defined.

Lemma reflect_pad_img_small {A} (p H W : nat) (img : list (list A)) :
  rect2 H W img → H ≤ p ∨ W ≤ p → reflect_pad_img p img = Raise RuntimeError.
Proof.
  intros [Hlen Hrows] Hsmall. unfold reflect_pad_img.
  destruct (decide (p < length img)) as [Hp | Hp].
  - rewrite bool_decide_eq_true_2 by done.
    destruct img as [| row img]; [simpl in Hp; lia |].
    apply Forall_cons in Hrows as [Hrow _].
    cbn [forallb andb]. rewrite bool_decide_eq_false_2; [done |].
    simpl in *. lia.
  - by rewrite bool_decide_eq_false_2.
Qed.

(** X15.  The smoother raises on every input whose height or width is not
    larger than the padding: torch refuses the reflect padding, before any
    convolution. *)
Theorem forward_raises_on_small_input
    (self : CascadeGaussianSmoothing) (input : tensor4 F32.t) (N C H W : nat) :
  (0 ≤ pad self)%Z →
  rect4 N C H W input → 0 < N → 0 < C →
  H ≤ Z.to_nat (pad self) ∨ W ≤ Z.to_nat (pad self) →
  forward self input = Raise RuntimeError.
Proof.
  intros _ [Hn Hin] HN HC Hsmall. unfold forward, reflect_pad.
  destruct input as [| b rest]; [simpl in Hn; lia |].
  apply Forall_cons in Hin as [[Hc Hb] _].
  destruct b as [| img chs]; [simpl in Hc; lia |].
  apply Forall_cons in Hb as [Himg _].
  cbn [mapM]. by rewrite (reflect_pad_img_small _ H W img Himg Hsmall).
Qed.

Lemma forward_raises_on_small_input_witness :
  forward smoother_3 (replicate 2 (replicate 3 (replicate 4 (replicate 1 F32.one))))
  = Raise RuntimeError.
Proof.
  apply (forward_raises_on_small_input smoother_3 _ 2 3 4 1).
  - vm_compute. discriminate.
  - by repeat constructor.
  - lia.
  - lia.
  - right. vm_compute. lia.
Defined.

(** X16.  The smoother needs three channels: on an input with another number of
    channels that the padding accepts, the grouped convolution raises. *)
Theorem forward_requires_three_channels
    (torch_exp : F32.t → F32.t) (torch_sum : list (list F32.t) → F32.t)
    (kernel_size : Z) (sigma : F64.t)
    (self : CascadeGaussianSmoothing) (input : tensor4 F32.t) (N C H W : nat) :
  CascadeGaussianSmoothing_init torch_exp torch_sum true kernel_size sigma = Ok self →
  rect4 N C H W input → 0 < N → C ≠ 3 →
  Z.to_nat (pad self) < H → Z.to_nat (pad self) < W →
  forward self input = Raise RuntimeError.
Proof.
  intros _ Hin HN HC HpH HpW. unfold forward.
  destruct (reflect_pad_rect _ N C H W input Hin HpH HpW) as (padded & -> & [Hn Hp]).
  cbn [rbind]. unfold conv2d_groups3 at 1.
  destruct padded as [| b padded]; [simpl in Hn; lia |].
  apply Forall_cons in Hp as [[Hc _] _]. cbn [mapM].
  rewrite bool_decide_eq_false_2 by lia. reflexivity.
Qed.

Lemma forward_requires_three_channels_witness :
  forward smoother_3 (replicate 1 (replicate 1 (replicate 4 (replicate 4 F32.one))))
  = Raise RuntimeError.
Proof.
  apply (forward_requires_three_channels exp_model sum_in_order 3 (F64.of_Z 1)
           smoother_3 _ 1 1 4 4).
  - vm_compute. reflexivity.
  - by repeat constructor.
  - lia.
  - lia.
  - vm_compute. lia.
  - vm_compute. lia.
Defined.
